(** * Website Content Search: the crawl, chunking and retrieval pipeline

    A shallow embedding of [backend/app/main.py].  Python [str] values are
    lists of Unicode code points; the handler's effects (vector store,
    HTTP fetches, HTML parser, embedding model) are explicit: the store is
    threaded as state, every external call may raise, and a trace records
    the calls that were made. *)

From Stdlib Require Import ZArith NArith List Bool Lia String Ascii Floats.
From Stdlib Require Import DecimalN.
From stdpp Require Import base decidable countable list gmap.
Import ListNotations.

Local Open Scope Z_scope.

(** ** Text *)

(** A Python [str]: a sequence of code points. *)
Abbreviation char := N (only parsing).
Abbreviation text := (list N) (only parsing).

(** String literals of the source, written as Rocq strings. *)
Definition str (s : string) : text :=
  List.map N_of_ascii (list_ascii_of_string s).

(** The character U+0020, the separator of [" ".join] and the replacement
    of [normalize_space]. *)
Definition SP : char := 32%N.

(** [sep.join(parts)]. *)
Fixpoint join (sep : text) (parts : list text) : text :=
  match parts with
  | [] => []
  | [p] => p
  | p :: rest => p ++ sep ++ join sep rest
  end.

(** ["".join(parts)]. *)
Definition concat_text (parts : list text) : text := List.concat parts.

(** A Python truth test on a [str] or a [list]: non-empty. *)
Definition truthy {A} (l : list A) : bool :=
  match l with [] => false | _ :: _ => true end.

(** [s[:n]]. *)
Definition prefix_of (n : nat) (s : text) : text := firstn n s.
Arguments prefix_of : simpl never.

Module CharClass.

(** What [re] matches in the ASCII range: [\w] is [[a-zA-Z0-9_]], [\s] is
    the characters 9..13, 28..31 and 32. *)
Definition ascii_word (c : char) : bool :=
  ((48 <=? c) && (c <=? 57) || (65 <=? c) && (c <=? 90)
   || (97 <=? c) && (c <=? 122) || (c =? 95))%N.

Definition ascii_space (c : char) : bool :=
  ((9 <=? c) && (c <=? 13) || (28 <=? c) && (c <=? 32))%N.

End CharClass.

(** The Unicode tables of [re] beyond ASCII ([str.isalnum], [str.isspace])
    are not part of the repository: they are a parameter. *)
Record unicode := { uni_word : char -> bool; uni_space : char -> bool }.

Section Text.

Variable U : unicode.

(** [\w] *)
Definition is_word (c : char) : bool :=
  if (c <? 128)%N then CharClass.ascii_word c else uni_word U c.

(** [\s]; also the characters removed by [str.strip()]. *)
Definition is_space (c : char) : bool :=
  if (c <? 128)%N then CharClass.ascii_space c else uni_space U c.

(** [s.lstrip()] *)
Fixpoint lstrip (s : text) : text :=
  match s with
  | c :: r => if is_space c then lstrip r else s
  | [] => []
  end.

(** [s.strip()] *)
Definition strip (s : text) : text := rev (lstrip (rev (lstrip s))).

(** [re.sub(r"\s+", " ", s)]: every maximal run of whitespace becomes one
    U+0020; [in_ws] tells that the previous character was whitespace. *)
Fixpoint collapse_ws (in_ws : bool) (s : text) : text :=
  match s with
  | [] => []
  | c :: r =>
      if is_space c
      then (if in_ws then collapse_ws true r else SP :: collapse_ws true r)
      else c :: collapse_ws false r
  end.

(** [normalize_space], main.py:57 *)
Definition normalize_space (s : text) : text := strip (collapse_ws false s).

(** [re.findall(r"\w+|[^\w\s]", text)]: the scanner keeps the word run it is
    in ([run]); a word character extends it, any other character closes
    it, and a character that is neither a word character nor whitespace
    is a match of its own. *)
Definition close_run (run : text) : list text :=
  match run with [] => [] | _ :: _ => [run] end.

Fixpoint find_tokens (run : text) (s : text) : list text :=
  match s with
  | [] => close_run run
  | c :: r =>
      if is_word c then find_tokens (run ++ [c]) r
      else close_run run
           ++ (if is_space c then [] else [[c]])
           ++ find_tokens [] r
  end.

(** [tokenize_len], main.py:92 *)
Definition tokenize_len (s : text) : Z :=
  Z.of_nat (length (find_tokens [] s)).

(** [re.findall(r"\S+\s*", snip)]: [cur] is the match being read and
    [in_tail] tells that its [\s*] part has begun.  Whitespace before the
    first match is skipped. *)
Fixpoint find_words (cur : text) (in_tail : bool) (s : text) : list text :=
  match s with
  | [] => close_run cur
  | c :: r =>
      if is_space c then
        match cur with
        | [] => find_words [] false r
        | _ :: _ => find_words (cur ++ [c]) true r
        end
      else if in_tail then cur :: find_words [c] false r
      else find_words (cur ++ [c]) false r
  end.

(** ** Chunker *)

(** The inner loop of [chunk_by_token_limit] (main.py:102-107) over the
    words of an oversized snippet; the state is [(chunks, tmp, tmp_tokens)]. *)
Fixpoint pack_words (limit : Z) (words : list text)
    (chunks : list text) (tmp : list text) (tmp_tokens : Z)
    : list text * list text :=
  match words with
  | [] => (chunks, tmp)
  | w :: rest =>
      let wt := tokenize_len w in
      if (tmp_tokens + wt >? limit) && truthy tmp
      then pack_words limit rest (chunks ++ [strip (concat_text tmp)]) [w] wt
      else pack_words limit rest chunks (tmp ++ [w]) (tmp_tokens + wt)
  end.

(** main.py:100-109: the branch [t > limit]; returns the new [chunks]. *)
Definition split_oversized (limit : Z) (snip : text) (chunks : list text)
    : list text :=
  let words := find_words [] false snip in
  let '(chunks1, tmp) := pack_words limit words chunks [] 0 in
  if truthy tmp then chunks1 ++ [strip (concat_text tmp)] else chunks1.

(** The outer loop (main.py:97-114); the state is [(chunks, buf, buf_tokens)]. *)
Fixpoint chunk_loop (limit : Z) (snippets : list text)
    (chunks : list text) (buf : list text) (buf_tokens : Z) : list text :=
  match snippets with
  | [] => if truthy buf then chunks ++ [strip (join [SP] buf)] else chunks
  | snip :: rest =>
      let t := tokenize_len snip in
      if t >? limit then
        chunk_loop limit rest (split_oversized limit snip chunks) buf buf_tokens
      else if (buf_tokens + t >? limit) && truthy buf then
        chunk_loop limit rest (chunks ++ [strip (join [SP] buf)]) [snip] t
      else
        chunk_loop limit rest chunks (buf ++ [snip]) (buf_tokens + t)
  end.

(** [chunk_by_token_limit], main.py:95 *)
Definition chunk_by_token_limit (snippets : list text) (limit : Z) : list text :=
  chunk_loop limit snippets [] [] 0.

End Text.

(** The ASCII instance, for running the definitions on concrete inputs:
    no character beyond ASCII is a word character or whitespace. *)
Definition ascii_only : unicode :=
  {| uni_word := fun _ => false; uni_space := fun _ => false |}.

(** ** Invariants of the chunker *)

Section ChunkerInvariants.

Variable U : unicode.
Variable limit : Z.

Abbreviation all_space s := (Forall (fun c => is_space U c = true) s).
Abbreviation no_space s := (Forall (fun c => is_space U c = false) s).

(** The tokens in words: the maximal runs of word characters, counted
    where they begin ([in_word] tells that the previous character was a
    word character), and the characters that are neither word characters
    nor whitespace. *)
Fixpoint word_runs (in_word : bool) (s : text) : nat :=
  match s with
  | [] => 0
  | c :: r =>
      if is_word U c then (if in_word then 0 else 1) + word_runs true r
      else word_runs false r
  end.

Definition symbols (s : text) : nat :=
  length (List.filter (fun c => negb (is_word U c) && negb (is_space U c)) s).

(** Total token count of a list of pieces. *)
Definition sum_tokens (parts : list text) : Z :=
  fold_right (fun p acc => tokenize_len U p + acc) 0 parts.


(** A match of [\S+\s*]: a non-empty run without whitespace, then
    whitespace only. *)
Definition word_shape (w : text) : Prop :=
  exists run tl, w = run ++ tl /\ run <> [] /\ no_space run /\ all_space tl.

(** The scanner's state between two characters. *)
Definition scan_state (cur : text) (in_tail : bool) : Prop :=
  exists run tl,
    cur = run ++ tl /\ no_space run /\ all_space tl
    /\ (cur <> [] -> run <> [])
    /\ (in_tail = false -> tl = [])
    /\ (in_tail = true -> cur <> []).

(** A chunk that is one word of an oversized snippet, the word alone
    having more tokens than the limit. *)
Definition lone_fragment (snippets : list text) (c : text) : Prop :=
  exists snip w,
    In snip snippets /\ limit < tokenize_len U snip
    /\ In w (find_words U [] false snip) /\ limit < tokenize_len U w
    /\ c = strip U w
    /\ c <> [] /\ Forall (fun ch => is_space U ch = false) c.

Definition chunk_ok (snippets : list text) (c : text) : Prop :=
  tokenize_len U c <= limit \/ lone_fragment snippets c.

(** Invariant of the inner loop: [tmp_tokens] counts [tmp], and [tmp] is
    within the limit unless it is one word. *)
Definition tmp_inv (words : list text) (tmp : list text) (tmp_tokens : Z) : Prop :=
  tmp_tokens = sum_tokens tmp
  /\ (tmp = [] \/ tmp_tokens <= limit
      \/ exists w, tmp = [w] /\ In w words /\ limit < tokenize_len U w).

Definition word_chunk_ok (words : list text) (c : text) : Prop :=
  tokenize_len U c <= limit
  \/ exists w, In w words /\ limit < tokenize_len U w /\ c = strip U w.

(** Invariant of the outer loop: [buf_tokens] counts [buf], which is within
    the limit. *)
Definition buf_inv (buf : list text) (buf_tokens : Z) : Prop :=
  buf_tokens = sum_tokens buf /\ (buf = [] \/ buf_tokens <= limit).

End ChunkerInvariants.

(** ** Exceptions *)

(** The failures of the design: every one of them is a Python [Exception],
    so [except Exception] catches them all. *)
Inductive exn : Type :=
  | FetchError          (* requests: network failure, timeout, non-2xx *)
  | ExtractionError     (* the HTML parser *)
  | StoreError          (* the vector store: index, query, upsert *)
  | ConfigurationError  (* RuntimeError("PINECONE_API_KEY not set") *)
  | EmbeddingError      (* the embedding model *)
  | IndexError          (* [xs[0]] on an empty sequence *)
  | ValueError          (* [round(nan)] *)
  | OverflowError.      (* [round(inf)] *)

Inductive result (A : Type) : Type :=
  | Ok (a : A)
  | Raise (e : exn).
Arguments Ok {A} a.
Arguments Raise {A} e.

(** ** Scores *)

(** Python's [round(x)] on a float: the nearest integer, ties to the even
    one, computed on the exact value [m * 2^e] of the float. *)
Definition round_half_even (m e : Z) : Z :=
  if 0 <=? e then m * 2 ^ e
  else
    let d := 2 ^ (- e) in
    let q := m / d in
    let r := m mod d in
    if 2 * r <? d then q
    else if d <? 2 * r then q + 1
    else if Z.even q then q else q + 1.

Definition py_round (x : float) : result Z :=
  match Prim2SF x with
  | S754_zero _ => Ok 0
  | S754_infinity _ => Raise OverflowError
  | S754_nan => Raise ValueError
  | S754_finite neg m e =>
      let n := round_half_even (Zpos m) e in
      Ok (if neg then - n else n)
  end.

(** [int(round((score + 1) / 2 * 100))], main.py:160 *)
Definition score_percent_of (score : float) : result Z :=
  py_round ((score + 1) / 2 * 100)%float.

(** Python's [0.8]: the double nearest to 8/10. *)
Definition score_0_8 : float := 0x1.999999999999ap-1%float.

(** ** Data *)

Abbreviation vector := (list float) (only parsing).

(** The metadata stored with a chunk (main.py:136-142); on the way back
    any key may be missing. *)
Record metadata : Type := {
  md_site_id : option text;
  md_page_url : option text;
  md_path : option text;
  md_chunk_html : option text;
  md_title : option text;
}.

Definition no_metadata : metadata :=
  {| md_site_id := None; md_page_url := None; md_path := None;
     md_chunk_html := None; md_title := None |}.

(** One vector to upsert (main.py:133). *)
Record record : Type := {
  rec_id : text;
  rec_values : vector;
  rec_metadata : metadata;
}.

(** One match of a query response. *)
Record match_ : Type := {
  m_score : option float;
  m_metadata : option metadata;
}.

(** One search result (main.py:158-165). *)
Record row : Type := {
  raw_score : float;
  score_percent : Z;
  chunk_html : text;
  title : option text;
  path : text;
  page_url : option text;
}.

(** What [urlparse] gives. *)
Record parsed_url : Type := {
  scheme : text;
  netloc : text;
  url_path : text;
}.

(** An element as the code reads it: the concatenation of [str(c)] over
    its contents, and its stripped, non-empty strings in document order
    (what [get_text(sep, strip=True)] joins). *)
Record element : Type := {
  inner_html : text;
  strings : list text;
}.

(** A parsed document, as far as the code looks at it. *)
Record soup : Type := {
  (** [a["href"]] for [a] in [find_all("a", href=True)] *)
  anchors : list text;
  (** the [href] of [find("link", rel=canonical)], when there is one *)
  canonical_href : option text;
  (** the elements of the document with their names, in document order *)
  elements : list (text * element);
  (** the strings of the whole document *)
  all_strings : list text;
  (** [find_all(["section","article","div","p","li"])] once the
      [script], [style] and [noscript] elements are removed *)
  content_blocks : list element;
  (** the strings of the whole document after that removal *)
  content_strings : list text;
}.

(** [soup.find(tag)]: the first element of that name, in document order. *)
Definition find (sp : soup) (tag : text) : option element :=
  snd <$> List.find (fun named => bool_decide (fst named = tag)) (elements sp).

(** [tag.get_text(sep, strip=True)] *)
Definition get_text (sep : text) (strs : list text) : text := join sep strs.

(** Settings read from the environment (main.py:17-23). *)
Record config : Type := {
  PINECONE_API_KEY : option text;
  CHUNK_TOKEN_LIMIT : Z;
  TOP_K : Z;
  MAX_PAGES : Z;
}.

(** The external collaborators: vector store, embedding model, HTTP
    transport, HTML parser, URL functions and hash.  [Store] is the
    content of the vector store. *)
Record services : Type := {
  Store : Type;
  (** [SentenceTransformer(name)] and its embedding dimension *)
  load_embedder : result N;
  (** [embedder.encode(texts, ...)] *)
  encode : list text -> result (list vector);
  (** [client.list_indexes()]: the names *)
  list_indexes : Store -> result (list text);
  (** [client.create_index(name, dimension, ...)] *)
  create_index : Store -> text -> N -> Store * result unit;
  (** [index.query(vector, top_k, filter site_id)]: the ["matches"] *)
  index_query : Store -> text -> vector -> Z -> text -> result (list match_);
  (** [index.upsert(vectors)] *)
  index_upsert : Store -> text -> list record -> Store * result unit;
  (** [requests.get(url, timeout=30)] with [raise_for_status] *)
  http_get : text -> result text;
  (** [BeautifulSoup(html, "html.parser")] *)
  parse_html : text -> result soup;
  (** [urlparse(url)]; raises [ValueError] on a malformed URL *)
  urlparse : text -> result parsed_url;
  (** [urljoin(base, url)]; raises [ValueError] as [urlparse] does *)
  urljoin : text -> text -> result text;
  (** [hashlib.sha256(s.encode("utf-8")).hexdigest()] *)
  sha256_hex : text -> text;
}.

(** ** The handler monad *)

(** Calls to the outside, in the order they are made. *)
Inductive event : Type :=
  | EvListIndexes
  | EvCreateIndex (name : text) (dim : N)
  | EvQuery (index : text) (site_id : text) (top_k : Z)
  | EvFetch (url : text)
  | EvUpsert (index : text) (page : text) (records : list record).

Record world (S : Type) : Type := {
  store : S;
  trace : list event;
}.
Arguments store {S} w.
Arguments trace {S} w.

(** A computation reads and changes the world and returns or raises; what
    it did before raising stays done. *)
Definition M (S A : Type) : Type := world S -> result A * world S.

Definition ret {S A} (a : A) : M S A := fun w => (Ok a, w).

Definition bind {S A B} (c : M S A) (k : A -> M S B) : M S B :=
  fun w =>
    match c w with
    | (Ok a, w') => k a w'
    | (Raise e, w') => (Raise e, w')
    end.

Definition lift {S A} (r : result A) : M S A := fun w => (r, w).

(** The world after one more call. *)
Definition logged {S} (w : world S) (ev : event) : world S :=
  {| store := store w; trace := trace w ++ [ev] |}.

Definition log {S} (ev : event) : M S unit := fun w => (Ok tt, logged w ev).

(** The calls of an indexing pass: fetching and upserting. *)
Definition indexing_event (ev : event) : bool :=
  match ev with
  | EvFetch _ | EvUpsert _ _ _ => true
  | _ => false
  end.

(** [try: body / except Exception: continue] (main.py:215-223): a loop
    body that raises has ended, and the loop goes on. *)
Definition try_continue {S} (body : M S unit) : M S unit :=
  fun w =>
    match body w with
    | (Ok _, w') => (Ok tt, w')
    | (Raise _, w') => (Ok tt, w')
    end.

Declare Scope handler_scope.
Delimit Scope handler_scope with handler.
Notation "x <- c ;; k" := (bind c (fun x => k))
  (at level 100, c at next level, right associativity) : handler_scope.

(** Pure code that may raise. *)
Definition bind_result {A B} (r : result A) (k : A -> result B) : result B :=
  match r with Ok a => k a | Raise e => Raise e end.

Fixpoint map_result {A B} (f : A -> result B) (l : list A) : result (list B) :=
  match l with
  | [] => Ok []
  | x :: rest =>
      bind_result (f x) (fun y =>
      bind_result (map_result f rest) (fun ys => Ok (y :: ys)))
  end.

(** [str(n)] for a non-negative integer. *)
Fixpoint digits (u : Decimal.uint) : text :=
  match u with
  | Decimal.Nil => []
  | Decimal.D0 r => 48%N :: digits r
  | Decimal.D1 r => 49%N :: digits r
  | Decimal.D2 r => 50%N :: digits r
  | Decimal.D3 r => 51%N :: digits r
  | Decimal.D4 r => 52%N :: digits r
  | Decimal.D5 r => 53%N :: digits r
  | Decimal.D6 r => 54%N :: digits r
  | Decimal.D7 r => 55%N :: digits r
  | Decimal.D8 r => 56%N :: digits r
  | Decimal.D9 r => 57%N :: digits r
  end.

Definition decimal (n : N) : text := digits (N.to_uint n).

(** ** The pipeline *)

Section Pipeline.

Variable U : unicode.
Variable C : config.
Variable X : services.

Local Open Scope handler_scope.

Abbreviation HM A := (M (Store X) A) (only parsing).

(** [pc], main.py:40 *)
Definition pc : result unit :=
  match PINECONE_API_KEY C with
  | Some (_ :: _) => Ok tt
  | _ => Raise ConfigurationError
  end.

(** [ensure_index], main.py:48 *)
Definition ensure_index (name : text) (dim : N) : HM unit :=
  _ <- lift pc ;;
  _ <- log EvListIndexes ;;
  existing <- (fun w => (list_indexes X (store w), w)) ;;
  if bool_decide (name ∈ existing) then ret tt
  else
    _ <- log (EvCreateIndex name dim) ;;
    fun w =>
      let '(s', r) := create_index X (store w) name dim in
      (r, {| store := s'; trace := trace w |}).

(** [fetch_html], main.py:60 *)
Definition fetch_html (url : text) : HM text :=
  _ <- log (EvFetch url) ;;
  lift (http_get X url).

(** [x or "/"] *)
Definition or_slash (x : text) : text := if truthy x then x else str "/".

(** [detect_page_path], main.py:65: whatever the parser or the URL
    functions raise inside the [try] is swallowed; the last line is outside
    of it. *)
Definition detect_page_path (url html : text) : result text :=
  let fallback :=
    bind_result (urlparse X url) (fun u => Ok (or_slash (url_path u))) in
  match parse_html X html with
  | Ok sp =>
      match canonical_href sp with
      | Some href =>
          if truthy href
          then
            match bind_result (urljoin X url href) (urlparse X) with
            | Ok u => Ok (or_slash (url_path u))
            | Raise _ => fallback
            end
          else fallback
      | None => fallback
      end
  | Raise _ => fallback
  end.

(** The loop body of [clean_html_and_get_dom_chunks] (main.py:82-86) *)
Definition block_of (tag : element) : list text :=
  let text := get_text [SP] (strings tag) in
  if truthy text && (20 <? Z.of_nat (length text)) then
    let cleaned := normalize_space U (inner_html tag) in
    if truthy cleaned then [cleaned] else []
  else [].

(** [clean_html_and_get_dom_chunks], main.py:76 *)
Definition clean_html_and_get_dom_chunks (html : text) : result (list text) :=
  bind_result (parse_html X html) (fun sp =>
  let out := flat_map block_of (content_blocks sp) in
  if truthy out then Ok out
  else
    let body := get_text [SP] (content_strings sp) in
    if truthy body then Ok [normalize_space U body] else Ok out).

(** The tags tried by [extract_title_from_html], in this order. *)
Definition title_tags : list text :=
  [str "h1"; str "h2"; str "h3"; str "strong"; str "b"; str "p"; str "li"].

(** The loop of main.py:120-123: the first tag of the list whose first
    element has text decides. *)
Fixpoint title_loop (sp : soup) (tags : list text) : option text :=
  match tags with
  | [] => None
  | tag :: rest =>
      match find sp tag with
      | Some t =>
          if truthy (get_text [] (strings t))
          then Some (prefix_of 140 (normalize_space U (get_text [SP] (strings t))))
          else title_loop sp rest
      | None => title_loop sp rest
      end
  end.

(** [extract_title_from_html], main.py:117: the [try] swallows a parser
    failure, the last line parses again outside of it. *)
Definition extract_title_from_html (html : text) : result text :=
  let fallback :=
    bind_result (parse_html X html) (fun sp =>
    Ok (prefix_of 140 (normalize_space U (get_text [SP] (all_strings sp))))) in
  match parse_html X html with
  | Ok sp =>
      match title_loop sp title_tags with
      | Some t => Ok t
      | None => fallback
      end
  | Raise _ => fallback
  end.

(** [enumerate(zip(chunks, vecs))] *)
Fixpoint enumerate_from {A} (i : N) (l : list A) : list (N * A) :=
  match l with
  | [] => []
  | x :: rest => (i, x) :: enumerate_from (N.succ i) rest
  end.

(** One entry of [to_upsert], main.py:132-143 *)
Definition make_record (site_id page_url page_path : text)
    (item : N * (text * vector)) : result record :=
  let '(i, (html, v)) := item in
  let vid := prefix_of 40 (sha256_hex X (page_url ++ str "#" ++ decimal i)) in
  bind_result (extract_title_from_html html) (fun t =>
  Ok {| rec_id := vid;
        rec_values := v;
        rec_metadata :=
          {| md_site_id := Some site_id;
             md_page_url := Some page_url;
             md_path := Some page_path;
             md_chunk_html := Some html;
             md_title := Some t |} |}).

(** [upsert_chunks], main.py:127 *)
Definition upsert_chunks (index_name site_id page_url page_path : text)
    (chunks : list text) : HM unit :=
  vecs <- lift (encode X chunks) ;;
  to_upsert <- lift (map_result (make_record site_id page_url page_path)
                       (enumerate_from 0 (combine chunks vecs))) ;;
  _ <- log (EvUpsert index_name page_url to_upsert) ;;
  fun w =>
    let '(s', r) := index_upsert X (store w) index_name to_upsert in
    (r, {| store := s'; trace := trace w |}).

(** [d.get(key, default)] *)
Definition get_or {A} (o : option A) (default : A) : A :=
  match o with Some a => a | None => default end.

(** The first loop of [search_top_k], main.py:155-165 *)
Definition row_of (m : match_) : result row :=
  let md := get_or (m_metadata m) no_metadata in
  let score := get_or (m_score m) 0%float in
  bind_result (score_percent_of score) (fun pct =>
  Ok {| raw_score := score;
        score_percent := pct;
        chunk_html := get_or (md_chunk_html md) [];
        title := md_title md;
        path := get_or (md_path md) (str "/");
        page_url := md_page_url md |}).

(** The second loop of [search_top_k], main.py:167-172; the state is
    [(seen, uniq)]. *)
Fixpoint dedupe (top_k : Z) (out : list row)
    (seen : gset text) (uniq : list row) : list row :=
  match out with
  | [] => uniq
  | r :: rest =>
      let k := prefix_of 200 (chunk_html r) in
      let keep := negb (bool_decide (k ∈ seen)) && truthy (chunk_html r) in
      let seen' := if keep then {[k]} ∪ seen else seen in
      let uniq' := if keep then uniq ++ [r] else uniq in
      if top_k <=? Z.of_nat (length uniq') then uniq'
      else dedupe top_k rest seen' uniq'
  end.

(** [xs[0]] *)
Definition first_of {A} (l : list A) : result A :=
  match l with x :: _ => Ok x | [] => Raise IndexError end.

(** [search_top_k], main.py:146 *)
Definition search_top_k (index_name query site_id : text) (top_k : Z)
    : HM (list row) :=
  qvecs <- lift (encode X [query]) ;;
  qvec <- lift (first_of qvecs) ;;
  _ <- log (EvQuery index_name site_id (top_k * 3)) ;;
  matches <- (fun w =>
    (index_query X (store w) index_name qvec (top_k * 3) site_id, w)) ;;
  out <- lift (map_result row_of matches) ;;
  ret (dedupe top_k out ∅ []).

(** The loop of [same_domain_links], main.py:181-188; the state is
    [(seen, q)].  A target that [urljoin] or [urlparse] rejects ends the
    loop with their error. *)
Fixpoint links_loop (start_url : text) (origin : parsed_url) (limit : Z)
    (hrefs : list text) (seen : gset text) (q : list text) : result (list text) :=
  match hrefs with
  | [] => Ok q
  | a :: rest =>
      if limit <=? Z.of_nat (size seen) then Ok q
      else
        match urljoin X start_url a with
        | Raise e => Raise e
        | Ok href =>
            match urlparse X href with
            | Raise e => Raise e
            | Ok u =>
                let add :=
                  (bool_decide (scheme u = str "http")
                   || bool_decide (scheme u = str "https"))
                  && bool_decide (netloc u = netloc origin)
                  && negb (bool_decide (href ∈ seen)) in
                let seen' := if add then {[href]} ∪ seen else seen in
                let q' := if add then q ++ [href] else q in
                if limit <=? Z.of_nat (length q') then Ok q'
                else links_loop start_url origin limit rest seen' q'
            end
        end
  end.

(** [same_domain_links], main.py:176 *)
Definition same_domain_links (start_url html : text) (limit : Z)
    : result (list text) :=
  bind_result (parse_html X html) (fun sp =>
  bind_result (urlparse X start_url) (fun origin =>
  links_loop start_url origin limit (anchors sp) {[start_url]} [start_url])).

(** [start_html if page_url == req.url else fetch_html(page_url)] *)
Definition page_html (start_url start_html page_url : text) : HM text :=
  if bool_decide (page_url = start_url) then ret start_html
  else fetch_html page_url.

(** The body of the [try] in [search], main.py:216-221 *)
Definition index_page (index_name site_id start_url start_html page_url : text)
    : HM unit :=
  html <- page_html start_url start_html page_url ;;
  path <- lift (detect_page_path page_url html) ;;
  snippets <- lift (clean_html_and_get_dom_chunks html) ;;
  let chunks := chunk_by_token_limit U snippets (CHUNK_TOKEN_LIMIT C) in
  if truthy chunks
  then upsert_chunks index_name site_id page_url path chunks
  else ret tt.

(** The [for] loop of [search], main.py:214-223 *)
Fixpoint index_pages (index_name site_id start_url start_html : text)
    (urls : list text) : HM unit :=
  match urls with
  | [] => ret tt
  | page_url :: rest =>
      _ <- try_continue
             (index_page index_name site_id start_url start_html page_url) ;;
      index_pages index_name site_id start_url start_html rest
  end.

(** The indexing pass, main.py:212-223 *)
Definition index_site (index_name site_id url : text) : HM unit :=
  start_html <- fetch_html url ;;
  urls <- lift (same_domain_links url start_html (MAX_PAGES C)) ;;
  index_pages index_name site_id url start_html urls.

(** [u = urlparse(req.url)] and [f"{u.scheme}://{u.netloc}"], main.py:203 *)
Definition site_of (url : text) : result text :=
  bind_result (urlparse X url) (fun u =>
  Ok (scheme u ++ str "://" ++ netloc u)).

(** [f"html-chunks-v3-{dim}"] *)
Definition index_name_of (dim : N) : text := str "html-chunks-v3-" ++ decimal dim.

(** The part of [search] after the set-up, main.py:208-226: probe, index
    the site if the probe found nothing, query. *)
Definition answer (index_name site_id url query : text) : HM (list row) :=
  probe <- search_top_k index_name (str "the") site_id 1 ;;
  _ <- (if truthy probe then ret tt else index_site index_name site_id url) ;;
  search_top_k index_name query site_id (TOP_K C).

(** [search], main.py:196: the request is its [url] and [query]. *)
Definition search (url query : text) : HM (list row) :=
  dim <- lift (load_embedder X) ;;
  let index_name := index_name_of dim in
  _ <- ensure_index index_name dim ;;
  site_id <- lift (site_of url) ;;
  _ <- lift pc ;;
  answer index_name site_id url query.

End Pipeline.

(** ** The crawl and the ranking in the words of the design *)

(** The elements of [l] that pass [keep] and whose key is neither in
    [seen] nor the key of an earlier one: first occurrences, in the order
    of [l]. *)
Fixpoint first_by {A} (key : A -> text) (keep : A -> bool)
    (seen : gset text) (l : list A) : list A :=
  match l with
  | [] => []
  | x :: rest =>
      if keep x && negb (bool_decide (key x ∈ seen))
      then x :: first_by key keep ({[key x]} ∪ seen) rest
      else first_by key keep seen rest
  end.

Section Design.

Variable X : services.

(** An absolute [http] or [https] target on the host of the start URL. *)
Definition same_site (start_url href : text) : bool :=
  match urlparse X href, urlparse X start_url with
  | Ok u, Ok origin =>
      (bool_decide (scheme u = str "http")
       || bool_decide (scheme u = str "https"))
      && bool_decide (netloc u = netloc origin)
  | _, _ => false
  end.

(** The target of an anchor: its [href] resolved against the start URL,
    when the URL functions accept the [href] and the resolved URL. *)
Definition resolve (start_url a : text) : result text :=
  bind_result (urljoin X start_url a) (fun href =>
  bind_result (urlparse X href) (fun _ => Ok href)).

(** The targets of a run of anchors, when the URL functions accept them
    all. *)
Definition resolved (start_url : text) (hrefs : list text) : result (list text) :=
  map_result (resolve start_url) hrefs.

(** [discoverLinks] on the targets of the anchors: the start URL, then the
    distinct same-site targets in document order, as many as the budget
    leaves room for. *)
Definition discover_links (start_url : text) (targets : list text) (budget : Z)
    : list text :=
  start_url
  :: firstn (Z.to_nat (budget - 1))
       (first_by id (same_site start_url) {[start_url]} targets).

(** The canonical URL that the document declares for the page at [url]:
    the non-empty target of its canonical link, resolved against [url]; none
    when the document does not parse or declares none, and none when the
    URL functions reject the target. *)
Definition canonical_url (url html : text) : option parsed_url :=
  match parse_html X html with
  | Ok sp =>
      match canonical_href sp with
      | Some (c :: href) =>
          match urljoin X url (c :: href) with
          | Ok abs =>
              match urlparse X abs with
              | Ok u => Some u
              | Raise _ => None
              end
          | Raise _ => None
          end
      | _ => None
      end
  | Raise _ => None
  end.

(** An element with text. *)
Definition has_text (e : element) : bool := truthy (get_text [] (strings e)).

(** The names of the heading, emphasis, paragraph and list-item elements,
    headings first. *)
Definition titling : list text :=
  [str "h1"; str "h2"; str "h3"; str "strong"; str "b"; str "p"; str "li"].

(** The first heading, emphasis, paragraph or list-item element of the
    document, in document order. *)
Definition first_titling_element (sp : soup) : option element :=
  snd <$> List.find (fun named => bool_decide (fst named ∈ titling)) (elements sp).

(** Where the title comes from: of the first [h1], the first [h2], the
    first [h3], the first [strong], the first [b], the first [p] and the
    first [li] of the fragment, taken in this order, the first one with
    text; failing that, the whole fragment. *)
Definition title_source (sp : soup) : list text :=
  match List.find has_text (omap (find sp) titling) with
  | Some e => strings e
  | None => all_strings sp
  end.

(** The key of the deduplication: the first 200 characters. *)
Definition dedupe_key (r : row) : text := prefix_of 200 (chunk_html r).

Definition has_content (r : row) : bool := truthy (chunk_html r).

(** The Ranker's output: the first [top_k] results with content, one per
    key, in ranked order. *)
Definition ranked_unique (top_k : Z) (out : list row) : list row :=
  firstn (Z.to_nat top_k) (first_by dedupe_key has_content ∅ out).

End Design.

(** ** A small world to run the handler in *)

Module Toy.

(** [s] up to the first [c], and the rest from [c] on. *)
Fixpoint split_at (c : char) (s : text) : text * text :=
  match s with
  | [] => ([], [])
  | x :: r =>
      if (x =? c)%N then ([], s)
      else let '(a, b) := split_at c r in (x :: a, b)
  end.

Definition has (c : char) (s : text) : bool := existsb (N.eqb c) s.

(** [urlparse] on [scheme://host/path]; as in Python, a host with one of
    the brackets [[] and []] but not the other is rejected. *)
Definition parse_url (url : text) : result parsed_url :=
  let '(sch, rest) := split_at 58 url in
  match rest with
  | 58%N :: 47%N :: 47%N :: r =>
      let '(host, pth) := split_at 47 r in
      if xorb (has 91 host) (has 93 host) then Raise ValueError
      else Ok {| scheme := sch; netloc := host; url_path := pth |}
  | _ => Ok {| scheme := []; netloc := []; url_path := url |}
  end.

(** [urljoin] for absolute references and for paths from the root; both
    URLs are parsed. *)
Definition join_url (base href : text) : result text :=
  bind_result (parse_url base) (fun b =>
  bind_result (parse_url href) (fun h =>
  if truthy (scheme h) then Ok href
  else Ok (scheme b ++ str "://" ++ netloc b ++ href))).

Definition site_filter (site_id : text) (r : record) : bool :=
  bool_decide (md_site_id (rec_metadata r) = Some site_id).

Definition match_of (r : record) : match_ :=
  {| m_score := Some 0.5%float; m_metadata := Some (rec_metadata r) |}.

(** The first [top_k] records of the site. *)
Definition first_matches (s : list record) (top_k : Z) (site_id : text)
    : list match_ :=
  List.map match_of (firstn (Z.to_nat top_k) (List.filter (site_filter site_id) s)).

(** All records of the site, whatever [top_k]. *)
Definition all_matches (s : list record) (top_k : Z) (site_id : text)
    : list match_ :=
  List.map match_of (List.filter (site_filter site_id) s).

(** The store keeps the records it was given and answers a query with
    [matches].  [upsert_ok] tells whether upserts succeed. *)
Definition services_with (matches : list record -> Z -> text -> list match_)
    (web : text -> result text) (dom : text -> result soup)
    (upsert_ok : bool) : services :=
  {| Store := list record;
     load_embedder := Ok 2%N;
     encode := fun texts => Ok (List.map (fun _ => [1%float; 0%float]) texts);
     list_indexes := fun _ => Ok [index_name_of 2];
     create_index := fun s _ _ => (s, Ok tt);
     index_query := fun s _ _ top_k site_id => Ok (matches s top_k site_id);
     index_upsert := fun s _ recs =>
       if upsert_ok then (s ++ recs, Ok tt) else (s, Raise StoreError);
     http_get := web;
     parse_html := dom;
     urlparse := parse_url;
     urljoin := join_url;
     sha256_hex := fun s => s |}.

(** A query returns the first [top_k] records of the site. *)
Definition services := services_with first_matches.

Definition cfg : config :=
  {| PINECONE_API_KEY := Some (str "key");
     CHUNK_TOKEN_LIMIT := 500;
     TOP_K := 10;
     MAX_PAGES := 6 |}.

Definition home_url : text := str "http://a.test/".

Definition fox : element :=
  {| inner_html := str "<b>Fox</b>  jumps over the lazy dog";
     strings := [str "Fox"; str "jumps over the lazy dog"] |}.

(** The home page: one paragraph, links to a page that cannot be
    fetched, to another site, and to a second page. *)
Definition home : soup :=
  {| anchors := [str "/x"; str "http://b.test/"; str "/y"; str "/x"];
     canonical_href := None;
     elements := [(str "p", fox);
                  (str "b", {| inner_html := str "Fox"; strings := [str "Fox"] |})];
     all_strings := strings fox;
     content_blocks := [fox];
     content_strings := strings fox |}.

Definition owl : element :=
  {| inner_html := str "An owl sleeps all day long";
     strings := [str "An owl sleeps all day long"] |}.

Definition second : soup :=
  {| anchors := [];
     canonical_href := Some (str "/why");
     elements := [];
     all_strings := strings owl;
     content_blocks := [owl];
     content_strings := strings owl |}.

(** A page without any text. *)
Definition blank : soup :=
  {| anchors := [];
     canonical_href := None;
     elements := [];
     all_strings := [];
     content_blocks := [];
     content_strings := [] |}.

(** A page whose paragraph comes before its heading. *)
Definition intro : element :=
  {| inner_html := str "Intro  text"; strings := [str "Intro  text"] |}.

Definition headline : element :=
  {| inner_html := str "Big <i>news  today</i>";
     strings := [str "Big"; str "news  today"] |}.

Definition article : soup :=
  {| anchors := [];
     canonical_href := None;
     elements := [(str "p", intro); (str "h1", headline);
                  (str "i", {| inner_html := str "news  today";
                               strings := [str "news  today"] |})];
     all_strings := [str "Intro  text"; str "Big"; str "news  today"];
     content_blocks := [intro];
     content_strings := [str "Intro  text"; str "Big"; str "news  today"] |}.

(** A page whose only candidate block is short. *)
Definition short : element :=
  {| inner_html := str "Short note"; strings := [str "Short note"] |}.

Definition note : soup :=
  {| anchors := [];
     canonical_href := None;
     elements := [(str "p", short)];
     all_strings := [str "Short note"; str "with   gaps"];
     content_blocks := [short];
     content_strings := [str "Short note"; str "with   gaps"] |}.

(** A page with a malformed link between two good ones, and a canonical
    link that is malformed too. *)
Definition tangled : soup :=
  {| anchors := [str "/x"; str "http://["; str "/y"];
     canonical_href := Some (str "http://[");
     elements := [];
     all_strings := strings owl;
     content_blocks := [owl];
     content_strings := strings owl |}.

Definition tangled_url : text := str "http://a.test/t".

Definition web (url : text) : result text :=
  if bool_decide (url = home_url) then Ok (str "HOME")
  else if bool_decide (url = str "http://a.test/y") then Ok (str "SECOND")
  else if bool_decide (url = str "http://blank.test/") then Ok (str "BLANK")
  else if bool_decide (url = tangled_url) then Ok (str "TANGLED")
  else Raise FetchError.

(** A fragment without elements: its text is all there is. *)
Definition plain (html : text) : soup :=
  {| anchors := [];
     canonical_href := None;
     elements := [];
     all_strings := [html];
     content_blocks := [];
     content_strings := [html] |}.

Definition dom (html : text) : result soup :=
  if bool_decide (html = str "HOME") then Ok home
  else if bool_decide (html = str "SECOND") then Ok second
  else if bool_decide (html = str "BLANK") then Ok blank
  else if bool_decide (html = str "ARTICLE") then Ok article
  else if bool_decide (html = str "NOTE") then Ok note
  else if bool_decide (html = str "TANGLED") then Ok tangled
  else if bool_decide (html = str "BROKEN") then Raise ExtractionError
  else Ok (plain html).

Definition world0 : world (list record) := {| store := []; trace := [] |}.

(** The world after the set-up of a first request. *)
Definition ready : world (list record) := logged world0 EvListIndexes.

(** A stored chunk of the site with the given content. *)
Definition stored (html : text) : record :=
  {| rec_id := html;
     rec_values := [1%float; 0%float];
     rec_metadata :=
       {| md_site_id := Some (str "http://a.test");
          md_page_url := Some home_url;
          md_path := Some (str "/");
          md_chunk_html := Some html;
          md_title := Some html |} |}.

(** A store with a duplicate and an empty chunk. *)
Definition world_dup : world (list record) :=
  {| store := [stored (str "aaa"); stored (str "aaa"); stored [];
               stored (str "bbb"); stored (str "ccc")];
     trace := [] |}.

(** The site with a working store, and with a store that refuses upserts. *)
Definition site := services web dom true.
Definition site_broken_store := services web dom false.

(** The site with a store that answers every query with all it has of the
    site. *)
Definition site_generous := services_with all_matches web dom true.

End Toy.

(** ** Notions for the properties of the text functions *)

Section TextNotions.

Variable U : unicode.

(** The characters of [s] that are not whitespace, in order. *)
Definition ink (s : text) : text :=
  List.filter (fun c => negb (is_space U c)) s.

(** The ink of several texts, one after the other. *)
Definition inks (l : list text) : text := List.concat (List.map ink l).

(** [s.rstrip()] *)
Definition rstrip (s : text) : text := rev (lstrip U (rev s)).

(** Every whitespace character of [s] is U+0020 and follows a character
    that is not whitespace; [after_ws] tells that the character before [s]
    was whitespace. *)
Fixpoint spaced (after_ws : bool) (s : text) : bool :=
  match s with
  | [] => true
  | c :: r =>
      if is_space U c then negb after_ws && (c =? SP)%N && spaced true r
      else spaced false r
  end.

(** The words of [s]: its maximal runs of characters that are not
    whitespace, in order ([s.split()]); [cur] is the word being read. *)
Fixpoint split_ws (cur : text) (s : text) : list text :=
  match s with
  | [] => close_run cur
  | c :: r =>
      if is_space U c then close_run cur ++ split_ws [] r
      else split_ws (cur ++ [c]) r
  end.

Definition words_of (s : text) : list text := split_ws [] s.

(** The whitespace-normalized form of [s]: its words, one U+0020 between
    two of them and nothing around them. *)
Definition whitespace_normalized (s : text) : text := join [SP] (words_of s).

(** A word character is not whitespace, beyond ASCII as within. *)
Definition classes_apart : Prop :=
  forall c, is_space U c = true -> is_word U c = false.

(** No whitespace at either end. *)
Definition trimmed (s : text) : Prop := lstrip U s = s /\ rstrip s = s.

End TextNotions.

(** ** Notions for the properties of the pipeline *)

(** A decimal digit. *)
Definition is_digit (c : char) : bool := ((48 <=? c) && (c <=? 57))%N.

(** The text that is hashed into the id of chunk [i] of a page:
    [f"{page_url}#{i}"], main.py:132. *)
Definition chunk_key (page_url : text) (i : N) : text :=
  page_url ++ str "#" ++ decimal i.

(** The URLs fetched, in the order of the calls. *)
Definition fetches (tr : list event) : list text :=
  omap (fun ev => match ev with EvFetch u => Some u | _ => None end) tr.

(** The pages upserted, in the order of the calls. *)
Definition upserts (tr : list event) : list text :=
  omap (fun ev => match ev with EvUpsert _ p _ => Some p | _ => None end) tr.

(** The records upserted, all calls together. *)
Definition upserted (tr : list event) : list record :=
  List.concat
    (omap (fun ev => match ev with EvUpsert _ _ recs => Some recs | _ => None end) tr).

(** [w'] is [w] after more calls, all of them satisfying [P]. *)
Definition extends {S} (P : event -> Prop) (w w' : world S) : Prop :=
  exists evs, trace w' = trace w ++ evs /\ Forall P evs.

(** A call that is no fetch. *)
Definition no_fetch (ev : event) : Prop :=
  match ev with EvFetch _ => False | _ => True end.

(** A record of page [p] of the site. *)
Definition record_of (site_id p : text) (r : record) : Prop :=
  md_site_id (rec_metadata r) = Some site_id
  /\ md_page_url (rec_metadata r) = Some p.

(** A call that stays on the site of [url]: a query filtered on its site
    id, a fetch of [url] or of an [http]/[https] URL of its host, an upsert
    of records of such a page that carry the site id. *)
Definition on_site (X : services) (url : text) (ev : event) : Prop :=
  match ev with
  | EvListIndexes | EvCreateIndex _ _ => True
  | EvQuery _ s _ => site_of X url = Ok s
  | EvFetch u => u = url \/ same_site X url u = true
  | EvUpsert _ p recs =>
      (p = url \/ same_site X url p = true)
      /\ exists site_id,
           site_of X url = Ok site_id /\ Forall (record_of site_id p) recs
  end.

(* ================================================================= *)
(** * Properties *)

(** ** Token counts *)

Section TokenFacts.

Variable U : unicode.

Abbreviation ntok run s := (length (find_tokens U run s)).

Lemma ntok_run_irrelevant (s : text) (r1 r2 : text) :
  r1 <> [] -> r2 <> [] -> ntok r1 s = ntok r2 s.
Proof.
  revert r1 r2. induction s as [|c s IH]; intros r1 r2 H1 H2; simpl.
  - destruct r1, r2; simpl; congruence.
  - destruct (is_word U c).
    + apply IH; intros E; apply app_eq_nil in E; destruct E; discriminate.
    + rewrite !length_app. destruct r1, r2; simpl; congruence.
Qed.

Lemma ntok_run_le (s : text) (run : text) :
  (ntok run s <= length (close_run run) + ntok [] s)%nat.
Proof.
  destruct run as [|x run]; [simpl; lia|].
  destruct s as [|c s]; simpl; [lia|].
  destruct (is_word U c).
  - rewrite (ntok_run_irrelevant s (x :: run ++ [c]) [c]); [ | discriminate..].
    lia.
  - rewrite ?length_app. simpl. rewrite ?length_app. lia.
Qed.

Lemma ntok_run_ge (s : text) (run : text) : (ntok [] s <= ntok run s)%nat.
Proof.
  destruct run as [|x run]; [lia|].
  destruct s as [|c s]; simpl; [lia|].
  destruct (is_word U c).
  - rewrite (ntok_run_irrelevant s (x :: run ++ [c]) [c]); [lia | | ]; discriminate.
  - rewrite ?length_app. simpl. rewrite ?length_app. lia.
Qed.

Lemma ntok_close_le (s : text) (run : text) :
  (length (close_run run) <= ntok run s)%nat.
Proof.
  revert run. induction s as [|c s IH]; intros run; simpl; [lia|].
  destruct (is_word U c).
  - specialize (IH (run ++ [c])).
    destruct run; simpl in *; [lia|].
    destruct (run ++ [c]); simpl in *; lia.
  - rewrite !length_app. lia.
Qed.

(** Concatenation can only merge tokens. *)
Lemma ntok_app_le (a b : text) (run : text) :
  (ntok run (a ++ b) <= ntok run a + ntok [] b)%nat.
Proof.
  revert run. induction a as [|c a IH]; intros run; simpl.
  - apply ntok_run_le.
  - destruct (is_word U c); [apply IH|].
    rewrite !length_app. specialize (IH []). lia.
Qed.

(** A suffix has no more tokens than the whole. *)
Lemma ntok_suffix_le (a b : text) (run : text) :
  (ntok [] b <= ntok run (a ++ b))%nat.
Proof.
  revert run. induction a as [|c a IH]; intros run; simpl.
  - apply ntok_run_ge.
  - destruct (is_word U c); [apply IH|].
    rewrite !length_app. specialize (IH []). lia.
Qed.

(** A prefix has no more tokens than the whole. *)
Lemma ntok_prefix_le (a b : text) (run : text) :
  (ntok run a <= ntok run (a ++ b))%nat.
Proof.
  revert run. induction a as [|c a IH]; intros run; simpl.
  - apply ntok_close_le.
  - destruct (is_word U c); [apply IH|].
    rewrite !length_app. specialize (IH []). lia.
Qed.

(** The scanner counts the word runs and the symbols. *)
Lemma ntok_counts (s : text) (run : text) :
  ntok run s
  = (length (close_run run) + word_runs U (truthy run) s + symbols U s)%nat.
Proof.
  unfold symbols. revert run.
  induction s as [|c s IH]; intros run; simpl; [lia|].
  destruct (is_word U c) eqn:Hw; simpl.
  - rewrite IH. destruct run; simpl; lia.
  - rewrite !length_app, IH. destruct (is_space U c); simpl; lia.
Qed.

Lemma tokenize_len_counts (s : text) :
  tokenize_len U s = Z.of_nat (word_runs U false s + symbols U s).
Proof. unfold tokenize_len. by rewrite ntok_counts. Qed.

Lemma tokenize_len_nonneg (s : text) : 0 <= tokenize_len U s.
Proof. unfold tokenize_len. lia. Qed.

Lemma tokenize_len_app_le (a b : text) :
  tokenize_len U (a ++ b) <= tokenize_len U a + tokenize_len U b.
Proof. unfold tokenize_len. pose proof (ntok_app_le a b []). lia. Qed.

Lemma lstrip_suffix (s : text) : exists p, s = p ++ lstrip U s.
Proof.
  induction s as [|c s [p IH]]; simpl; [by exists []|].
  destruct (is_space U c); [|by exists []].
  exists (c :: p). simpl. congruence.
Qed.

Lemma strip_infix (s : text) : exists p q, s = p ++ strip U s ++ q.
Proof.
  unfold strip.
  destruct (lstrip_suffix s) as [p Hp].
  destruct (lstrip_suffix (rev (lstrip U s))) as [q Hq].
  exists p, (rev q).
  rewrite <- rev_app_distr, <- Hq, rev_involutive. exact Hp.
Qed.

Lemma tokenize_len_strip_le (s : text) :
  tokenize_len U (strip U s) <= tokenize_len U s.
Proof.
  destruct (strip_infix s) as (p & q & E).
  unfold tokenize_len. rewrite E at 2.
  pose proof (ntok_suffix_le p (strip U s ++ q) []).
  pose proof (ntok_prefix_le (strip U s) q []). lia.
Qed.

Lemma sum_tokens_app (l1 l2 : list text) :
  sum_tokens U (l1 ++ l2) = sum_tokens U l1 + sum_tokens U l2.
Proof. induction l1; simpl; lia. Qed.

Lemma tokenize_len_SP : tokenize_len U [SP] = 0.
Proof. reflexivity. Qed.

Lemma tokenize_len_join_le (parts : list text) :
  tokenize_len U (join [SP] parts) <= sum_tokens U parts.
Proof.
  induction parts as [|p rest IH]; [reflexivity|].
  destruct rest as [|p' rest].
  - simpl. lia.
  - change (join [SP] (p :: p' :: rest))
      with (p ++ [SP] ++ join [SP] (p' :: rest)).
    pose proof (tokenize_len_app_le p ([SP] ++ join [SP] (p' :: rest))).
    pose proof (tokenize_len_app_le [SP] (join [SP] (p' :: rest))).
    rewrite tokenize_len_SP in *.
    change (sum_tokens U (p :: p' :: rest))
      with (tokenize_len U p + sum_tokens U (p' :: rest)). lia.
Qed.

Lemma tokenize_len_concat_le (parts : list text) :
  tokenize_len U (concat_text parts) <= sum_tokens U parts.
Proof.
  induction parts as [|p rest IH]; [reflexivity|].
  unfold concat_text in *. simpl.
  pose proof (tokenize_len_app_le p (List.concat rest)). lia.
Qed.

End TokenFacts.

(** ** Words of an oversized snippet *)

Section WordFacts.

Variable U : unicode.

Abbreviation all_space s := (Forall (fun c => is_space U c = true) s).
Abbreviation no_space s := (Forall (fun c => is_space U c = false) s).

Lemma scan_state_init : scan_state U [] false.
Proof. exists [], []. split_and!; done. Qed.

Lemma find_words_shape (s : text) (cur : text) (in_tail : bool) :
  scan_state U cur in_tail -> Forall (word_shape U) (find_words U cur in_tail s).
Proof.
  revert cur in_tail.
  induction s as [|c s IH]; intros cur in_tail (run & tl & E & Hr & Ht & Hne & Hf & Htl).
  - simpl. destruct cur as [|x cur]; simpl; constructor; [|constructor].
    exists run, tl. split_and!; try done. by apply Hne.
  - simpl. destruct (is_space U c) eqn:Hc.
    + destruct cur as [|x cur]; apply IH; [apply scan_state_init|].
      exists run, (tl ++ [c]). split_and!; try done.
      * by rewrite app_assoc, <- E.
      * apply Forall_app; split; [exact Ht | by repeat constructor].
      * intros _. by apply Hne.
    + destruct in_tail.
      * constructor.
        -- exists run, tl. split_and!; try done. by apply Hne, Htl.
        -- apply IH. exists [c], []. split_and!; try done.
           by repeat constructor.
      * apply IH. rewrite (Hf eq_refl), app_nil_r in E. subst cur.
        exists (run ++ [c]), []. split_and!; try done.
        -- by rewrite app_nil_r.
        -- apply Forall_app; split; [exact Hr | by repeat constructor].
Qed.

Lemma lstrip_all_space (tl rest : text) :
  all_space tl -> lstrip U (tl ++ rest) = lstrip U rest.
Proof. induction 1 as [|c tl Hc _ IH]; simpl; [reflexivity|]. by rewrite Hc. Qed.

Lemma lstrip_no_space (run : text) :
  run <> [] -> no_space run -> lstrip U run = run.
Proof. intros Hne H. destruct H as [|c run Hc _]; [done|]. simpl. by rewrite Hc. Qed.

Lemma strip_word (run tl : text) :
  run <> [] -> no_space run -> all_space tl -> strip U (run ++ tl) = run.
Proof.
  intros Hne Hr Ht. unfold strip.
  assert (lstrip U (run ++ tl) = run ++ tl) as ->.
  { destruct Hr as [|c run Hc _]; [done|]. simpl. by rewrite Hc. }
  rewrite rev_app_distr, lstrip_all_space by (by apply Forall_rev).
  rewrite lstrip_no_space, rev_involutive; auto.
  - intros E. apply Hne. by rewrite <- (rev_involutive run), E.
  - by apply Forall_rev.
Qed.

(** The chunk made of one word alone has no whitespace in it. *)
Lemma strip_word_shape (w : text) :
  word_shape U w -> strip U w <> [] /\ no_space (strip U w).
Proof.
  intros (run & tl & -> & Hne & Hr & Ht). by rewrite strip_word.
Qed.

End WordFacts.

(** ** Whitespace *)

Section SpaceFacts.

Variable U : unicode.

Lemma strip_rstrip (s : text) : strip U s = rstrip U (lstrip U s).
Proof. reflexivity. Qed.

Lemma lstrip_idem (s : text) : lstrip U (lstrip U s) = lstrip U s.
Proof.
  induction s as [|c s IH]; simpl; [reflexivity|].
  destruct (is_space U c) eqn:Hc; [exact IH|]. simpl. by rewrite Hc.
Qed.

Lemma rstrip_idem (s : text) : rstrip U (rstrip U s) = rstrip U s.
Proof. unfold rstrip. by rewrite rev_involutive, lstrip_idem. Qed.

Lemma rstrip_snoc (s : text) (c : char) :
  rstrip U (s ++ [c]) = if is_space U c then rstrip U s else s ++ [c].
Proof.
  unfold rstrip. rewrite rev_app_distr. simpl.
  destruct (is_space U c); [reflexivity|].
  simpl. by rewrite rev_involutive.
Qed.

Lemma rstrip_prefix (s : text) : exists q, s = rstrip U s ++ q.
Proof.
  unfold rstrip. destruct (lstrip_suffix U (rev s)) as [p Hp].
  exists (rev p). rewrite <- rev_app_distr, <- Hp. by rewrite rev_involutive.
Qed.

(** What is left of [lstrip] starts with a character that is not
    whitespace. *)
Lemma lstrip_head (s : text) (c : char) (r : text) :
  lstrip U s = c :: r -> is_space U c = false.
Proof.
  induction s as [|x s IH]; simpl; [discriminate|].
  destruct (is_space U x) eqn:Hx; [exact IH|]. by intros [= <- _].
Qed.

Lemma lstrip_fix (s : text) :
  lstrip U s = s <-> match s with [] => True | c :: _ => is_space U c = false end.
Proof.
  destruct s as [|c s]; [done|]. split.
  - intros H. by apply lstrip_head in H.
  - intros H. simpl. by rewrite H.
Qed.

Lemma rstrip_keeps_head (s : text) : lstrip U s = s -> lstrip U (rstrip U s) = rstrip U s.
Proof.
  intros H. destruct (rstrip_prefix s) as [q Hq].
  apply lstrip_fix. destruct (rstrip U s) as [|c r] eqn:E; [done|].
  apply lstrip_fix in H. by rewrite Hq in H.
Qed.

Lemma strip_trimmed (s : text) : trimmed U (strip U s).
Proof.
  rewrite strip_rstrip. split.
  - apply rstrip_keeps_head, lstrip_idem.
  - apply rstrip_idem.
Qed.

Lemma trimmed_strip (s : text) : trimmed U s -> strip U s = s.
Proof. intros [Hl Hr]. by rewrite strip_rstrip, Hl, Hr. Qed.

Lemma strip_idem (s : text) : strip U (strip U s) = strip U s.
Proof. apply trimmed_strip, strip_trimmed. Qed.

(** *** Ink *)

Lemma ink_app (a b : text) : ink U (a ++ b) = ink U a ++ ink U b.
Proof. unfold ink. apply List.filter_app. Qed.

Lemma ink_rev (s : text) : ink U (rev s) = rev (ink U s).
Proof.
  unfold ink. induction s as [|c s IH]; simpl; [reflexivity|].
  rewrite List.filter_app, IH. simpl.
  destruct (negb (is_space U c)); simpl; [reflexivity | apply app_nil_r].
Qed.

Lemma ink_lstrip (s : text) : ink U (lstrip U s) = ink U s.
Proof.
  unfold ink. induction s as [|c s IH]; [reflexivity|].
  cbn [lstrip]. destruct (is_space U c) eqn:Hc; [|reflexivity].
  rewrite IH. simpl. by rewrite Hc.
Qed.

Lemma ink_strip (s : text) : ink U (strip U s) = ink U s.
Proof.
  unfold strip. by rewrite ink_rev, ink_lstrip, ink_rev, rev_involutive, ink_lstrip.
Qed.

Lemma ink_collapse_ws (b : bool) (s : text) : ink U (collapse_ws U b s) = ink U s.
Proof.
  unfold ink. revert b. induction s as [|c s IH]; intros b; [reflexivity|].
  cbn [collapse_ws]. simpl List.filter at 2.
  destruct (is_space U c) eqn:Hc; simpl.
  - destruct b; simpl; by rewrite IH.
  - rewrite Hc. simpl. by rewrite IH.
Qed.

Lemma ink_nil_lstrip (s : text) : ink U s = [] -> lstrip U s = [].
Proof.
  unfold ink. induction s as [|c s IH]; simpl; [reflexivity|].
  destruct (is_space U c); simpl; [exact IH | discriminate].
Qed.

Lemma ink_nil_strip (s : text) : ink U s = [] <-> strip U s = [].
Proof.
  split.
  - intros H. unfold strip. by rewrite (ink_nil_lstrip s H).
  - intros H. by rewrite <- ink_strip, H.
Qed.

(** *** Collapsed whitespace *)

Lemma spaced_weaken (s : text) : spaced U true s = true -> spaced U false s = true.
Proof. destruct s as [|c s]; simpl; [done|]. by destruct (is_space U c). Qed.

Lemma collapse_ws_spaced (b : bool) (s : text) : spaced U b (collapse_ws U b s) = true.
Proof.
  revert b. induction s as [|c s IH]; intros b; [reflexivity|].
  cbn [collapse_ws]. destruct (is_space U c) eqn:Hc.
  - destruct b; [apply IH|]. simpl. by rewrite IH.
  - simpl. rewrite Hc. apply IH.
Qed.

Lemma spaced_collapse_ws (b : bool) (s : text) :
  spaced U b s = true -> collapse_ws U b s = s.
Proof.
  revert b. induction s as [|c s IH]; intros b; simpl; [reflexivity|].
  destruct (is_space U c).
  - destruct b; simpl; [discriminate|].
    intros H. apply andb_prop in H as [Hc H]. apply N.eqb_eq in Hc. subst c.
    by rewrite IH.
  - intros H. by rewrite IH.
Qed.

Lemma spaced_lstrip (b : bool) (s : text) :
  spaced U b s = true -> spaced U false (lstrip U s) = true.
Proof.
  revert b. induction s as [|c s IH]; intros b; simpl; [reflexivity|].
  destruct (is_space U c) eqn:Hc.
  - intros H. apply andb_prop in H as [_ H]. by apply (IH true).
  - intros H. simpl. by rewrite Hc.
Qed.

Lemma spaced_prefix (b : bool) (p q : text) :
  spaced U b (p ++ q) = true -> spaced U b p = true.
Proof.
  revert b. induction p as [|c p IH]; intros b; simpl; [reflexivity|].
  destruct (is_space U c); [|apply IH].
  intros H. apply andb_prop in H as [H1 H]. rewrite H1. simpl. by apply IH.
Qed.

Lemma spaced_strip (b : bool) (s : text) :
  spaced U b s = true -> spaced U false (strip U s) = true.
Proof.
  intros H. rewrite strip_rstrip.
  apply spaced_lstrip in H.
  destruct (rstrip_prefix (lstrip U s)) as [q Hq].
  rewrite Hq in H. by apply spaced_prefix in H.
Qed.

End SpaceFacts.

(** ** Whitespace normalization *)

Section NormalFacts.

Variable U : unicode.

Lemma lstrip_app (x y : text) :
  lstrip U (x ++ y)
  = match lstrip U x with [] => lstrip U y | _ :: _ => lstrip U x ++ y end.
Proof.
  induction x as [|c x IH]; cbn [app lstrip]; [by destruct (lstrip U y)|].
  by destruct (is_space U c).
Qed.

Lemma rstrip_app (a b : text) :
  rstrip U (a ++ b)
  = match rstrip U b with [] => rstrip U a | _ :: _ => a ++ rstrip U b end.
Proof.
  unfold rstrip. rewrite rev_app_distr, lstrip_app.
  destruct (lstrip U (rev b)) as [|c r] eqn:E; [reflexivity|].
  rewrite rev_app_distr, rev_involutive.
  destruct (rev (c :: r)) eqn:E'; [|reflexivity].
  apply (f_equal (@length _)) in E'. rewrite length_rev in E'. discriminate.
Qed.

Lemma is_space_SP : is_space U SP = true.
Proof. reflexivity. Qed.

(** A word that is being read ends with a character that is not
    whitespace. *)
Lemma rstrip_word (cur : text) :
  cur <> [] -> Forall (fun c => is_space U c = false) cur -> rstrip U cur = cur.
Proof.
  intros Hne Hcur. destruct (exists_last Hne) as (s & c & ->).
  apply Forall_app in Hcur as [_ Hc]. apply Forall_inv in Hc.
  by rewrite rstrip_snoc, Hc.
Qed.

(** After whitespace [collapse_ws] begins with a character that is not
    whitespace. *)
Lemma collapse_ws_true_lstrip (s : text) :
  lstrip U (collapse_ws U true s) = collapse_ws U true s.
Proof.
  induction s as [|c s IH]; cbn [collapse_ws]; [reflexivity|].
  destruct (is_space U c) eqn:Hc; [exact IH|]. cbn [lstrip]. by rewrite Hc.
Qed.

Lemma split_ws_nonempty (s : text) (cur : text) :
  Forall (fun w => w <> []) (split_ws U cur s).
Proof.
  revert cur. induction s as [|c s IH]; intros cur; cbn [split_ws].
  - destruct cur; by repeat constructor.
  - destruct (is_space U c); [|apply IH].
    apply Forall_app. split; [destruct cur; by repeat constructor | apply IH].
Qed.

Lemma join_nil_inv (l : list text) :
  Forall (fun w => w <> []) l -> join [SP] l = [] -> l = [].
Proof.
  intros Hl. destruct Hl as [|w l Hw _]; [done|].
  destruct w; [done|]. destruct l; discriminate.
Qed.

Lemma join_cons (w : text) (l : list text) :
  l <> [] -> join [SP] (w :: l) = w ++ [SP] ++ join [SP] l.
Proof. by destruct l. Qed.

(** Collapsing and trimming keeps the words and puts one U+0020 between
    two of them. *)
Lemma collapse_ws_words (s : text) :
  (forall cur,
      cur <> [] -> Forall (fun c => is_space U c = false) cur ->
      rstrip U (cur ++ collapse_ws U false s) = join [SP] (split_ws U cur s))
  /\ (forall b,
      rstrip U (lstrip U (collapse_ws U b s)) = join [SP] (split_ws U [] s)).
Proof.
  induction s as [|c s [IHword IHgap]].
  - split.
    + intros cur Hne Hcur. cbn [collapse_ws split_ws]. rewrite app_nil_r.
      destruct cur; [done|]. by apply rstrip_word.
    + by intros b.
  - split.
    + intros cur Hne Hcur. cbn [collapse_ws split_ws].
      destruct (is_space U c) eqn:Hc.
      * specialize (IHgap true). rewrite collapse_ws_true_lstrip in IHgap.
        replace (cur ++ SP :: collapse_ws U true s)
          with ((cur ++ [SP]) ++ collapse_ws U true s) by (by rewrite <- app_assoc).
        rewrite rstrip_app, IHgap.
        assert (close_run cur = [cur]) as -> by (by destruct cur).
        cbn [app].
        destruct (join [SP] (split_ws U [] s)) as [|x r] eqn:E.
        -- apply join_nil_inv in E; [|apply split_ws_nonempty]. rewrite E.
           rewrite rstrip_snoc, is_space_SP. by apply rstrip_word.
        -- rewrite join_cons by (intros E'; by rewrite E' in E).
           by rewrite E, <- app_assoc.
      * replace (cur ++ c :: collapse_ws U false s)
          with ((cur ++ [c]) ++ collapse_ws U false s) by (by rewrite <- app_assoc).
        apply IHword; [by destruct cur|].
        apply Forall_app. split; [done | by constructor].
    + intros b. cbn [collapse_ws split_ws].
      destruct (is_space U c) eqn:Hc.
      * cbn [close_run app]. rewrite <- (IHgap true).
        destruct b; [reflexivity|]. cbn [lstrip]. by rewrite is_space_SP.
      * cbn [lstrip app]. rewrite Hc.
        apply (IHword [c]); [done | by constructor].
Qed.

(** [normalize_space] gives the whitespace-normalized form. *)
Lemma normalize_space_words (s : text) :
  normalize_space U s = whitespace_normalized U s.
Proof.
  unfold normalize_space, whitespace_normalized, words_of.
  rewrite strip_rstrip. apply (proj2 (collapse_ws_words s) false).
Qed.

End NormalFacts.

(** ** Chunk sizes *)

Section ChunkFacts.

Variable U : unicode.
Variable limit : Z.

Lemma tmp_inv_flush (words tmp : list text) (tt : Z) :
  tmp_inv U limit words tmp tt -> tmp <> [] ->
  word_chunk_ok U limit words (strip U (concat_text tmp)).
Proof.
  intros (Hs & [E | [Hle | (w & -> & Hin & Hw)]]) Hne; [done | left | right].
  - pose proof (tokenize_len_strip_le U (concat_text tmp)).
    pose proof (tokenize_len_concat_le U tmp). lia.
  - exists w. unfold concat_text. simpl. rewrite app_nil_r. auto.
Qed.

Lemma tmp_inv_single (words : list text) (w : text) :
  In w words -> tmp_inv U limit words [w] (tokenize_len U w).
Proof.
  intros Hin. split; [simpl; lia|].
  destruct (Z_le_gt_dec (tokenize_len U w) limit); [auto|].
  right; right. exists w. repeat split; auto. lia.
Qed.

Lemma Forall_snoc {A} (P : A -> Prop) (l : list A) (x : A) :
  Forall P l -> P x -> Forall P (l ++ [x]).
Proof. intros Hl Hx. apply Forall_app; split; [exact Hl | by constructor]. Qed.

Lemma truthy_true {A} (l : list A) : truthy l = true <-> l <> [].
Proof. destruct l; simpl; split; congruence. Qed.

Lemma truthy_false {A} (l : list A) : truthy l = false <-> l = [].
Proof. destruct l; simpl; split; congruence. Qed.

(** The inner loop emits only chunks that are fine, whatever property [P]
    of chunks follows from being a word chunk. *)
Lemma pack_words_ok (all : list text) (P : text -> Prop) (words : list text) :
  (forall c, word_chunk_ok U limit all c -> P c) ->
  forall chunks tmp tt chunks' tmp',
    incl words all -> Forall P chunks -> tmp_inv U limit all tmp tt ->
    pack_words U limit words chunks tmp tt = (chunks', tmp') ->
    Forall P chunks' /\ exists tt', tmp_inv U limit all tmp' tt'.
Proof.
  intros Hlift.
  induction words as [|w words IH]; intros chunks tmp tt chunks' tmp' Hin Hc Ht; simpl.
  - intros [= <- <-]. eauto.
  - assert (In w all) as Hw by (apply Hin; left; reflexivity).
    assert (incl words all) as Hin' by (intros x Hx; apply Hin; right; exact Hx).
    destruct ((tt + tokenize_len U w >? limit) && truthy tmp) eqn:Hb.
    + apply andb_prop in Hb as [_ Hb]. apply truthy_true in Hb.
      apply IH; auto using tmp_inv_single.
      apply Forall_snoc; [exact Hc|].
      apply Hlift. eapply tmp_inv_flush; eauto.
    + apply IH; auto.
      destruct Ht as (Hs & Ht). apply andb_false_iff in Hb as [Hb | Hb].
      * split; [rewrite sum_tokens_app; simpl; lia|].
        right; left. lia.
      * apply truthy_false in Hb. subst tmp tt. simpl.
        replace (0 + tokenize_len U w) with (tokenize_len U w) by lia.
        by apply tmp_inv_single.
Qed.

Lemma split_oversized_ok (snippets : list text) (snip : text) (chunks : list text) :
  In snip snippets -> limit < tokenize_len U snip ->
  Forall (chunk_ok U limit snippets) chunks ->
  Forall (chunk_ok U limit snippets) (split_oversized U limit snip chunks).
Proof.
  intros Hin Hbig Hc. unfold split_oversized.
  set (words := find_words U [] false snip).
  assert (Forall (word_shape U) words) as Hshape
    by apply find_words_shape, scan_state_init.
  assert (forall c, word_chunk_ok U limit words c -> chunk_ok U limit snippets c) as Hlift.
  { intros c [Hle | (w & Hw & Hlt & ->)]; [by left | right].
    destruct (strip_word_shape U w (proj1 (List.Forall_forall _ _) Hshape w Hw)).
    exists snip, w. split_and!; done. }
  destruct (pack_words U limit words chunks [] 0) as [cs' tmp'] eqn:E.
  eapply (pack_words_ok words _ words Hlift) in E as (Hcs' & tt' & Ht'); auto.
  - destruct (truthy tmp') eqn:Hb; [|exact Hcs'].
    apply Forall_snoc; [exact Hcs'|].
    apply Hlift. eapply tmp_inv_flush; eauto. by apply truthy_true.
  - intros x Hx; exact Hx.
  - split; [reflexivity | by left].
Qed.

Lemma buf_inv_flush (snippets buf : list text) (bt : Z) :
  buf_inv U limit buf bt -> buf <> [] -> chunk_ok U limit snippets (strip U (join [SP] buf)).
Proof.
  intros (Hs & [E | Hle]) Hne; [done | left].
  pose proof (tokenize_len_strip_le U (join [SP] buf)).
  pose proof (tokenize_len_join_le U buf). lia.
Qed.

Lemma chunk_loop_ok (all : list text) (snippets : list text) :
  forall chunks buf bt,
    incl snippets all -> Forall (chunk_ok U limit all) chunks -> buf_inv U limit buf bt ->
    Forall (chunk_ok U limit all) (chunk_loop U limit snippets chunks buf bt).
Proof.
  induction snippets as [|snip rest IH]; intros chunks buf bt Hin Hc Hb; simpl.
  - destruct (truthy buf) eqn:Ht; [|exact Hc].
    apply Forall_snoc; [exact Hc|].
    eapply buf_inv_flush; eauto. by apply truthy_true.
  - assert (In snip all) as Hs by (apply Hin; left; reflexivity).
    assert (incl rest all) as Hin' by (intros x Hx; apply Hin; right; exact Hx).
    destruct (tokenize_len U snip >? limit) eqn:Hbig.
    + apply IH; auto. apply split_oversized_ok; auto. lia.
    + destruct ((bt + tokenize_len U snip >? limit) && truthy buf) eqn:Hfl.
      * apply andb_prop in Hfl as [_ Hfl]. apply truthy_true in Hfl.
        apply IH; auto.
        -- apply Forall_snoc; [exact Hc|].
           eapply buf_inv_flush; eauto.
        -- split; [simpl; lia | right; lia].
      * apply IH; auto. destruct Hb as (Hsum & Hb).
        split; [rewrite sum_tokens_app; simpl; lia|]. right.
        apply andb_false_iff in Hfl as [Hfl | Hfl]; [lia|].
        apply truthy_false in Hfl. subst buf bt. simpl. lia.
Qed.

(** Without oversized blocks the chunker keeps the order: the chunks are
    the joined groups of a split of the blocks into consecutive groups. *)
Lemma chunk_loop_groups (snippets : list text) :
  forall chunks buf bt,
    Forall (fun s => tokenize_len U s <= limit) snippets ->
    exists groups,
      Forall (fun g => g <> []) groups
      /\ List.concat groups = buf ++ snippets
      /\ chunk_loop U limit snippets chunks buf bt
         = chunks ++ List.map (fun g => strip U (join [SP] g)) groups.
Proof.
  induction snippets as [|snip rest IH]; intros chunks buf bt Hsmall.
  - simpl. destruct buf as [|b buf].
    + exists []. simpl. rewrite app_nil_r. split_and!; [constructor | done..].
    + exists [b :: buf]. simpl. rewrite !app_nil_r. split_and!; [|done..].
      constructor; [discriminate | constructor].
  - apply Forall_cons in Hsmall as [Hs Hrest]. cbn [chunk_loop].
    rewrite (Z.gtb_ltb (tokenize_len U snip)), (proj2 (Z.ltb_ge _ _) Hs).
    destruct ((bt + tokenize_len U snip >? limit) && truthy buf) eqn:Hfl.
    + apply andb_prop in Hfl as [_ Hfl]. apply truthy_true in Hfl.
      destruct (IH (chunks ++ [strip U (join [SP] buf)]) [snip]
                   (tokenize_len U snip) Hrest) as (groups & Hne & Hcat & ->).
      exists (buf :: groups). split_and!.
      * by constructor.
      * simpl. by rewrite Hcat.
      * by rewrite <- app_assoc.
    + destruct (IH chunks (buf ++ [snip]) (bt + tokenize_len U snip) Hrest)
        as (groups & Hne & Hcat & ->).
      exists groups. split_and!; try done. by rewrite Hcat, <- app_assoc.
Qed.

(** The defect behind C1 in general: a block kept in the buffer comes
    out after the chunks of the oversized block that follows it. *)
Lemma chunk_loop_oversized_keeps_buffer (snip : text) (rest chunks buf : list text) (bt : Z) :
  limit < tokenize_len U snip ->
  chunk_loop U limit (snip :: rest) chunks buf bt
  = chunk_loop U limit rest (split_oversized U limit snip chunks) buf bt.
Proof. intros H. simpl. by rewrite (proj2 (Z.gtb_lt _ _) H). Qed.

End ChunkFacts.

(** C1. The chunker does not keep the input order when an oversized block
    follows buffered blocks: for the blocks ["a"; "b c d"] and the limit 2
    the block "a" is still in the buffer when "b c d" (3 tokens) is split,
    nothing flushes it, and its chunk comes out last, after the sub-chunks
    "b c" and "d". *)
Theorem chunk_order_oversized_block :
  chunk_by_token_limit ascii_only [str "a"; str "b c d"] 2
  = [str "b c"; str "d"; str "a"].
Proof. vm_compute. reflexivity. Qed.

(** What does hold of the order: without an oversized block the chunks
    are consecutive groups of blocks, each joined with single spaces. *)
Lemma chunk_order_without_oversized (U : unicode) (snippets : list text) (limit : Z) :
  Forall (fun s => tokenize_len U s <= limit) snippets ->
  exists groups,
    List.concat groups = snippets
    /\ chunk_by_token_limit U snippets limit
       = List.map (fun g => strip U (join [SP] g)) groups.
Proof.
  intros H.
  destruct (chunk_loop_groups U limit snippets [] [] 0 H) as (groups & _ & Hcat & Hrun).
  by exists groups.
Qed.

(** C2. Every chunk returned by [chunk_by_token_limit] has at most [limit]
    tokens, unless it is a single word ([\S+] run, without whitespace) of
    an oversized block, the word itself having more than [limit] tokens. *)
Theorem chunk_token_bound (U : unicode) (snippets : list text) (limit : Z) :
  Forall (fun c => tokenize_len U c <= limit \/ lone_fragment U limit snippets c)
         (chunk_by_token_limit U snippets limit).
Proof.
  apply (chunk_loop_ok U limit snippets snippets).
  - intros x Hx; exact Hx.
  - constructor.
  - split; [reflexivity | by left].
Qed.

(** The exception of C2 happens: one word of three tokens under limit 2. *)
Example chunk_lone_fragment :
  chunk_by_token_limit ascii_only [str "x a,b y"] 2 = [str "x"; str "a,b"; str "y"]
  /\ tokenize_len ascii_only (str "a,b") = 3.
Proof. vm_compute. split; reflexivity. Qed.

(** ** First occurrences *)

Section FirstBy.

Context {A : Type} (key : A -> text) (keep : A -> bool).

Lemma first_by_sublist (l : list A) (seen : gset text) :
  sublist (first_by key keep seen l) l.
Proof.
  revert seen. induction l as [|x l IH]; intros seen; simpl; [constructor|].
  destruct (keep x && negb (bool_decide (key x ∈ seen)));
    [apply sublist_skip | apply sublist_cons]; apply IH.
Qed.

Lemma first_by_keep (l : list A) (seen : gset text) :
  Forall (fun x => keep x = true) (first_by key keep seen l).
Proof.
  revert seen. induction l as [|x l IH]; intros seen; simpl; [constructor|].
  destruct (keep x) eqn:Hk; simpl; [|apply IH].
  destruct (bool_decide (key x ∈ seen)); simpl; [apply IH|].
  constructor; [exact Hk | apply IH].
Qed.

Lemma first_by_fresh (l : list A) (seen : gset text) :
  Forall (fun x => key x ∉ seen) (first_by key keep seen l).
Proof.
  revert seen. induction l as [|x l IH]; intros seen; simpl; [constructor|].
  destruct (keep x); simpl; [|apply IH].
  destruct (bool_decide (key x ∈ seen)) eqn:Hin; simpl; [apply IH|].
  apply bool_decide_eq_false in Hin.
  constructor; [exact Hin|].
  eapply Forall_impl; [apply IH|]. simpl. set_solver.
Qed.

Lemma first_by_NoDup (l : list A) (seen : gset text) :
  NoDup (List.map key (first_by key keep seen l)).
Proof.
  revert seen. induction l as [|x l IH]; intros seen; simpl; [constructor|].
  destruct (keep x); simpl; [|apply IH].
  destruct (bool_decide (key x ∈ seen)) eqn:Hin; simpl; [apply IH|].
  apply NoDup_cons. split; [|apply IH].
  intros Hx. apply list_elem_of_In, in_map_iff in Hx as (y & Hy & Hin').
  pose proof (first_by_fresh l ({[key x]} ∪ seen)) as Hf.
  rewrite List.Forall_forall in Hf. apply Hf in Hin'. set_solver.
Qed.

End FirstBy.

(** ** Link discovery *)

Section LinkFacts.

Variable X : services.

Lemma gset_size_insert (x : text) (seen : gset text) :
  x ∉ seen -> size ({[x]} ∪ seen) = S (size seen).
Proof. intros H. rewrite size_union by set_solver. by rewrite size_singleton. Qed.

Lemma resolved_cons (start_url a : text) (pre rs : list text) :
  resolved X start_url (a :: pre) = Ok rs ->
  exists href rs',
    resolve X start_url a = Ok href
    /\ resolved X start_url pre = Ok rs' /\ rs = href :: rs'.
Proof.
  unfold resolved. cbn [map_result].
  destruct (resolve X start_url a) as [href|]; [|discriminate].
  destruct (map_result (resolve X start_url) pre) as [rs'|]; [|discriminate].
  intros [= <-]. by exists href, rs'.
Qed.

Lemma resolve_ok (start_url a href : text) :
  resolve X start_url a = Ok href ->
  urljoin X start_url a = Ok href /\ exists u, urlparse X href = Ok u.
Proof.
  unfold resolve. destruct (urljoin X start_url a) as [h|]; [|discriminate].
  cbn [bind_result]. destruct (urlparse X h) as [u|] eqn:Hu; [|discriminate].
  intros [= <-]. split; [reflexivity | by exists u].
Qed.

(** The budget is used up: the loop stops. *)
Lemma links_loop_full (start_url : text) (origin : parsed_url) (limit : Z)
    (hrefs : list text) (seen : gset text) (q : list text) :
  limit <= Z.of_nat (size seen) ->
  links_loop X start_url origin limit hrefs seen q = Ok q.
Proof.
  intros H. destruct hrefs; [reflexivity|]. cbn [links_loop].
  by rewrite (proj2 (Z.leb_le _ _) H).
Qed.

(** One round of the loop on a target that resolves. *)
Lemma links_loop_step (start_url : text) (origin : parsed_url) (limit : Z)
    (a href : text) (rest : list text) (seen : gset text) (q : list text) :
  urlparse X start_url = Ok origin ->
  resolve X start_url a = Ok href ->
  Z.of_nat (size seen) < limit ->
  let add := same_site X start_url href && negb (bool_decide (href ∈ seen)) in
  let seen' := if add then {[href]} ∪ seen else seen in
  let q' := if add then q ++ [href] else q in
  links_loop X start_url origin limit (a :: rest) seen q
  = if limit <=? Z.of_nat (length q') then Ok q'
    else links_loop X start_url origin limit rest seen' q'.
Proof.
  intros Ho Hr Hroom. apply resolve_ok in Hr as [Hj [u Hu]].
  cbn [links_loop]. rewrite (proj2 (Z.leb_gt _ _) Hroom), Hj, Hu.
  unfold same_site. by rewrite Hu, Ho.
Qed.

(** One round of the loop on a target that does not. *)
Lemma links_loop_raise (start_url : text) (origin : parsed_url) (limit : Z)
    (a : text) (e : exn) (rest : list text) (seen : gset text) (q : list text) :
  resolve X start_url a = Raise e ->
  Z.of_nat (size seen) < limit ->
  links_loop X start_url origin limit (a :: rest) seen q = Raise e.
Proof.
  intros Hr Hroom. cbn [links_loop]. rewrite (proj2 (Z.leb_gt _ _) Hroom).
  unfold resolve in Hr.
  destruct (urljoin X start_url a) as [href|e0]; cbn [bind_result] in Hr;
    [|by injection Hr as ->].
  destruct (urlparse X href) as [u|e1]; cbn [bind_result] in Hr;
    [discriminate | by injection Hr as ->].
Qed.

Lemma first_by_cons_id (keep : text -> bool) (seen : gset text) (x : text)
    (l : list text) :
  first_by id keep seen (x :: l)
  = if keep x && negb (bool_decide (x ∈ seen))
    then x :: first_by id keep ({[x]} ∪ seen) l
    else first_by id keep seen l.
Proof. reflexivity. Qed.

(** The loop on anchors that resolve is the design's list: what is there
    already, then the first occurrences, until the budget is used up; when
    it is not used up the loop goes on with the anchors that follow. *)
Lemma links_loop_app (start_url : text) (origin : parsed_url) (limit : Z)
    (post : list text) :
  urlparse X start_url = Ok origin ->
  forall (pre rs : list text) (seen : gset text) (q : list text),
    resolved X start_url pre = Ok rs ->
    size seen = length q ->
    let found := first_by id (same_site X start_url) seen rs in
    (limit <= Z.of_nat (length q + length found) ->
     links_loop X start_url origin limit (pre ++ post) seen q
     = Ok (q ++ firstn (Z.to_nat (limit - Z.of_nat (length q))) found))
    /\ (Z.of_nat (length q + length found) < limit ->
        exists seen',
          size seen' = length (q ++ found)
          /\ links_loop X start_url origin limit (pre ++ post) seen q
             = links_loop X start_url origin limit post seen' (q ++ found)).
Proof.
  intros Ho. induction pre as [|a pre IH]; intros rs seen q Hrs Hsz.
  - injection Hrs as <-. cbn [first_by length app]. split.
    + intros Hfull. rewrite firstn_nil, app_nil_r.
      apply links_loop_full. lia.
    + intros _. exists seen. by rewrite app_nil_r.
  - apply resolved_cons in Hrs as (href & rs' & Hr & Hrs' & ->).
    rewrite first_by_cons_id. cbn [app].
    destruct (Z.le_gt_cases limit (Z.of_nat (size seen))) as [Hstop | Hroom].
    { split; [|destruct (_ && _); cbn [length]; lia].
      intros _. rewrite links_loop_full by done.
      replace (Z.to_nat (limit - Z.of_nat (length q))) with 0%nat by lia.
      by rewrite app_nil_r. }
    rewrite (links_loop_step _ _ _ _ _ _ _ _ Ho Hr Hroom). cbv zeta.
    destruct (same_site X start_url href && negb (bool_decide (href ∈ seen)))
      eqn:Hadd.
    + assert (href ∉ seen) as Hnew.
      { apply andb_prop in Hadd as [_ Hadd]. apply negb_true_iff in Hadd.
        by apply bool_decide_eq_false in Hadd. }
      assert (size ({[href]} ∪ seen) = length (q ++ [href])) as Hsz'
        by (rewrite gset_size_insert by done; rewrite length_app; simpl; lia).
      destruct (IH rs' ({[href]} ∪ seen) (q ++ [href]) Hrs' Hsz') as [IHfull IHmore].
      set (found' := first_by id (same_site X start_url) ({[href]} ∪ seen) rs') in *.
      rewrite length_app in IHfull, IHmore. cbn [length] in *.
      replace (Z.to_nat (limit - Z.of_nat (length q)))
        with (S (Z.to_nat (limit - Z.of_nat (length q + 1)))) by lia.
      cbn [firstn].
      destruct (limit <=? Z.of_nat (length (q ++ [href]))) eqn:Hstop.
      * apply Z.leb_le in Hstop. rewrite length_app in Hstop. cbn [length] in Hstop.
        split; [|lia]. intros _.
        replace (Z.to_nat (limit - Z.of_nat (length q + 1))) with 0%nat by lia.
        reflexivity.
      * split.
        -- intros Hfull. rewrite IHfull by lia. by rewrite <- app_assoc.
        -- intros Hmore. destruct IHmore as (seen' & Hs' & ->); [lia|].
           exists seen'. rewrite <- !app_assoc in *. by split.
    + destruct (IH rs' seen q Hrs' Hsz) as [IHfull IHmore].
      rewrite (proj2 (Z.leb_gt _ _) (eq_ind _ (fun n => Z.of_nat n < limit) Hroom _ Hsz)).
      by split.
Qed.

(** A list the loop returns is the design's list on the anchors it has
    read. *)
Lemma links_loop_decompose (start_url : text) (origin : parsed_url) (limit : Z) :
  urlparse X start_url = Ok origin ->
  forall (hrefs : list text) (seen : gset text) (q urls : list text),
    size seen = length q ->
    links_loop X start_url origin limit hrefs seen q = Ok urls ->
    exists pre post rs,
      hrefs = pre ++ post
      /\ resolved X start_url pre = Ok rs
      /\ urls = q ++ firstn (Z.to_nat (limit - Z.of_nat (length q)))
                      (first_by id (same_site X start_url) seen rs).
Proof.
  intros Ho. induction hrefs as [|a rest IH]; intros seen q urls Hsz Hrun.
  - injection Hrun as <-. exists [], [], []. cbn [first_by].
    split_and!; [done | done | by rewrite firstn_nil, app_nil_r].
  - destruct (Z.le_gt_cases limit (Z.of_nat (size seen))) as [Hstop | Hroom].
    { rewrite links_loop_full in Hrun by done. injection Hrun as <-.
      exists [], (a :: rest), []. cbn [first_by].
      split_and!; [done | done | by rewrite firstn_nil, app_nil_r]. }
    destruct (resolve X start_url a) as [href|e] eqn:Hr;
      [|by rewrite (links_loop_raise _ _ _ _ _ _ _ _ Hr Hroom) in Hrun].
    rewrite (links_loop_step _ _ _ _ _ _ _ _ Ho Hr Hroom) in Hrun. cbv zeta in Hrun.
    assert (resolved X start_url [a] = Ok [href]) as Hone
      by (unfold resolved; cbn [map_result]; by rewrite Hr).
    destruct (same_site X start_url href && negb (bool_decide (href ∈ seen)))
      eqn:Hadd.
    + assert (href ∉ seen) as Hnew.
      { apply andb_prop in Hadd as [_ Hadd]. apply negb_true_iff in Hadd.
        by apply bool_decide_eq_false in Hadd. }
      destruct (limit <=? Z.of_nat (length (q ++ [href]))) eqn:Hstop.
      * injection Hrun as <-. exists [a], rest, [href]. split_and!; try done.
        rewrite first_by_cons_id, Hadd. cbn [first_by].
        replace (Z.to_nat (limit - Z.of_nat (length q)))
          with (S (Z.to_nat (limit - Z.of_nat (length q) - 1))) by lia.
        cbn [firstn]. by rewrite firstn_nil.
      * apply Z.leb_gt in Hstop. rewrite length_app in Hstop. cbn [length] in Hstop.
        apply IH in Hrun as (pre & post & rs & -> & Hrs & ->);
          [|rewrite gset_size_insert by done; rewrite length_app; simpl; lia].
        exists (a :: pre), post, (href :: rs). split_and!; [done | |].
        -- unfold resolved in *. cbn [map_result]. by rewrite Hr, Hrs.
        -- rewrite first_by_cons_id, Hadd, length_app. cbn [length].
           replace (Z.to_nat (limit - Z.of_nat (length q)))
             with (S (Z.to_nat (limit - Z.of_nat (length q + 1)))) by lia.
           cbn [firstn]. by rewrite <- app_assoc.
    + rewrite (proj2 (Z.leb_gt _ _) (eq_ind _ (fun n => Z.of_nat n < limit) Hroom _ Hsz))
        in Hrun.
      apply IH in Hrun as (pre & post & rs & -> & Hrs & ->); [|done].
      exists (a :: pre), post, (href :: rs). split_and!; [done | |].
      * unfold resolved in *. cbn [map_result]. by rewrite Hr, Hrs.
      * by rewrite first_by_cons_id, Hadd.
Qed.

(** The links found are new and on the site. *)
Lemma discover_links_tail (start_url : text) (targets : list text) (budget : Z) :
  exists tl,
    discover_links X start_url targets budget = start_url :: tl
    /\ (start_url ∉ tl)
    /\ NoDup tl
    /\ Forall (fun u => same_site X start_url u = true) tl
    /\ sublist tl targets
    /\ Z.of_nat (length (start_url :: tl)) <= Z.max budget 1.
Proof.
  unfold discover_links.
  set (found := first_by id (same_site X start_url) {[start_url]} targets).
  exists (firstn (Z.to_nat (budget - 1)) found).
  assert (sublist (firstn (Z.to_nat (budget - 1)) found) found) as Hsub
    by apply sublist_take.
  split_and!; [done | | | | |].
  - intros Hin. eapply elem_of_sublist in Hin; [|exact Hsub].
    pose proof (first_by_fresh id (same_site X start_url) targets {[start_url]}) as Hf.
    rewrite List.Forall_forall in Hf.
    apply list_elem_of_In, Hf in Hin. set_solver.
  - eapply sublist_NoDup; [|exact Hsub].
    pose proof (first_by_NoDup id (same_site X start_url) targets {[start_url]}) as Hn.
    by rewrite map_id in Hn.
  - apply Forall_take, first_by_keep.
  - etrans; [exact Hsub | apply first_by_sublist].
  - cbn [length]. rewrite length_take. lia.
Qed.

(** When the anchors that the loop reads resolve, [same_domain_links]
    returns the design's list. *)
Lemma same_domain_links_discover (start_url html : text) (limit : Z) (sp : soup)
    (origin : parsed_url) (pre post rs : list text) :
  parse_html X html = Ok sp ->
  urlparse X start_url = Ok origin ->
  anchors sp = pre ++ post ->
  resolved X start_url pre = Ok rs ->
  post = [] \/ limit <= Z.of_nat (length (discover_links X start_url rs limit)) ->
  same_domain_links X start_url html limit
  = Ok (discover_links X start_url rs limit).
Proof.
  intros Hp Ho Ha Hrs Hend. unfold same_domain_links, discover_links in *.
  rewrite Hp. cbn [bind_result]. rewrite Ho. cbn [bind_result]. rewrite Ha.
  set (found := first_by id (same_site X start_url) {[start_url]} rs) in *.
  destruct (links_loop_app start_url origin limit post Ho pre rs {[start_url]}
              [start_url] Hrs) as [Hfull Hmore]; [by rewrite size_singleton|].
  fold found in Hfull, Hmore. cbn [length] in *.
  destruct (Z.le_gt_cases limit (Z.of_nat (1 + length found))) as [H | H].
  - rewrite Hfull by done. simpl. repeat f_equal; lia.
  - destruct Hmore as (seen' & _ & ->); [done|].
    destruct Hend as [-> | Hend]; [|rewrite length_take in Hend; lia].
    simpl. f_equal. f_equal. symmetry. apply firstn_all2. lia.
Qed.

(** A target that does not resolve, read before the budget is used up,
    ends [same_domain_links] with its error. *)
Lemma same_domain_links_raises (start_url html : text) (limit : Z) (sp : soup)
    (origin : parsed_url) (pre post rs : list text) (a : text) (e : exn) :
  parse_html X html = Ok sp ->
  urlparse X start_url = Ok origin ->
  anchors sp = pre ++ a :: post ->
  resolved X start_url pre = Ok rs ->
  resolve X start_url a = Raise e ->
  Z.of_nat (length (discover_links X start_url rs limit)) < limit ->
  same_domain_links X start_url html limit = Raise e.
Proof.
  intros Hp Ho Ha Hrs Hr Hroom. unfold same_domain_links, discover_links in *.
  rewrite Hp. cbn [bind_result]. rewrite Ho. cbn [bind_result]. rewrite Ha.
  set (found := first_by id (same_site X start_url) {[start_url]} rs) in *.
  destruct (links_loop_app start_url origin limit (a :: post) Ho pre rs {[start_url]}
              [start_url] Hrs) as [_ Hmore]; [by rewrite size_singleton|].
  fold found in Hmore. cbn [length] in *. rewrite length_take in Hroom.
  destruct Hmore as (seen' & Hsz & ->); [lia|].
  apply links_loop_raise; [done|]. rewrite Hsz. cbn [app length]. lia.
Qed.

(** What [same_domain_links] returns is the design's list on the targets
    of the anchors it has read. *)
Lemma same_domain_links_returns (start_url html : text) (limit : Z)
    (urls : list text) :
  same_domain_links X start_url html limit = Ok urls ->
  exists sp origin pre post rs,
    parse_html X html = Ok sp
    /\ urlparse X start_url = Ok origin
    /\ anchors sp = pre ++ post
    /\ resolved X start_url pre = Ok rs
    /\ urls = discover_links X start_url rs limit.
Proof.
  unfold same_domain_links.
  destruct (parse_html X html) as [sp|]; [|discriminate]. cbn [bind_result].
  destruct (urlparse X start_url) as [origin|] eqn:Ho; [|discriminate].
  cbn [bind_result]. intros Hrun.
  apply (links_loop_decompose start_url origin limit Ho) in Hrun
      as (pre & post & rs & Ha & Hrs & ->); [|by rewrite size_singleton].
  by exists sp, origin, pre, post, rs.
Qed.

(** What [same_domain_links] returns: the start URL, then other URLs of
    the site, no more than the budget allows. *)
Lemma same_domain_links_tail (start_url html : text) (limit : Z)
    (urls : list text) :
  same_domain_links X start_url html limit = Ok urls ->
  exists tl,
    urls = start_url :: tl
    /\ (start_url ∉ tl)
    /\ NoDup tl
    /\ Forall (fun u => same_site X start_url u = true) tl
    /\ Z.of_nat (length urls) <= Z.max limit 1.
Proof.
  intros H. apply same_domain_links_returns in H
    as (sp & origin & pre & post & rs & _ & _ & _ & _ & ->).
  destruct (discover_links_tail start_url rs limit)
    as (tl & -> & Hfresh & Hnd & Hs & _ & Hlen).
  by exists tl.
Qed.

End LinkFacts.

(** C5 (amended). On a start page that parses: [same_domain_links] raises
    when [urlparse] rejects the start URL.  Otherwise let [pre] be anchors
    at the beginning of the document whose targets resolve.  When these are
    all the anchors, or when their links use up the budget, it returns the
    start URL followed by distinct [http]/[https] URLs of the same host, all
    different from the start URL, in the document order of the anchors they
    come from; the list has at most [max limit 1] entries: the start URL is
    there whatever the budget.  When the next anchor does not resolve and
    the budget is not used up, it raises the error of the URL functions. *)
Theorem same_domain_links_bounded (X : services) (start_url html : text)
    (limit : Z) (sp : soup) :
  parse_html X html = Ok sp ->
  (forall e,
      urlparse X start_url = Raise e ->
      same_domain_links X start_url html limit = Raise e)
  /\ forall origin pre post rs,
      urlparse X start_url = Ok origin ->
      anchors sp = pre ++ post ->
      resolved X start_url pre = Ok rs ->
      let found := discover_links X start_url rs limit in
      (post = [] \/ limit <= Z.of_nat (length found) ->
       exists tl,
         same_domain_links X start_url html limit = Ok (start_url :: tl)
         /\ Z.of_nat (length (start_url :: tl)) <= Z.max limit 1
         /\ (start_url ∉ tl)
         /\ NoDup tl
         /\ Forall (fun u => same_site X start_url u = true) tl
         /\ sublist tl rs
         /\ start_url :: tl = found)
      /\ (forall a rest e,
           post = a :: rest ->
           resolve X start_url a = Raise e ->
           Z.of_nat (length found) < limit ->
           same_domain_links X start_url html limit = Raise e).
Proof.
  intros Hp. split.
  - intros e Ho. unfold same_domain_links. by rewrite Hp, Ho.
  - intros origin pre post rs Ho Ha Hrs found. split.
    + intros Hend.
      rewrite (same_domain_links_discover X _ _ _ _ _ _ _ _ Hp Ho Ha Hrs Hend).
      subst found.
      destruct (discover_links_tail X start_url rs limit)
        as (tl & -> & Hfresh & Hnd & Hs & Hsub & Hlen).
      by exists tl.
    + intros a rest e -> Hr Hroom.
      by apply (same_domain_links_raises X _ _ _ _ _ _ _ _ _ _ Hp Ho Ha Hrs Hr).
Qed.

(** ** Deduplication *)

Lemma map_result_Forall2 {A B} (f : A -> result B) (l : list A) (out : list B) :
  map_result f l = Ok out -> Forall2 (fun x y => f x = Ok y) l out.
Proof.
  revert out. induction l as [|x l IH]; intros out; simpl.
  - intros [= <-]. constructor.
  - destruct (f x) as [y|] eqn:Hx; simpl; [|discriminate].
    destruct (map_result f l) as [ys|]; simpl; [|discriminate].
    intros [= <-]. constructor; auto.
Qed.

Lemma dedupe_spec (top_k : Z) (out : list row) :
  forall (seen : gset text) (uniq : list row),
    Z.of_nat (length uniq) < top_k ->
    dedupe top_k out seen uniq
    = uniq ++ firstn (Z.to_nat (top_k - Z.of_nat (length uniq)))
                (first_by dedupe_key has_content seen out).
Proof.
  induction out as [|r rest IH]; intros seen uniq Hroom.
  - simpl. by rewrite firstn_nil, app_nil_r.
  - cbn [dedupe first_by].
    change (prefix_of 200 (chunk_html r)) with (dedupe_key r).
    change (truthy (chunk_html r)) with (has_content r).
    rewrite (andb_comm (negb _) (has_content r)).
    destruct (has_content r && negb (bool_decide (dedupe_key r ∈ seen))) eqn:Hkeep.
    + replace (Z.to_nat (top_k - Z.of_nat (length uniq)))
        with (S (Z.to_nat (top_k - Z.of_nat (length (uniq ++ [r])))))
        by (rewrite length_app; simpl; lia).
      cbn [firstn].
      destruct (top_k <=? Z.of_nat (length (uniq ++ [r]))) eqn:Hstop.
      * apply Z.leb_le in Hstop.
        replace (Z.to_nat (top_k - Z.of_nat (length (uniq ++ [r])))) with 0%nat by lia.
        reflexivity.
      * apply Z.leb_gt in Hstop. rewrite IH by done. by rewrite <- app_assoc.
    + rewrite (proj2 (Z.leb_gt _ _) Hroom). by apply IH.
Qed.

Lemma dedupe_ranked_unique (top_k : Z) (out : list row) :
  1 <= top_k -> dedupe top_k out ∅ [] = ranked_unique top_k out.
Proof.
  intros H. rewrite dedupe_spec by (simpl; lia).
  unfold ranked_unique. simpl. repeat f_equal; lia.
Qed.

Lemma has_content_true (r : row) : has_content r = true <-> chunk_html r <> [].
Proof. apply truthy_true. Qed.

Lemma ranked_unique_facts (top_k : Z) (out : list row) :
  let rows := ranked_unique top_k out in
  sublist rows out
  /\ (0 <= top_k -> Z.of_nat (length rows) <= top_k)
  /\ NoDup (List.map dedupe_key rows)
  /\ Forall (fun r => chunk_html r <> []) rows.
Proof.
  unfold ranked_unique.
  set (found := first_by dedupe_key has_content ∅ out).
  split_and!.
  - etrans; [apply sublist_take | apply first_by_sublist].
  - intros H. rewrite length_take. lia.
  - rewrite <- firstn_map.
    eapply sublist_NoDup; [|apply sublist_take]. apply first_by_NoDup.
  - apply Forall_take.
    eapply Forall_impl; [apply first_by_keep|].
    intros r. apply has_content_true.
Qed.

(** What [search_top_k] does, step by step. *)
Lemma search_top_k_run (X : services) (index_name query site_id : text)
    (top_k : Z) (w : world (Store X)) (qv : vector) (rest : list vector)
    (matches : list match_) (out : list row) :
  encode X [query] = Ok (qv :: rest) ->
  index_query X (store w) index_name qv (top_k * 3) site_id = Ok matches ->
  map_result row_of matches = Ok out ->
  search_top_k X index_name query site_id top_k w
  = (Ok (dedupe top_k out ∅ []),
     {| store := store w;
        trace := trace w ++ [EvQuery index_name site_id (top_k * 3)] |}).
Proof.
  intros He Hq Hr. unfold search_top_k, bind, lift, log, ret.
  rewrite He. simpl. rewrite Hq, Hr. reflexivity.
Qed.

(** With a [top_k] of 0 or less the loop stops after the first result of
    the response, kept or not. *)
Lemma dedupe_nonpositive (top_k : Z) (out : list row) :
  top_k <= 0 -> dedupe top_k out ∅ [] = ranked_unique 1 (firstn 1 out).
Proof.
  intros Hk. destruct out as [|r rest]; [reflexivity|].
  cbn [dedupe firstn]. unfold ranked_unique. cbn [first_by].
  change (prefix_of 200 (chunk_html r)) with (dedupe_key r).
  change (truthy (chunk_html r)) with (has_content r).
  rewrite (andb_comm (negb _) (has_content r)).
  destruct (has_content r && negb (bool_decide (dedupe_key r ∈ ∅))).
  - cbn [app length]. by rewrite (proj2 (Z.leb_le top_k _)) by lia.
  - cbn [length]. by rewrite (proj2 (Z.leb_le top_k _)) by lia.
Qed.

(** C6 (amended). For every response of the store to the query and every
    [top_k], [search_top_k] returns at most [max top_k 1] results; they
    are results of the response in its ranking order, no two of them have
    the same first 200 characters of fragment content, and none has empty
    content.  With a positive [top_k] they are the first [top_k] first
    occurrences with content; with a [top_k] of 0 or less the result is
    the first result of the response, if it has content. *)
Theorem search_top_k_results (X : services) (index_name query site_id : text)
    (top_k : Z) (w : world (Store X)) (qv : vector) (rest : list vector)
    (matches : list match_) (out : list row) :
  encode X [query] = Ok (qv :: rest) ->
  index_query X (store w) index_name qv (top_k * 3) site_id = Ok matches ->
  map_result row_of matches = Ok out ->
  exists rows w',
    search_top_k X index_name query site_id top_k w = (Ok rows, w')
    /\ Forall2 (fun m r => row_of m = Ok r) matches out
    /\ sublist rows out
    /\ Z.of_nat (length rows) <= Z.max top_k 1
    /\ NoDup (List.map (fun r => prefix_of 200 (chunk_html r)) rows)
    /\ Forall (fun r => chunk_html r <> []) rows
    /\ (1 <= top_k -> rows = ranked_unique top_k out)
    /\ (top_k <= 0 -> rows = ranked_unique 1 (firstn 1 out)).
Proof.
  intros He Hq Hr.
  rewrite (search_top_k_run X _ _ _ _ _ _ _ _ _ He Hq Hr).
  destruct (Z.le_gt_cases 1 top_k) as [Hk | Hk].
  - rewrite dedupe_ranked_unique by done.
    destruct (ranked_unique_facts top_k out) as (Hs & Hl & Hn & Hc).
    eexists _, _. split_and!; try done.
    + by apply map_result_Forall2.
    + specialize (Hl ltac:(lia)). lia.
    + lia.
  - rewrite dedupe_nonpositive by lia.
    destruct (ranked_unique_facts 1 (firstn 1 out)) as (Hs & Hl & Hn & Hc).
    eexists _, _. split_and!; try done.
    + by apply map_result_Forall2.
    + etrans; [exact Hs | apply sublist_take].
    + specialize (Hl ltac:(lia)). lia.
    + lia.
Qed.

(** ** Extraction *)

Section ExtractFacts.

Variable U : unicode.
Variable X : services.

Lemma block_of_small (tag : element) :
  Z.of_nat (length (get_text [SP] (strings tag))) <= 20 -> block_of U tag = [].
Proof.
  intros H. unfold block_of.
  rewrite (proj2 (Z.ltb_ge _ _) H). by rewrite andb_false_r.
Qed.

Lemma flat_map_block_of_small (blocks : list element) :
  Forall (fun tag => Z.of_nat (length (get_text [SP] (strings tag))) <= 20) blocks ->
  flat_map (block_of U) blocks = [].
Proof.
  induction 1 as [|tag blocks Htag _ IH]; simpl; [reflexivity|].
  by rewrite block_of_small, IH.
Qed.

Lemma title_loop_source (sp : soup) (tags : list text) :
  title_loop U sp tags
  = (fun e => prefix_of 140 (normalize_space U (get_text [SP] (strings e))))
      <$> List.find has_text (omap (find sp) tags).
Proof.
  induction tags as [|tag tags IH]; simpl; [reflexivity|].
  destruct (find sp tag) as [e|]; simpl; [|exact IH].
  fold (has_text e). destruct (has_text e); [reflexivity | exact IH].
Qed.

Lemma prefix_of_length (n : nat) (s : text) : (length (prefix_of n s) <= n)%nat.
Proof. unfold prefix_of. rewrite length_take. lia. Qed.

End ExtractFacts.

(** C10 (amended). When the fragment parses, [extract_title_from_html]
    returns a title of at most 140 characters: the whitespace-normalized
    text, cut at 140 characters, of the first element with text among the
    first [h1], the first [h2], the first [h3], the first [strong], the
    first [b], the first [p] and the first [li] of the fragment, taken in
    this order of names and not in document order; or of the whole fragment
    when none of these seven has text. *)
Theorem extract_title_length (U : unicode) (X : services) (html : text) (sp : soup) :
  parse_html X html = Ok sp ->
  exists t,
    extract_title_from_html U X html = Ok t
    /\ (length t <= 140)%nat
    /\ t = prefix_of 140
             (whitespace_normalized U (get_text [SP] (title_source sp))).
Proof.
  intros Hp. unfold extract_title_from_html.
  rewrite Hp, title_loop_source. cbn [bind_result]. unfold title_source.
  change title_tags with titling.
  destruct (List.find has_text (omap (find sp) titling)) as [e|];
    cbn [fmap option_fmap option_map];
    eexists; (split_and!; [reflexivity | apply prefix_of_length |]);
    by rewrite normalize_space_words.
Qed.

(** ** The handler *)

Section HandlerFacts.

Variable U : unicode.
Variable C : config.
Variable X : services.

Lemma bind_ok {A B} (c : M (Store X) A) (k : A -> M (Store X) B) w a w' :
  c w = (Ok a, w') -> bind c k w = k a w'.
Proof. intros H. unfold bind. by rewrite H. Qed.

Lemma bind_raise {A B} (c : M (Store X) A) (k : A -> M (Store X) B) w e w' :
  c w = (Raise e, w') -> bind c k w = (Raise e, w').
Proof. intros H. unfold bind. by rewrite H. Qed.

Lemma try_continue_run (body : M (Store X) unit) w :
  try_continue body w = (Ok tt, snd (body w)).
Proof. unfold try_continue. by destruct (body w) as [[[]|e] w']. Qed.

(** Whatever a page did, the loop goes on from the world it left. *)
Lemma index_pages_cons (idx site start start_html page : text) (rest : list text) w :
  index_pages U C X idx site start start_html (page :: rest) w
  = index_pages U C X idx site start start_html rest
      (snd (index_page U C X idx site start start_html page w)).
Proof.
  cbn [index_pages]. unfold bind at 1. by rewrite try_continue_run.
Qed.

(** The loop never raises. *)
Lemma index_pages_ok (idx site start start_html : text) (urls : list text) w :
  fst (index_pages U C X idx site start start_html urls w) = Ok tt.
Proof.
  revert w. induction urls as [|page rest IH]; intros w; [reflexivity|].
  rewrite index_pages_cons. apply IH.
Qed.

Lemma fetch_html_run (url : text) w :
  fetch_html X url w = (http_get X url, logged w (EvFetch url)).
Proof. reflexivity. Qed.

Lemma page_html_store (start start_html page : text) w :
  store (snd (page_html X start start_html page w)) = store w.
Proof. unfold page_html. by destruct (bool_decide (page = start)). Qed.

(** A query reads the store and leaves it as it is. *)
Lemma search_top_k_world (idx query site : text) (top_k : Z) w :
  let w' := snd (search_top_k X idx query site top_k w) in
  w' = w \/ w' = logged w (EvQuery idx site (top_k * 3)).
Proof.
  unfold search_top_k, bind, lift, log, ret.
  destruct (encode X [query]) as [qvecs|]; [|by left].
  destruct (first_of qvecs) as [qv|]; [|by left].
  simpl.
  destruct (index_query X (store w) idx qv (top_k * 3) site) as [ms|]; [|by right].
  destruct (map_result row_of ms); by right.
Qed.

Lemma search_top_k_fails (idx query site : text) (top_k : Z) w qv rest e :
  encode X [query] = Ok (qv :: rest) ->
  index_query X (store w) idx qv (top_k * 3) site = Raise e ->
  search_top_k X idx query site top_k w
  = (Raise e, logged w (EvQuery idx site (top_k * 3))).
Proof.
  intros He Hq. unfold search_top_k, bind, lift, log, ret.
  rewrite He. simpl. by rewrite Hq.
Qed.

Lemma ensure_index_pc (name : text) (dim : N) w w1 :
  ensure_index C X name dim w = (Ok tt, w1) -> pc C = Ok tt.
Proof.
  unfold ensure_index, bind, lift.
  destruct (pc C) as [[]|e]; [done | discriminate].
Qed.

(** After the set-up, on a URL that [urlparse] accepts, the handler is
    [answer]. *)
Lemma search_answer (url query site : text) (dim : N) w0 w :
  load_embedder X = Ok dim ->
  ensure_index C X (index_name_of dim) dim w0 = (Ok tt, w) ->
  site_of X url = Ok site ->
  search U C X url query w0
  = answer U C X (index_name_of dim) site url query w.
Proof.
  intros Hd He Hs. unfold search.
  unfold bind at 1. unfold lift at 1. rewrite Hd.
  rewrite (bind_ok _ _ _ _ _ He).
  unfold bind at 1. unfold lift at 1. rewrite Hs.
  unfold bind at 1. unfold lift at 1.
  by rewrite (ensure_index_pc _ _ _ _ He).
Qed.

(** On a URL that [urlparse] rejects the request ends after the set-up. *)
Lemma search_malformed_url (url query : text) (dim : N) (e : exn) w0 w :
  load_embedder X = Ok dim ->
  ensure_index C X (index_name_of dim) dim w0 = (Ok tt, w) ->
  site_of X url = Raise e ->
  search U C X url query w0 = (Raise e, w).
Proof.
  intros Hd He Hs. unfold search.
  unfold bind at 1. unfold lift at 1. rewrite Hd.
  rewrite (bind_ok _ _ _ _ _ He).
  unfold bind at 1. unfold lift at 1. by rewrite Hs.
Qed.

(** The path of a page whose URL [urlparse] accepts. *)
Lemma detect_page_path_returns (url html : text) (u : parsed_url) :
  urlparse X url = Ok u -> exists p, detect_page_path X url html = Ok p.
Proof.
  intros Hu. unfold detect_page_path. rewrite Hu. cbn [bind_result].
  destruct (parse_html X html) as [sp|]; [|by eexists].
  destruct (canonical_href sp) as [href|]; [|by eexists].
  destruct (truthy href); [|by eexists].
  destruct (bind_result _ _); by eexists.
Qed.

Lemma answer_probe_fails (idx site url query : text) w e w1 :
  search_top_k X idx (str "the") site 1 w = (Raise e, w1) ->
  answer U C X idx site url query w = (Raise e, w1).
Proof. intros H. unfold answer. by rewrite (bind_raise _ _ _ _ _ H). Qed.

Lemma answer_indexed (idx site url query : text) w probe w1 :
  search_top_k X idx (str "the") site 1 w = (Ok probe, w1) ->
  probe <> [] ->
  answer U C X idx site url query w
  = search_top_k X idx query site (TOP_K C) w1.
Proof.
  intros H Hne. unfold answer. rewrite (bind_ok _ _ _ _ _ H).
  destruct probe; [done|]. reflexivity.
Qed.

Lemma answer_not_indexed (idx site url query : text) w w1 :
  search_top_k X idx (str "the") site 1 w = (Ok [], w1) ->
  answer U C X idx site url query w
  = bind (index_site U C X idx site url)
      (fun _ => search_top_k X idx query site (TOP_K C)) w1.
Proof. intros H. unfold answer. by rewrite (bind_ok _ _ _ _ _ H). Qed.

Lemma index_site_run (idx site url html : text) (urls : list text) w :
  http_get X url = Ok html ->
  same_domain_links X url html (MAX_PAGES C) = Ok urls ->
  index_site U C X idx site url w
  = index_pages U C X idx site url html urls (logged w (EvFetch url)).
Proof.
  intros Hf Hl. unfold index_site.
  unfold bind at 1. rewrite fetch_html_run, Hf.
  unfold bind at 1. unfold lift. by rewrite Hl.
Qed.

Lemma index_site_fetch_fails (idx site url : text) e w :
  http_get X url = Raise e ->
  index_site U C X idx site url w = (Raise e, logged w (EvFetch url)).
Proof.
  intros Hf. unfold index_site. unfold bind at 1. by rewrite fetch_html_run, Hf.
Qed.

Lemma index_page_fetch_fails (idx site start start_html page : text) e w :
  page <> start -> http_get X page = Raise e ->
  index_page U C X idx site start start_html page w
  = (Raise e, logged w (EvFetch page)).
Proof.
  intros Hne Hf. unfold index_page, page_html.
  rewrite bool_decide_eq_false_2 by done.
  unfold bind at 1. by rewrite fetch_html_run, Hf.
Qed.

Lemma index_page_path_fails (idx site start start_html page html : text) e w w1 :
  page_html X start start_html page w = (Ok html, w1) ->
  detect_page_path X page html = Raise e ->
  index_page U C X idx site start start_html page w = (Raise e, w1).
Proof.
  intros Hh Hd. unfold index_page. rewrite (bind_ok _ _ _ _ _ Hh).
  unfold bind, lift. by rewrite Hd.
Qed.

Lemma index_page_extract_fails (idx site start start_html page html path : text)
    e w w1 :
  page_html X start start_html page w = (Ok html, w1) ->
  detect_page_path X page html = Ok path ->
  clean_html_and_get_dom_chunks U X html = Raise e ->
  index_page U C X idx site start start_html page w = (Raise e, w1).
Proof.
  intros Hh Hd Hc. unfold index_page. rewrite (bind_ok _ _ _ _ _ Hh).
  unfold bind, lift. by rewrite Hd, Hc.
Qed.

Lemma index_page_no_chunks (idx site start start_html page html path : text)
    (snippets : list text) w w1 :
  page_html X start start_html page w = (Ok html, w1) ->
  detect_page_path X page html = Ok path ->
  clean_html_and_get_dom_chunks U X html = Ok snippets ->
  chunk_by_token_limit U snippets (CHUNK_TOKEN_LIMIT C) = [] ->
  index_page U C X idx site start start_html page w = (Ok tt, w1).
Proof.
  intros Hh Hd Hc Hz. unfold index_page. rewrite (bind_ok _ _ _ _ _ Hh).
  unfold bind at 1. unfold lift at 1. rewrite Hd.
  unfold bind at 1. unfold lift. rewrite Hc, Hz. reflexivity.
Qed.

Lemma upsert_chunks_fails (idx site page path : text) (chunks : list text)
    (vecs : list vector) (recs : list record) s' e w :
  encode X chunks = Ok vecs ->
  map_result (make_record U X site page path)
    (enumerate_from 0 (combine chunks vecs)) = Ok recs ->
  index_upsert X (store w) idx recs = (s', Raise e) ->
  upsert_chunks U X idx site page path chunks w
  = (Raise e, {| store := s'; trace := trace w ++ [EvUpsert idx page recs] |}).
Proof.
  intros He Hr Hu. unfold upsert_chunks, bind, lift, log. rewrite He, Hr.
  simpl. by rewrite Hu.
Qed.

Lemma index_page_upsert_fails (idx site start start_html page html path : text)
    (snippets : list text) (vecs : list vector) (recs : list record) s' e w w1 :
  let chunks := chunk_by_token_limit U snippets (CHUNK_TOKEN_LIMIT C) in
  page_html X start start_html page w = (Ok html, w1) ->
  detect_page_path X page html = Ok path ->
  clean_html_and_get_dom_chunks U X html = Ok snippets ->
  chunks <> [] ->
  encode X chunks = Ok vecs ->
  map_result (make_record U X site page path)
    (enumerate_from 0 (combine chunks vecs)) = Ok recs ->
  index_upsert X (store w1) idx recs = (s', Raise e) ->
  index_page U C X idx site start start_html page w
  = (Raise e, {| store := s'; trace := trace w1 ++ [EvUpsert idx page recs] |}).
Proof.
  intros chunks Hh Hd Hc Hne He Hr Hu. unfold index_page.
  rewrite (bind_ok _ _ _ _ _ Hh).
  unfold bind at 1. unfold lift at 1. rewrite Hd.
  unfold bind at 1. unfold lift. rewrite Hc.
  fold chunks. rewrite (proj2 (truthy_true chunks) Hne).
  by apply upsert_chunks_fails with (vecs := vecs).
Qed.

End HandlerFacts.

(** C3 (amended). Once the set-up is done and the site id of the URL is
    computed, a failure of the store's query reaches the caller, for the
    probe and for the final query alike; a failure of the store's upsert
    does not: it ends the page that was being indexed, the handler of the
    page loop catches it, and the loop goes on with the next page and never
    raises. *)
Theorem store_failures (U : unicode) (C : config) (X : services)
    (url query site : text) (dim : N) (w0 w : world (Store X)) :
  load_embedder X = Ok dim ->
  ensure_index C X (index_name_of dim) dim w0 = (Ok tt, w) ->
  site_of X url = Ok site ->
  let idx := index_name_of dim in
  (* the probe query fails *)
  (forall qv rest e,
      encode X [str "the"] = Ok (qv :: rest) ->
      index_query X (store w) idx qv (1 * 3) site = Raise e ->
      search U C X url query w0 = (Raise e, logged w (EvQuery idx site (1 * 3))))
  (* the final query fails *)
  /\ (forall probe w1 w2 qv rest e,
      search_top_k X idx (str "the") site 1 w = (Ok probe, w1) ->
      (if truthy probe then ret tt else index_site U C X idx site url) w1
        = (Ok tt, w2) ->
      encode X [query] = Ok (qv :: rest) ->
      index_query X (store w2) idx qv (TOP_K C * 3) site = Raise e ->
      search U C X url query w0
        = (Raise e, logged w2 (EvQuery idx site (TOP_K C * 3))))
  (* the upsert of a page's chunks fails: the page raises *)
  /\ (forall start_html page html path snippets vecs recs s' e w1 w2,
      let chunks := chunk_by_token_limit U snippets (CHUNK_TOKEN_LIMIT C) in
      page_html X url start_html page w1 = (Ok html, w2) ->
      detect_page_path X page html = Ok path ->
      clean_html_and_get_dom_chunks U X html = Ok snippets ->
      chunks <> [] ->
      encode X chunks = Ok vecs ->
      map_result (make_record U X site page path)
        (enumerate_from 0 (combine chunks vecs)) = Ok recs ->
      index_upsert X (store w2) idx recs = (s', Raise e) ->
      fst (index_page U C X idx site url start_html page w1) = Raise e)
  (* and the loop goes on with the next page and never raises *)
  /\ (forall start_html page rest w1,
      index_pages U C X idx site url start_html (page :: rest) w1
      = index_pages U C X idx site url start_html rest
          (snd (index_page U C X idx site url start_html page w1))
      /\ fst (index_pages U C X idx site url start_html (page :: rest) w1) = Ok tt).
Proof.
  intros Hd He Hs idx. split_and!.
  - intros qv rest e Hq Hf.
    rewrite (search_answer U C X _ _ _ _ _ _ Hd He Hs).
    apply answer_probe_fails. by apply search_top_k_fails with (qv := qv) (rest := rest).
  - intros probe w1 w2 qv rest e Hp Hi Hq Hf.
    rewrite (search_answer U C X _ _ _ _ _ _ Hd He Hs).
    unfold answer. rewrite (bind_ok X _ _ _ _ _ Hp).
    rewrite (bind_ok X _ _ _ _ _ Hi).
    by apply search_top_k_fails with (qv := qv) (rest := rest).
  - intros start_html page html path snippets vecs recs s' e w1 w2 chunks
      Hh Hpath Hc Hne Hv Hr Hu.
    by rewrite (index_page_upsert_fails U C X idx site url start_html page html path
                  snippets vecs recs s' e w1 w2 Hh Hpath Hc Hne Hv Hr Hu).
  - intros start_html page rest w1. split.
    + apply index_pages_cons.
    + apply index_pages_ok.
Qed.

(** C7. Once the set-up is done and the site id of the URL is computed:
    whatever a page does, the page loop goes on with the next page and
    never raises; a page that cannot be fetched, whose path cannot be
    computed or whose extraction fails raises inside the loop body and
    leaves the store as it was; when the probe found nothing and the start
    page was fetched, the outcome of the request is the outcome of the
    final query on what the loop left; when the start page cannot be
    fetched the request fails with that error. *)
Theorem page_failures_isolated (U : unicode) (C : config) (X : services)
    (url query site : text) (dim : N) (w0 w : world (Store X)) :
  load_embedder X = Ok dim ->
  ensure_index C X (index_name_of dim) dim w0 = (Ok tt, w) ->
  site_of X url = Ok site ->
  let idx := index_name_of dim in
  (forall start_html page rest w1,
      index_pages U C X idx site url start_html (page :: rest) w1
      = index_pages U C X idx site url start_html rest
          (snd (index_page U C X idx site url start_html page w1)))
  /\ (forall start_html urls w1,
      fst (index_pages U C X idx site url start_html urls w1) = Ok tt)
  /\ (forall start_html page e w1,
      page <> url -> http_get X page = Raise e ->
      index_page U C X idx site url start_html page w1
      = (Raise e, logged w1 (EvFetch page)))
  /\ (forall start_html page html e w1 w2,
      page_html X url start_html page w1 = (Ok html, w2) ->
      (detect_page_path X page html = Raise e
       \/ (exists path, detect_page_path X page html = Ok path)
          /\ clean_html_and_get_dom_chunks U X html = Raise e) ->
      index_page U C X idx site url start_html page w1 = (Raise e, w2)
      /\ store w2 = store w1)
  /\ (forall w1 html urls,
      search_top_k X idx (str "the") site 1 w = (Ok [], w1) ->
      http_get X url = Ok html ->
      same_domain_links X url html (MAX_PAGES C) = Ok urls ->
      search U C X url query w0
      = search_top_k X idx query site (TOP_K C)
          (snd (index_pages U C X idx site url html urls (logged w1 (EvFetch url)))))
  /\ (forall w1 e,
      search_top_k X idx (str "the") site 1 w = (Ok [], w1) ->
      http_get X url = Raise e ->
      search U C X url query w0 = (Raise e, logged w1 (EvFetch url))).
Proof.
  intros Hd He Hsite idx. split_and!.
  - intros. apply index_pages_cons.
  - intros. apply index_pages_ok.
  - intros. by apply index_page_fetch_fails.
  - intros start_html page html e w1 w2 Hh Hc. split.
    + destruct Hc as [Hpath | [[path Hpath] Hc]].
      * by apply index_page_path_fails with (html := html).
      * by apply index_page_extract_fails with (html := html) (path := path).
    + pose proof (page_html_store X url start_html page w1) as Hs.
      by rewrite Hh in Hs.
  - intros w1 html urls Hp Hf Hl.
    rewrite (search_answer U C X _ _ _ _ _ _ Hd He Hsite).
    rewrite (answer_not_indexed U C X _ _ _ _ _ _ Hp).
    unfold bind. rewrite (index_site_run U C X _ _ _ _ _ _ Hf Hl).
    pose proof (index_pages_ok U C X idx site url html urls (logged w1 (EvFetch url))) as Hok.
    destruct (index_pages U C X idx site url html urls (logged w1 (EvFetch url)))
      as [[[]|e] w2]; [reflexivity | discriminate].
  - intros w1 e Hp Hf.
    rewrite (search_answer U C X _ _ _ _ _ _ Hd He Hsite).
    rewrite (answer_not_indexed U C X _ _ _ _ _ _ Hp).
    unfold bind. by rewrite (index_site_fetch_fails U C X _ _ _ _ _ Hf).
Qed.

Lemma first_by_nonempty {A} (key : A -> text) (keep : A -> bool) (l : list A) :
  Exists (fun x => keep x = true) l -> first_by key keep ∅ l <> [].
Proof.
  induction 1 as [x l Hx | x l _ IH]; simpl.
  - rewrite Hx. by rewrite bool_decide_eq_false_2 by set_solver.
  - destruct (keep x); simpl; [|exact IH].
    by rewrite bool_decide_eq_false_2 by set_solver.
Qed.

(** The probe finds a chunk as soon as the response has one with content. *)
Lemma ranked_unique_nonempty (top_k : Z) (out : list row) :
  1 <= top_k -> Exists (fun r => chunk_html r <> []) out ->
  ranked_unique top_k out <> [].
Proof.
  intros Hk Hex. unfold ranked_unique.
  assert (first_by dedupe_key has_content ∅ out <> []) as Hne.
  { apply first_by_nonempty. eapply Exists_impl; [exact Hex|].
    intros r. apply has_content_true. }
  destruct (first_by dedupe_key has_content ∅ out); [done|].
  destruct (Z.to_nat top_k) eqn:E; [lia|]. discriminate.
Qed.

(** C4 (amended). A second call for the same site, right after a first
    one, when the store answers the probe of the second call with a match
    that has content (the first pass left a chunk of the site and the store
    returns it): the probe finds it, the second call fetches nothing and
    upserts nothing, leaves the store as it is after its set-up, and
    answers with the final query. *)
Theorem second_call_skips_indexing (U : unicode) (C : config) (X : services)
    (url site q1 q2 : text) (w0 w1 w1' : world (Store X)) (r1 : result (list row))
    (dim : N) (qv : vector) (rest : list vector)
    (matches : list match_) (out : list row) :
  search U C X url q1 w0 = (r1, w1) ->
  load_embedder X = Ok dim ->
  ensure_index C X (index_name_of dim) dim w1 = (Ok tt, w1') ->
  site_of X url = Ok site ->
  encode X [str "the"] = Ok (qv :: rest) ->
  index_query X (store w1') (index_name_of dim) qv (1 * 3) site = Ok matches ->
  map_result row_of matches = Ok out ->
  Exists (fun r => chunk_html r <> []) out ->
  exists r2 w2 evs,
    search U C X url q2 w1 = (r2, w2)
    /\ store w2 = store w1'
    /\ trace w2 = trace w1' ++ evs
    /\ Forall (fun ev => indexing_event ev = false) evs
    /\ (r2, w2)
       = search_top_k X (index_name_of dim) q2 site (TOP_K C)
           (logged w1' (EvQuery (index_name_of dim) site (1 * 3))).
Proof.
  intros _ Hd He Hsite Hq Hm Hr Hex.
  set (idx := index_name_of dim) in *.
  set (wp := logged w1' (EvQuery idx site (1 * 3))).
  assert (search U C X url q2 w1 = search_top_k X idx q2 site (TOP_K C) wp) as Hs.
  { rewrite (search_answer U C X _ _ _ _ _ _ Hd He Hsite).
    eapply answer_indexed.
    - apply (search_top_k_run X idx (str "the") site 1 w1' qv rest matches out Hq Hm Hr).
    - rewrite dedupe_ranked_unique by lia. apply ranked_unique_nonempty; [lia | done]. }
  destruct (search_top_k X idx q2 site (TOP_K C) wp) as [r2 w2] eqn:E.
  pose proof (search_top_k_world X idx q2 site (TOP_K C) wp) as Hw.
  rewrite E in Hw. simpl in Hw.
  destruct Hw as [-> | ->].
  - exists r2, wp, [EvQuery idx site (1 * 3)]. split_and!; try done.
    by repeat constructor.
  - exists r2, (logged wp (EvQuery idx site (TOP_K C * 3))),
      [EvQuery idx site (1 * 3); EvQuery idx site (TOP_K C * 3)].
    split_and!; try done.
    + simpl. by rewrite <- app_assoc.
    + by repeat constructor.
Qed.

(** C8. When the page parses and no candidate element has more than 20
    characters of text, [clean_html_and_get_dom_chunks] returns the
    whitespace-normalized text of the page as its only block (the words of
    the page text with one U+0020 between two of them), or nothing when the
    page has no text.  A page whose blocks give no chunk is done without an
    upsert and without an error: the store is as before and the only call
    made is the fetch of the page, if it is not the start page. *)
Theorem clean_html_fallback (U : unicode) (C : config) (X : services)
    (html : text) (sp : soup) :
  parse_html X html = Ok sp ->
  Forall (fun tag => Z.of_nat (length (get_text [SP] (strings tag))) <= 20)
         (content_blocks sp) ->
  let body := get_text [SP] (content_strings sp) in
  clean_html_and_get_dom_chunks U X html
  = Ok (if truthy body then [whitespace_normalized U body] else [])
  /\ (forall idx site start start_html page page_text path snippets w w1,
      page_html X start start_html page w = (Ok page_text, w1) ->
      detect_page_path X page page_text = Ok path ->
      clean_html_and_get_dom_chunks U X page_text = Ok snippets ->
      chunk_by_token_limit U snippets (CHUNK_TOKEN_LIMIT C) = [] ->
      index_page U C X idx site start start_html page w = (Ok tt, w1)
      /\ store w1 = store w
      /\ (w1 = w \/ w1 = logged w (EvFetch page))).
Proof.
  intros Hp Hsmall body. split.
  - unfold clean_html_and_get_dom_chunks. rewrite Hp. simpl.
    rewrite flat_map_block_of_small by done. simpl.
    fold body. rewrite normalize_space_words. by destruct (truthy body).
  - intros idx site start start_html page page_text path snippets w w1 Hh Hd Hc Hz.
    split_and!.
    + by apply index_page_no_chunks
        with (html := page_text) (path := path) (snippets := snippets).
    + pose proof (page_html_store X start start_html page w) as Hs.
      by rewrite Hh in Hs.
    + unfold page_html in Hh. destruct (bool_decide (page = start)).
      * left. by inversion Hh.
      * right. rewrite fetch_html_run in Hh. by inversion Hh.
Qed.

(** ** Scores *)

Lemma round_half_even_nearest (m e : Z) :
  e < 0 -> 0 <= m ->
  let d := 2 ^ (- e) in
  let n := round_half_even m e in
  2 * Z.abs (n * d - m) <= d
  /\ (2 * Z.abs (n * d - m) = d -> Z.even n = true).
Proof.
  intros He Hm d n. subst n. unfold round_half_even.
  rewrite (proj2 (Z.leb_gt _ _) He). fold d.
  assert (0 < d) as Hd by (apply Z.pow_pos_nonneg; lia).
  pose proof (Z.div_mod m d ltac:(lia)) as Hdm.
  pose proof (Z.mod_pos_bound m d Hd) as Hr.
  set (q := m / d) in *. set (r := m mod d) in *.
  destruct (2 * r <? d) eqn:H1; [apply Z.ltb_lt in H1 | apply Z.ltb_ge in H1].
  - split; [nia | intros; nia].
  - destruct (d <? 2 * r) eqn:H2; [apply Z.ltb_lt in H2 | apply Z.ltb_ge in H2].
    + split; [nia | intros; nia].
    + assert (2 * r = d) as Heq by lia.
      destruct (Z.even q) eqn:Hq.
      * split; [nia | done].
      * split; [nia | intros _].
        rewrite Z.even_add, Hq. reflexivity.
Qed.

(** C9. The percentage of a result is [round((s + 1) / 2 * 100)] of its raw
    score [s], in floating point and with Python's [round] (nearest
    integer, ties to even); for [s = 0.8] it is 90. *)
Theorem score_percent_round :
  (forall (m : match_) (r : row),
      row_of m = Ok r ->
      raw_score r = get_or (m_score m) 0%float
      /\ py_round ((raw_score r + 1) / 2 * 100)%float = Ok (score_percent r))
  /\ score_percent_of score_0_8 = Ok 90
  /\ (forall (x : float) (m : positive) (e n : Z),
      Prim2SF x = S754_finite false m e -> e < 0 ->
      py_round x = Ok n ->
      2 * Z.abs (n * 2 ^ (- e) - Zpos m) <= 2 ^ (- e)
      /\ (2 * Z.abs (n * 2 ^ (- e) - Zpos m) = 2 ^ (- e) -> Z.even n = true)).
Proof.
  split_and!.
  - intros m r. unfold row_of, score_percent_of.
    destruct (py_round _) as [pct|] eqn:E; simpl; [|discriminate].
    intros [= <-]. simpl. by split.
  - vm_compute. reflexivity.
  - intros x m e n Hx He. unfold py_round. rewrite Hx. intros [= <-].
    apply round_half_even_nearest; lia.
Qed.

(** * Runs on the small world *)

(** C5, as stated, fails: with a budget of 0 the list still holds the start
    URL, one entry more than the budget. *)
Lemma same_domain_links_over_budget :
  exists l,
    same_domain_links Toy.site Toy.home_url (str "HOME") 0 = Ok l
    /\ ~ (Z.of_nat (length l) <= 0).
Proof. exists [Toy.home_url]. split; [reflexivity | simpl; lia]. Qed.

(** A link that [urljoin] rejects, read before the budget is used up,
    fails the link discovery. *)
Example same_domain_links_malformed_link :
  same_domain_links Toy.site Toy.tangled_url (str "TANGLED") 6 = Raise ValueError.
Proof. reflexivity. Qed.

Lemma same_domain_links_bounded_witness :
  parse_html Toy.site (str "TANGLED") = Ok Toy.tangled
  /\ (exists tl,
       same_domain_links Toy.site Toy.tangled_url (str "TANGLED") 2
       = Ok (Toy.tangled_url :: tl)
       /\ Z.of_nat (length (Toy.tangled_url :: tl)) <= Z.max 2 1
       /\ (Toy.tangled_url ∉ tl)
       /\ NoDup tl
       /\ Forall (fun u => same_site Toy.site Toy.tangled_url u = true) tl
       /\ tl = [str "http://a.test/x"])
  /\ same_domain_links Toy.site Toy.tangled_url (str "TANGLED") 3 = Raise ValueError.
Proof.
  split; [reflexivity|].
  pose (origin := {| scheme := str "http"; netloc := str "a.test";
                     url_path := str "/t" |}).
  split.
  - destruct (same_domain_links_bounded Toy.site Toy.tangled_url (str "TANGLED") 2
                Toy.tangled eq_refl) as [_ H].
    destruct (H origin [str "/x"] [str "http://["; str "/y"] [str "http://a.test/x"]
                eq_refl eq_refl eq_refl) as [Hret _].
    destruct Hret as (tl & Hrun & Hlen & Hfresh & Hnd & Hs & _ & Heq);
      [right; apply Z.leb_le; reflexivity|].
    exists tl. split_and!; try assumption.
    vm_compute in Heq. by injection Heq.
  - destruct (same_domain_links_bounded Toy.site Toy.tangled_url (str "TANGLED") 3
                Toy.tangled eq_refl) as [_ H].
    destruct (H origin [str "/x"] [str "http://["; str "/y"] [str "http://a.test/x"]
                eq_refl eq_refl eq_refl) as [_ Hraise].
    apply (Hraise (str "http://[") [str "/y"]); [reflexivity | reflexivity|].
    apply Z.ltb_lt. reflexivity.
Defined.

(** C6, as stated, fails: with a [top_k] of 0 the loop still keeps the
    first result of the response, one more than [top_k]. *)
Lemma search_top_k_over_top_k :
  exists rows w',
    search_top_k Toy.site_generous (index_name_of 2) (str "q") (str "http://a.test") 0
      Toy.world_dup = (Ok rows, w')
    /\ List.map chunk_html rows = [str "aaa"]
    /\ ~ (Z.of_nat (length rows) <= 0).
Proof.
  eexists _, _. split; [vm_compute; reflexivity|].
  split; [reflexivity | simpl; lia].
Qed.

Lemma search_top_k_results_witness :
  exists rows w',
    search_top_k Toy.site (index_name_of 2) (str "q") (str "http://a.test") 2
      Toy.world_dup = (Ok rows, w')
    /\ Z.of_nat (length rows) <= Z.max 2 1
    /\ List.map chunk_html rows = [str "aaa"; str "bbb"].
Proof.
  edestruct (search_top_k_results Toy.site (index_name_of 2) (str "q")
               (str "http://a.test") 2 Toy.world_dup)
    as (rows & w' & Hrun & _ & _ & Hlen & _ & _ & Hrows & _).
  - reflexivity.
  - reflexivity.
  - cbv. reflexivity.
  - exists rows, w'. split; [exact Hrun|]. split; [exact Hlen|].
    rewrite Hrows by lia. vm_compute. reflexivity.
Defined.

(** C4, as stated, fails: the pages of this site give no chunk, so the
    first call stores nothing, the probe of the second call finds nothing,
    and the second call fetches the start page again: two indexing
    passes. *)
Lemma second_call_indexes_again :
  let url := str "http://blank.test/" in
  let first := search ascii_only Toy.cfg Toy.site url (str "q") Toy.world0 in
  let second := search ascii_only Toy.cfg Toy.site url (str "q") (snd first) in
  fst first = Ok []
  /\ List.filter indexing_event (trace (snd first)) = [EvFetch url]
  /\ fst second = Ok []
  /\ List.filter indexing_event (trace (snd second)) = [EvFetch url; EvFetch url].
Proof. vm_compute. split_and!; reflexivity. Qed.

(** C3, as stated, fails: every upsert of this store raises [StoreError],
    the handler attempts one for the start page, and the caller gets a
    result all the same. *)
Lemma upsert_failure_swallowed :
  (forall s idx recs,
      snd (index_upsert Toy.site_broken_store s idx recs) = Raise StoreError)
  /\ exists rows w',
    search ascii_only Toy.cfg Toy.site_broken_store Toy.home_url (str "fox")
      Toy.world0 = (Ok rows, w')
    /\ exists idx recs, In (EvUpsert idx Toy.home_url recs) (trace w').
Proof.
  split; [reflexivity|].
  eexists _, _. split; [vm_compute; reflexivity|].
  eexists _, _. vm_compute. do 3 right. left. reflexivity.
Qed.

Lemma store_failures_witness :
  load_embedder Toy.site_broken_store = Ok 2%N
  /\ ensure_index Toy.cfg Toy.site_broken_store (index_name_of 2) 2 Toy.world0
     = (Ok tt, Toy.ready)
  /\ fst (index_page ascii_only Toy.cfg Toy.site_broken_store (index_name_of 2)
            (str "http://a.test") Toy.home_url (str "HOME") Toy.home_url Toy.ready)
     = Raise StoreError
  /\ fst (index_pages ascii_only Toy.cfg Toy.site_broken_store (index_name_of 2)
            (str "http://a.test") Toy.home_url (str "HOME")
            [Toy.home_url; str "http://a.test/y"] Toy.ready)
     = Ok tt.
Proof.
  split; [reflexivity|]. split; [reflexivity|].
  destruct (store_failures ascii_only Toy.cfg Toy.site_broken_store
              Toy.home_url (str "fox") (str "http://a.test") 2 Toy.world0 Toy.ready
              eq_refl eq_refl eq_refl)
    as (_ & _ & Hpage & Hloop).
  split.
  - eapply (Hpage (str "HOME") Toy.home_url (str "HOME") (str "/")).
    + reflexivity.
    + reflexivity.
    + reflexivity.
    + discriminate.
    + reflexivity.
    + cbv. reflexivity.
    + reflexivity.
  - apply Hloop.
Defined.

Lemma second_call_skips_indexing_witness :
  let first := search ascii_only Toy.cfg Toy.site Toy.home_url (str "fox") Toy.world0 in
  load_embedder Toy.site = Ok 2%N
  /\ length (store (snd first)) = 2%nat
  /\ exists r2 w2 evs,
    search ascii_only Toy.cfg Toy.site Toy.home_url (str "owl") (snd first) = (r2, w2)
    /\ store w2 = store (snd first)
    /\ trace w2 = (trace (snd first) ++ [EvListIndexes]) ++ evs
    /\ Forall (fun ev => indexing_event ev = false) evs.
Proof.
  intros first. split; [reflexivity|]. split; [vm_compute; reflexivity|].
  edestruct (second_call_skips_indexing ascii_only Toy.cfg Toy.site Toy.home_url
               (str "http://a.test") (str "fox") (str "owl") Toy.world0 (snd first)
               (logged (snd first) EvListIndexes) (fst first) 2)
    as (r2 & w2 & evs & Hrun & Hstore & Htrace & Hev & _).
  - apply surjective_pairing.
  - reflexivity.
  - vm_compute. reflexivity.
  - reflexivity.
  - reflexivity.
  - vm_compute. reflexivity.
  - cbv. reflexivity.
  - apply Exists_cons_hd. discriminate.
  - exists r2, w2, evs. split_and!; assumption.
Defined.

Lemma page_failures_isolated_witness :
  load_embedder Toy.site = Ok 2%N
  /\ ensure_index Toy.cfg Toy.site (index_name_of 2) 2 Toy.world0 = (Ok tt, Toy.ready)
  /\ http_get Toy.site (str "http://a.test/x") = Raise FetchError
  /\ exists rows w',
    search ascii_only Toy.cfg Toy.site Toy.home_url (str "fox") Toy.world0
      = (Ok rows, w')
    /\ List.map chunk_html rows
       = [str "<b>Fox</b> jumps over the lazy dog"; str "An owl sleeps all day long"].
Proof.
  split; [reflexivity|]. split; [reflexivity|]. split; [reflexivity|].
  destruct (page_failures_isolated ascii_only Toy.cfg Toy.site
              Toy.home_url (str "fox") (str "http://a.test") 2 Toy.world0 Toy.ready
              eq_refl eq_refl eq_refl)
    as (_ & _ & _ & _ & Hrun & _).
  rewrite (Hrun (logged Toy.ready (EvQuery (index_name_of 2) (str "http://a.test") 3))
             (str "HOME")
             [Toy.home_url; str "http://a.test/x"; str "http://a.test/y"]);
    [| vm_compute; reflexivity | reflexivity | vm_compute; reflexivity].
  eexists _, _. split; vm_compute; reflexivity.
Defined.

Lemma clean_html_fallback_witness :
  parse_html Toy.site (str "NOTE") = Ok Toy.note
  /\ clean_html_and_get_dom_chunks ascii_only Toy.site (str "NOTE")
     = Ok [str "Short note with gaps"]
  /\ parse_html Toy.site (str "BLANK") = Ok Toy.blank
  /\ clean_html_and_get_dom_chunks ascii_only Toy.site (str "BLANK") = Ok []
  /\ index_page ascii_only Toy.cfg Toy.site (index_name_of 2)
       (str "http://blank.test") (str "http://blank.test/") (str "BLANK")
       (str "http://blank.test/") Toy.ready
     = (Ok tt, Toy.ready).
Proof.
  split; [reflexivity|].
  split.
  { destruct (clean_html_fallback ascii_only Toy.cfg Toy.site (str "NOTE") Toy.note
                eq_refl) as (Hblocks & _).
    - repeat constructor. apply Z.leb_le. reflexivity.
    - rewrite Hblocks. vm_compute. reflexivity. }
  split; [reflexivity|].
  destruct (clean_html_fallback ascii_only Toy.cfg Toy.site (str "BLANK") Toy.blank
              eq_refl (List.Forall_nil _)) as (Hblocks & Hpage).
  split; [exact Hblocks|].
  eapply (Hpage _ _ _ _ _ _ (str "/")).
  - reflexivity.
  - reflexivity.
  - exact Hblocks.
  - reflexivity.
Defined.

Lemma score_percent_round_witness :
  exists r,
    row_of {| m_score := Some score_0_8; m_metadata := None |} = Ok r
    /\ raw_score r = score_0_8
    /\ score_percent r = 90.
Proof.
  destruct score_percent_round as (Hrow & _ & _).
  eexists. split; [vm_compute; reflexivity|].
  edestruct (Hrow {| m_score := Some score_0_8; m_metadata := None |})
    as (Hraw & Hpct); [vm_compute; reflexivity|].
  split; [reflexivity|reflexivity].
Defined.

(** C10, as stated, fails: the first paragraph of this fragment comes
    before its first heading and has text, and the title is the text of the
    heading. *)
Lemma extract_title_not_first_element :
  parse_html Toy.site (str "ARTICLE") = Ok Toy.article
  /\ first_titling_element Toy.article = Some Toy.intro
  /\ has_text Toy.intro = true
  /\ extract_title_from_html ascii_only Toy.site (str "ARTICLE")
     = Ok (str "Big news today")
  /\ prefix_of 140 (whitespace_normalized ascii_only
                      (get_text [SP] (strings Toy.intro)))
     = str "Intro text"
  /\ str "Big news today" <> str "Intro text".
Proof. split_and!; try reflexivity. discriminate. Qed.

Lemma extract_title_length_witness :
  parse_html Toy.site (str "ARTICLE") = Ok Toy.article
  /\ exists t,
    extract_title_from_html ascii_only Toy.site (str "ARTICLE") = Ok t
    /\ (length t <= 140)%nat
    /\ t = str "Big news today".
Proof.
  split; [reflexivity|].
  destruct (extract_title_length ascii_only Toy.site (str "ARTICLE") Toy.article
              eq_refl) as (t & Hrun & Hlen & Ht).
  exists t. split_and!; [exact Hrun | exact Hlen|].
  rewrite Ht. vm_compute. reflexivity.
Defined.

(** The title of the home page is the text of its [b] element. *)
Example extract_title_home :
  extract_title_from_html ascii_only Toy.site (str "HOME") = Ok (str "Fox").
Proof. vm_compute. reflexivity. Qed.


(* ================================================================= *)
(** * Further properties of the code *)

Lemma normalize_space_idem_aux (U : unicode) (s : text) :
  normalize_space U (normalize_space U s) = normalize_space U s.
Proof.
  unfold normalize_space.
  rewrite (spaced_collapse_ws U false (strip U _)).
  - apply strip_idem.
  - apply (spaced_strip U false), collapse_ws_spaced.
Qed.

(** X1. [normalize_space] is idempotent: normalizing a normalized text
    changes nothing. *)
Theorem normalize_space_idempotent (U : unicode) (s : text) :
  normalize_space U (normalize_space U s) = normalize_space U s.
Proof. apply normalize_space_idem_aux. Qed.

(** X2. The result of [normalize_space] has no whitespace at either end,
    and every whitespace character in it is a single U+0020 that follows a
    character which is not whitespace. *)
Theorem normalize_space_shape (U : unicode) (s : text) :
  let t := normalize_space U s in
  trimmed U t
  /\ spaced U false t = true
  /\ Forall (fun c => is_space U c = true -> c = SP) t.
Proof.
  intros t. subst t. unfold normalize_space.
  assert (spaced U false (strip U (collapse_ws U false s)) = true) as Hsp
    by apply (spaced_strip U false), collapse_ws_spaced.
  split_and!; [apply strip_trimmed | exact Hsp |].
  revert Hsp. generalize (strip U (collapse_ws U false s)). generalize false.
  intros b t. revert b. induction t as [|c t IH]; intros b; simpl; [constructor|].
  destruct (is_space U c) eqn:Hc.
  - intros H. apply andb_prop in H as [H Ht]. apply andb_prop in H as [_ H].
    apply N.eqb_eq in H. constructor; [done | by apply (IH true)].
  - intros H. constructor; [congruence | by apply (IH false)].
Qed.

(** X3. [normalize_space] keeps every character that is not whitespace, in
    order, and its result is empty exactly when the text has only
    whitespace. *)
Theorem normalize_space_ink (U : unicode) (s : text) :
  ink U (normalize_space U s) = ink U s
  /\ (normalize_space U s = [] <-> ink U s = []).
Proof.
  assert (ink U (normalize_space U s) = ink U s) as H.
  { unfold normalize_space. by rewrite ink_strip, ink_collapse_ws. }
  split; [exact H|]. unfold normalize_space.
  rewrite <- ink_nil_strip. by rewrite ink_collapse_ws.
Qed.

(** ** Tokens and words *)

Section CountFacts.

Variable U : unicode.

Lemma word_runs_app_SP (a r : text) (b : bool) :
  word_runs U b (a ++ SP :: r) = (word_runs U b a + word_runs U false r)%nat.
Proof.
  revert b. induction a as [|c a IH]; intros b; [reflexivity|].
  cbn [app word_runs]. destruct (is_word U c); rewrite IH; lia.
Qed.

Lemma symbols_app (a b : text) : symbols U (a ++ b) = (symbols U a + symbols U b)%nat.
Proof. unfold symbols. by rewrite List.filter_app, length_app. Qed.

Lemma tokenize_len_app_SP (a b : text) :
  tokenize_len U (a ++ [SP] ++ b) = tokenize_len U a + tokenize_len U b.
Proof.
  rewrite !tokenize_len_counts. simpl app.
  rewrite word_runs_app_SP, symbols_app.
  change (symbols U (SP :: b)) with (symbols U b). lia.
Qed.

Lemma word_runs_snoc_space (s : text) (c : char) (b : bool) :
  is_word U c = false -> word_runs U b (s ++ [c]) = word_runs U b s.
Proof.
  intros Hc. revert b. induction s as [|x s IH]; intros b; simpl.
  - by rewrite Hc.
  - destruct (is_word U x); by rewrite IH.
Qed.

Lemma tokenize_len_lstrip (s : text) :
  classes_apart U -> tokenize_len U (lstrip U s) = tokenize_len U s.
Proof.
  intros Hd. induction s as [|c s IH]; [reflexivity|].
  cbn [lstrip]. destruct (is_space U c) eqn:Hc; [|reflexivity].
  rewrite IH, !tokenize_len_counts. unfold symbols. simpl.
  by rewrite (Hd c Hc), Hc.
Qed.

Lemma tokenize_len_rstrip (s : text) :
  classes_apart U -> tokenize_len U (rstrip U s) = tokenize_len U s.
Proof.
  intros Hd. induction s as [|c s IH] using rev_ind; [reflexivity|].
  rewrite rstrip_snoc. destruct (is_space U c) eqn:Hc; [|reflexivity].
  rewrite IH, !tokenize_len_counts, symbols_app.
  rewrite word_runs_snoc_space by auto.
  unfold symbols at 3. simpl. rewrite (Hd c Hc), Hc. simpl. lia.
Qed.

(** A word of [\S+\s*] has a token. *)
Lemma word_shape_token (w : text) : word_shape U w -> 1 <= tokenize_len U w.
Proof.
  intros (run & tl & -> & Hne & Hr & _).
  destruct Hr as [|c run Hc _]; [done|].
  unfold tokenize_len.
  pose proof (ntok_prefix_le U [c] (run ++ tl) []) as H.
  assert (length (find_tokens U [] [c]) = 1%nat) as E.
  { simpl. rewrite Hc. by destruct (is_word U c). }
  simpl app in *. rewrite E in H. lia.
Qed.

Lemma find_words_concat (s : text) (cur : text) (in_tail : bool) :
  concat_text (find_words U cur in_tail s)
  = cur ++ (if truthy cur then s else lstrip U s).
Proof.
  unfold concat_text. revert cur in_tail.
  induction s as [|c s IH]; intros cur in_tail.
  - destruct cur; simpl; by rewrite ?app_nil_r.
  - cbn [find_words lstrip]. destruct (is_space U c) eqn:Hc.
    + destruct cur as [|x cur]; rewrite IH; [reflexivity|].
      simpl. by rewrite <- app_assoc.
    + destruct in_tail.
      * simpl. rewrite IH. simpl. by destruct cur.
      * rewrite IH.
        assert (truthy (cur ++ [c]) = true) as -> by by destruct cur.
        rewrite <- app_assoc. by destruct cur.
Qed.

End CountFacts.

(** X4. The token count of blocks joined with single spaces is the sum of
    their token counts: the running count [buf_tokens] of the chunker is
    the count of the text it joins. *)
Theorem tokenize_len_join (U : unicode) (parts : list text) :
  tokenize_len U (join [SP] parts) = sum_tokens U parts.
Proof.
  induction parts as [|p rest IH]; [reflexivity|].
  destruct rest as [|p' rest].
  - simpl. lia.
  - change (join [SP] (p :: p' :: rest))
      with (p ++ [SP] ++ join [SP] (p' :: rest)).
    rewrite tokenize_len_app_SP, IH. reflexivity.
Qed.

(** X5. Leading and trailing whitespace carries no token: where no word
    character is whitespace, [tokenize_len] of the stripped text is
    [tokenize_len] of the text. *)
Theorem tokenize_len_strip (U : unicode) (s : text) :
  classes_apart U -> tokenize_len U (strip U s) = tokenize_len U s.
Proof.
  intros Hd. rewrite strip_rstrip.
  by rewrite tokenize_len_rstrip, tokenize_len_lstrip.
Qed.

Lemma ascii_only_classes_apart : classes_apart ascii_only.
Proof.
  intros c. unfold is_space, is_word, CharClass.ascii_space, CharClass.ascii_word.
  simpl. destruct (c <? 128)%N; [|done].
  repeat match goal with
         | |- context [(?a <=? ?b)%N] => destruct (N.leb_spec a b)
         end;
    destruct (N.eqb_spec c 95); simpl; intros; try done; lia.
Qed.

Lemma tokenize_len_strip_witness :
  classes_apart ascii_only
  /\ tokenize_len ascii_only (strip ascii_only (str "  a, b  "))
     = tokenize_len ascii_only (str "  a, b  ").
Proof.
  split; [exact ascii_only_classes_apart|].
  apply (tokenize_len_strip ascii_only (str "  a, b  ")).
  exact ascii_only_classes_apart.
Defined.

(** X6. The words that [chunk_by_token_limit] splits an oversized block
    into are the block itself without its leading whitespace, cut into
    pieces: put together again they give it back; each piece is a run
    without whitespace followed by whitespace only, and has a token. *)
Theorem find_words_partition (U : unicode) (snip : text) :
  let words := find_words U [] false snip in
  concat_text words = lstrip U snip
  /\ Forall (fun w => word_shape U w /\ 1 <= tokenize_len U w) words.
Proof.
  intros words. split; [apply find_words_concat|].
  eapply Forall_impl; [apply find_words_shape, scan_state_init|].
  intros w Hw. split; [exact Hw | by apply word_shape_token].
Qed.

(** ** The chunker: what goes in comes out *)

Section ChunkContent.

Variable U : unicode.
Variable limit : Z.

Lemma inks_app (l1 l2 : list text) : inks U (l1 ++ l2) = inks U l1 ++ inks U l2.
Proof. unfold inks. by rewrite map_app, concat_app. Qed.

Lemma inks_snoc (l : list text) (x : text) : inks U (l ++ [x]) = inks U l ++ ink U x.
Proof. rewrite inks_app. unfold inks. simpl. by rewrite app_nil_r. Qed.

Lemma ink_concat (l : list text) : ink U (concat_text l) = inks U l.
Proof.
  unfold concat_text, inks. induction l as [|x l IH]; simpl; [reflexivity|].
  by rewrite ink_app, IH.
Qed.

Lemma ink_join (l : list text) : ink U (join [SP] l) = inks U l.
Proof.
  unfold inks. induction l as [|x l IH]; [reflexivity|].
  destruct l as [|y l].
  - simpl. by rewrite app_nil_r.
  - change (join [SP] (x :: y :: l)) with (x ++ [SP] ++ join [SP] (y :: l)).
    rewrite !ink_app, IH. reflexivity.
Qed.

Lemma pack_words_inks (words : list text) :
  forall chunks tmp tt chunks' tmp',
    pack_words U limit words chunks tmp tt = (chunks', tmp') ->
    inks U chunks' ++ inks U tmp' = inks U chunks ++ inks U tmp ++ inks U words.
Proof.
  induction words as [|w words IH]; intros chunks tmp tt chunks' tmp'; simpl.
  - intros [= <- <-]. unfold inks at 4. simpl. by rewrite app_nil_r.
  - destruct ((tt + tokenize_len U w >? limit) && truthy tmp); intros H;
      apply IH in H; rewrite H.
    + rewrite inks_snoc, ink_strip, ink_concat.
      change (w :: words) with ([w] ++ words). by rewrite inks_app, <- !app_assoc.
    + change (w :: words) with ([w] ++ words). by rewrite !inks_app, <- !app_assoc.
Qed.

Lemma split_oversized_inks (snip : text) (chunks : list text) :
  inks U (split_oversized U limit snip chunks) = inks U chunks ++ ink U snip.
Proof.
  unfold split_oversized.
  destruct (pack_words U limit (find_words U [] false snip) chunks [] 0)
    as [cs tmp] eqn:E.
  apply pack_words_inks in E.
  rewrite <- (ink_concat (find_words U [] false snip)), find_words_concat in E.
  cbn [truthy app] in E. rewrite ink_lstrip in E.
  change (inks U []) with (@nil N) in E. cbn [app] in E.
  destruct tmp as [|x tmp]; cbn [truthy].
  - change (inks U []) with (@nil N) in E. by rewrite app_nil_r in E.
  - by rewrite inks_snoc, ink_strip, ink_concat.
Qed.

Lemma inks_nil : inks U [] = [].
Proof. reflexivity. Qed.

Lemma inks_cons (x : text) (l : list text) : inks U (x :: l) = ink U x ++ inks U l.
Proof. reflexivity. Qed.

Lemma chunk_loop_inks (snippets : list text) :
  forall chunks buf bt,
    inks U (chunk_loop U limit snippets chunks buf bt)
    ≡ₚ inks U chunks ++ inks U buf ++ inks U snippets.
Proof.
  induction snippets as [|snip rest IH]; intros chunks buf bt; cbn [chunk_loop].
  - rewrite inks_nil, app_nil_r.
    destruct buf as [|b buf]; cbn [truthy].
    + by rewrite inks_nil, app_nil_r.
    + by rewrite inks_snoc, ink_strip, ink_join.
  - rewrite inks_cons.
    destruct (tokenize_len U snip >? limit).
    + rewrite IH, split_oversized_inks.
      rewrite <- !app_assoc. f_equiv.
      rewrite !app_assoc. f_equiv. apply Permutation_app_comm.
    + destruct ((bt + tokenize_len U snip >? limit) && truthy buf).
      * rewrite IH, inks_snoc, ink_strip, ink_join.
        by rewrite inks_cons, inks_nil, app_nil_r, <- !app_assoc.
      * rewrite IH, inks_snoc. by rewrite <- !app_assoc.
Qed.

(** Whatever holds of every stripped text holds of every chunk. *)
Lemma pack_words_stripped (P : text -> Prop) (words : list text) :
  (forall x, P (strip U x)) ->
  forall chunks tmp tt,
    Forall P chunks -> Forall P (fst (pack_words U limit words chunks tmp tt)).
Proof.
  intros HP. induction words as [|w words IH]; intros chunks tmp tt Hc; simpl; [done|].
  destruct ((tt + tokenize_len U w >? limit) && truthy tmp); apply IH; [|done].
  by apply Forall_snoc.
Qed.

Lemma chunk_loop_stripped (P : text -> Prop) (snippets : list text) :
  (forall x, P (strip U x)) ->
  forall chunks buf bt,
    Forall P chunks -> Forall P (chunk_loop U limit snippets chunks buf bt).
Proof.
  intros HP. induction snippets as [|snip rest IH]; intros chunks buf bt Hc; simpl.
  - destruct (truthy buf); [by apply Forall_snoc | done].
  - destruct (tokenize_len U snip >? limit).
    + apply IH. unfold split_oversized.
      pose proof (pack_words_stripped P (find_words U [] false snip) HP chunks [] 0 Hc) as H.
      destruct (pack_words U limit (find_words U [] false snip) chunks [] 0) as [cs tmp].
      simpl in H. destruct (truthy tmp); [by apply Forall_snoc | done].
    + destruct ((bt + tokenize_len U snip >? limit) && truthy buf); apply IH; [|done].
      by apply Forall_snoc.
Qed.

Lemma sum_tokens_nonneg (l : list text) : 0 <= sum_tokens U l.
Proof.
  induction l as [|x l IH]; simpl; [lia|].
  pose proof (tokenize_len_nonneg U x). lia.
Qed.

Lemma chunk_loop_fits (snippets : list text) :
  forall chunks buf bt,
    bt = sum_tokens U buf ->
    bt + sum_tokens U snippets <= limit ->
    chunk_loop U limit snippets chunks buf bt
    = if truthy (buf ++ snippets)
      then chunks ++ [strip U (join [SP] (buf ++ snippets))]
      else chunks.
Proof.
  induction snippets as [|snip rest IH]; intros chunks buf bt Hbt Hfit;
    cbn [chunk_loop].
  - by rewrite app_nil_r.
  - simpl in Hfit.
    pose proof (tokenize_len_nonneg U snip).
    pose proof (sum_tokens_nonneg rest). pose proof (sum_tokens_nonneg buf).
    rewrite (Z.gtb_ltb (tokenize_len U snip)), (proj2 (Z.ltb_ge _ _)) by lia.
    rewrite (Z.gtb_ltb (bt + _)), (proj2 (Z.ltb_ge _ _)) by lia.
    cbn [andb]. rewrite IH.
    + rewrite <- app_assoc. cbn [app]. by destruct buf.
    + rewrite sum_tokens_app. simpl. lia.
    + lia.
Qed.

End ChunkContent.

(** X7. [chunk_by_token_limit] loses nothing and repeats nothing: the
    characters of the chunks that are not whitespace are those of the
    blocks, each as often as there. *)
Theorem chunk_by_token_limit_content (U : unicode) (snippets : list text) (limit : Z) :
  inks U (chunk_by_token_limit U snippets limit) ≡ₚ inks U snippets.
Proof. unfold chunk_by_token_limit. by rewrite chunk_loop_inks. Qed.

(** X8. No chunk of [chunk_by_token_limit] begins or ends with
    whitespace. *)
Theorem chunk_by_token_limit_trimmed (U : unicode) (snippets : list text) (limit : Z) :
  Forall (trimmed U) (chunk_by_token_limit U snippets limit).
Proof.
  apply chunk_loop_stripped; [apply strip_trimmed | constructor].
Qed.

(** X9. Blocks that fit the limit together give one chunk, the blocks
    joined with single spaces; no block gives no chunk. *)
Theorem chunk_by_token_limit_fits (U : unicode) (snippets : list text) (limit : Z) :
  sum_tokens U snippets <= limit ->
  chunk_by_token_limit U snippets limit
  = if truthy snippets then [strip U (join [SP] snippets)] else [].
Proof.
  intros H. unfold chunk_by_token_limit.
  by rewrite (chunk_loop_fits U limit snippets [] [] 0).
Qed.

Lemma chunk_by_token_limit_fits_witness :
  sum_tokens ascii_only [str "one two"; str " three. "] <= 500
  /\ chunk_by_token_limit ascii_only [str "one two"; str " three. "] 500
     = [str "one two  three."].
Proof.
  assert (sum_tokens ascii_only [str "one two"; str " three. "] <= 500) as H
    by (vm_compute; discriminate).
  split; [exact H|].
  rewrite (chunk_by_token_limit_fits ascii_only _ 500 H). vm_compute. reflexivity.
Defined.

(** ** Chunk ids and upserts *)

Lemma digits_inj (u v : Decimal.uint) : digits u = digits v -> u = v.
Proof.
  revert v. induction u as [|u IH|u IH|u IH|u IH|u IH|u IH|u IH|u IH|u IH|u IH];
    intros [|v|v|v|v|v|v|v|v|v|v]; simpl; intros H; try discriminate;
    try reflexivity; injection H as H; f_equal; by apply IH.
Qed.

Lemma digits_are_digits (u : Decimal.uint) :
  Forall (fun c => is_digit c = true) (digits u).
Proof. induction u; simpl; constructor; done. Qed.

Lemma decimal_inj (i j : N) : decimal i = decimal j -> i = j.
Proof. intros H. by apply DecimalN.Unsigned.to_uint_inj, digits_inj. Qed.

(** A text ends in ['#'] and digits in one way only. *)
Lemma hash_suffix_inj (p1 p2 d1 d2 : text) :
  Forall (fun c => is_digit c = true) d1 ->
  Forall (fun c => is_digit c = true) d2 ->
  p1 ++ 35%N :: d1 = p2 ++ 35%N :: d2 -> p1 = p2 /\ d1 = d2.
Proof.
  intros H1 H2. rewrite List.Forall_forall in H1, H2. revert p2.
  induction p1 as [|x p1 IH]; intros [|y p2]; simpl; intros E.
  - by injection E as ->.
  - exfalso. injection E as Ey E. subst y.
    assert (In 35%N d1) as Hin by (rewrite E; apply in_or_app; right; by left).
    by apply H1 in Hin.
  - exfalso. injection E as Ex E. subst x.
    assert (In 35%N d2) as Hin by (rewrite <- E; apply in_or_app; right; by left).
    by apply H2 in Hin.
  - injection E as Ex E. subst y. by destruct (IH _ E) as [-> ->].
Qed.

(** X10. The text hashed into a chunk id tells the page and the position:
    two chunks get the same text only if they are the same chunk of the
    same page. *)
Theorem chunk_key_injective (page1 page2 : text) (i j : N) :
  chunk_key page1 i = chunk_key page2 j -> page1 = page2 /\ i = j.
Proof.
  unfold chunk_key, decimal. intros E.
  apply hash_suffix_inj in E as [-> E]; try apply digits_are_digits.
  split; [reflexivity|]. by apply DecimalN.Unsigned.to_uint_inj, digits_inj.
Qed.

Lemma chunk_key_injective_witness :
  chunk_key (str "http://a.test/p#1") 0 = chunk_key (str "http://a.test/p#1") 0
  /\ chunk_key (str "http://a.test/p#1") 0 <> chunk_key (str "http://a.test/p") 10.
Proof.
  split; [reflexivity|]. intros E.
  destruct (chunk_key_injective _ _ _ _ E) as [_ H]. discriminate.
Defined.

Lemma enumerate_from_length {A} (k : N) (l : list A) :
  length (enumerate_from k l) = length l.
Proof. revert k. induction l as [|x l IH]; intros k; simpl; [done|]. by rewrite IH. Qed.

Lemma enumerate_from_lookup {A} (k : N) (l : list A) (i : nat) :
  enumerate_from k l !! i = (fun x => ((k + N.of_nat i)%N, x)) <$> l !! i.
Proof.
  revert k i. induction l as [|x l IH]; intros k [|i]; simpl; try done.
  - by rewrite N.add_0_r.
  - rewrite IH. destruct (l !! i); simpl; [|done]. do 2 f_equal. lia.
Qed.

Lemma combine_lookup {A B} (l1 : list A) (l2 : list B) (i : nat) (x : A) (y : B) :
  combine l1 l2 !! i = Some (x, y) <-> l1 !! i = Some x /\ l2 !! i = Some y.
Proof.
  revert l2 i. induction l1 as [|a l1 IH]; intros [|b l2] [|i]; simpl;
    try (split; [done | by intros [? ?]]).
  - split; [by intros [= -> ->] | by intros [[= ->] [= ->]]].
  - apply IH.
Qed.

(** X11. A successful [upsert_chunks] makes one upsert call for the page,
    with one record per chunk that has an embedding, in the order of the
    chunks; record [i] has the id cut from the hash of [page_url#i], the
    embedding [i], and as metadata the site, the page, the path, chunk [i]
    and its title. *)
Theorem upsert_chunks_records (U : unicode) (X : services)
    (idx site page path : text) (chunks : list text) (w w' : world (Store X)) :
  upsert_chunks U X idx site page path chunks w = (Ok tt, w') ->
  exists vecs recs,
    encode X chunks = Ok vecs
    /\ trace w' = trace w ++ [EvUpsert idx page recs]
    /\ length recs = Nat.min (length chunks) (length vecs)
    /\ forall i r,
        recs !! i = Some r ->
        exists html t,
          chunks !! i = Some html
          /\ vecs !! i = Some (rec_values r)
          /\ extract_title_from_html U X html = Ok t
          /\ rec_id r = prefix_of 40 (sha256_hex X (chunk_key page (N.of_nat i)))
          /\ rec_metadata r
             = {| md_site_id := Some site; md_page_url := Some page;
                  md_path := Some path; md_chunk_html := Some html;
                  md_title := Some t |}.
Proof.
  unfold upsert_chunks, bind, lift, log.
  destruct (encode X chunks) as [vecs|] eqn:He; [|discriminate].
  destruct (map_result _ _) as [recs|] eqn:Hr; [|discriminate].
  simpl. destruct (index_upsert X (store w) idx recs) as [s' r] eqn:Hu.
  intros [= -> <-]. exists vecs, recs.
  apply map_result_Forall2 in Hr.
  split_and!; try done.
  - rewrite <- (Forall2_length _ _ _ Hr), enumerate_from_length.
    apply length_combine.
  - intros i r Hi.
    destruct (Forall2_lookup_r _ _ _ _ _ Hr Hi) as ([k [html v]] & Hk & Hmk).
    rewrite enumerate_from_lookup in Hk.
    destruct (combine chunks vecs !! i) as [[html' v']|] eqn:Hc; [|discriminate].
    simpl in Hk. injection Hk as <- <- <-.
    apply combine_lookup in Hc as [Hch Hv].
    unfold make_record in Hmk.
    destruct (extract_title_from_html U X html') as [t|] eqn:Ht; [|discriminate].
    simpl in Hmk. injection Hmk as <-.
    exists html', t. by rewrite N.add_0_l.
Qed.

Lemma upsert_chunks_records_witness :
  exists w',
    upsert_chunks ascii_only Toy.site (index_name_of 2) (str "http://a.test")
      Toy.home_url (str "/") [str "one"; str "two"] Toy.world0 = (Ok tt, w')
    /\ List.map rec_id (store w')
       = [str "http://a.test/#0"; str "http://a.test/#1"].
Proof.
  eexists. split; [vm_compute; reflexivity|].
  edestruct (upsert_chunks_records ascii_only Toy.site (index_name_of 2)
               (str "http://a.test") Toy.home_url (str "/")
               [str "one"; str "two"] Toy.world0)
    as (vecs & recs & _ & _ & _ & _); [vm_compute; reflexivity|].
  vm_compute. reflexivity.
Defined.

(** X12. The [try] of [extract_title_from_html] saves nothing: the function
    raises exactly when the parser raises on the fragment, and with the
    parser's error. *)
Theorem extract_title_raises (U : unicode) (X : services) (html : text) (e : exn) :
  extract_title_from_html U X html = Raise e <-> parse_html X html = Raise e.
Proof.
  unfold extract_title_from_html.
  destruct (parse_html X html) as [sp|e'] eqn:Hp; cbn [bind_result].
  - destruct (title_loop U sp title_tags); split; intros H; discriminate H.
  - split; intros [= ->]; reflexivity.
Qed.

(** ** Blocks, paths and links *)

Lemma block_of_cases (U : unicode) (tag : element) :
  block_of U tag = []
  \/ (block_of U tag = [normalize_space U (inner_html tag)]
      /\ normalize_space U (inner_html tag) <> []
      /\ 20 < Z.of_nat (length (get_text [SP] (strings tag)))).
Proof.
  unfold block_of.
  destruct (truthy (get_text [SP] (strings tag))); simpl; [|by left].
  destruct (20 <? Z.of_nat (length (get_text [SP] (strings tag)))) eqn:Hl; [|by left].
  apply Z.ltb_lt in Hl.
  destruct (normalize_space U (inner_html tag)) eqn:E; simpl; [by left|].
  right. by split_and!.
Qed.

Lemma flat_map_block_of_sublist (U : unicode) (tags : list element) :
  sublist (flat_map (block_of U) tags)
          (List.map (fun tag => normalize_space U (inner_html tag)) tags).
Proof.
  induction tags as [|tag tags IH]; simpl; [constructor|].
  destruct (block_of_cases U tag) as [-> | (-> & _)]; simpl.
  - by apply sublist_cons.
  - by apply sublist_skip.
Qed.

Lemma flat_map_block_of_Forall (U : unicode) (tags : list element) :
  Forall (fun b => b <> [] /\ normalize_space U b = b)
         (flat_map (block_of U) tags).
Proof.
  induction tags as [|tag tags IH]; simpl; [constructor|].
  destruct (block_of_cases U tag) as [-> | (-> & Hne & _)]; simpl; [done|].
  constructor; [|done]. split; [done | apply normalize_space_idem_aux].
Qed.

(** X13. Every block returned by [clean_html_and_get_dom_chunks] is
    whitespace-normalized.  When a candidate element qualifies, the blocks
    are non-empty and are normalized inner markup of candidates, in
    document order, at most one per candidate. *)
Theorem clean_html_blocks (U : unicode) (X : services) (html : text)
    (blocks : list text) :
  clean_html_and_get_dom_chunks U X html = Ok blocks ->
  exists sp,
    parse_html X html = Ok sp
    /\ Forall (fun b => normalize_space U b = b) blocks
    /\ (flat_map (block_of U) (content_blocks sp) <> [] ->
        Forall (fun b => b <> []) blocks
        /\ sublist blocks
             (List.map (fun tag => normalize_space U (inner_html tag))
                (content_blocks sp))).
Proof.
  unfold clean_html_and_get_dom_chunks.
  destruct (parse_html X html) as [sp|] eqn:Hp; [|discriminate].
  cbn [bind_result]. intros H. exists sp. split; [reflexivity|].
  pose proof (flat_map_block_of_Forall U (content_blocks sp)) as Hall.
  pose proof (flat_map_block_of_sublist U (content_blocks sp)) as Hsub.
  destruct (flat_map (block_of U) (content_blocks sp)) as [|b bs] eqn:E.
  - cbn [truthy] in H.
    split; [|done].
    destruct (truthy (get_text [SP] (content_strings sp))); injection H as <-.
    + constructor; [apply normalize_space_idem_aux | constructor].
    + constructor.
  - cbn [truthy] in H. injection H as <-. split.
    + eapply Forall_impl; [exact Hall|]. by intros b' [_ ?].
    + intros _. split; [|exact Hsub].
      eapply Forall_impl; [exact Hall|]. by intros b' [? _].
Qed.

Lemma clean_html_blocks_witness :
  exists blocks,
    clean_html_and_get_dom_chunks ascii_only Toy.site (str "HOME") = Ok blocks
    /\ blocks = [str "<b>Fox</b> jumps over the lazy dog"]
    /\ Forall (fun b => normalize_space ascii_only b = b) blocks.
Proof.
  eexists. split; [vm_compute; reflexivity|]. split; [reflexivity|].
  edestruct (clean_html_blocks ascii_only Toy.site (str "HOME")) as (sp & _ & H & _);
    [vm_compute; reflexivity | exact H].
Defined.

Lemma or_slash_nonempty (x : text) : or_slash x <> [].
Proof. by destruct x. Qed.

(** X14. [detect_page_path] gives the path of the canonical URL when the
    document declares one that the URL functions accept.  In every other
    case (the parser raises,
    no canonical link, an empty target, a target that [urljoin] or
    [urlparse] rejects) it gives the path of the page URL, and raises when
    [urlparse] rejects the page URL.  An empty path is replaced by "/": the
    path returned is never empty. *)
Theorem detect_page_path_cases (X : services) (url html : text) :
  match canonical_url X url html with
  | Some u => detect_page_path X url html = Ok (or_slash (url_path u))
  | None =>
      (forall u, urlparse X url = Ok u ->
                 detect_page_path X url html = Ok (or_slash (url_path u)))
      /\ (forall e, urlparse X url = Raise e ->
                    detect_page_path X url html = Raise e)
  end
  /\ (forall p, detect_page_path X url html = Ok p -> p <> []).
Proof.
  assert (forall r : result text,
            r = bind_result (urlparse X url) (fun u => Ok (or_slash (url_path u))) ->
            (forall u, urlparse X url = Ok u -> r = Ok (or_slash (url_path u)))
            /\ (forall e, urlparse X url = Raise e -> r = Raise e)) as Hfall.
  { intros r ->. split; [intros u -> | intros e ->]; reflexivity. }
  assert (forall p,
            bind_result (urlparse X url) (fun u => Ok (or_slash (url_path u))) = Ok p ->
            p <> []) as Hne.
  { intros p. destruct (urlparse X url) as [u|]; [|discriminate].
    intros [= <-]. apply or_slash_nonempty. }
  unfold canonical_url, detect_page_path.
  destruct (parse_html X html) as [sp|]; [|split; [by apply Hfall | exact Hne]].
  destruct (canonical_href sp) as [[|c href]|];
    [split; [by apply Hfall | exact Hne] | | split; [by apply Hfall | exact Hne]].
  cbn [truthy].
  destruct (urljoin X url (c :: href)) as [abs|]; cbn [bind_result];
    [|split; [by apply Hfall | exact Hne]].
  destruct (urlparse X abs) as [u|]; [|split; [by apply Hfall | exact Hne]].
  split; [reflexivity|]. intros p [= <-]. apply or_slash_nonempty.
Qed.

Lemma detect_page_path_cases_witness :
  detect_page_path Toy.site (str "http://a.test/y") (str "SECOND") = Ok (str "/why")
  /\ detect_page_path Toy.site Toy.tangled_url (str "TANGLED") = Ok (str "/t")
  /\ detect_page_path Toy.site (str "http://[/") (str "TANGLED") = Raise ValueError.
Proof.
  pose proof (detect_page_path_cases Toy.site (str "http://a.test/y") (str "SECOND"))
    as [H1 _].
  pose proof (detect_page_path_cases Toy.site Toy.tangled_url (str "TANGLED"))
    as [[H2 _] _].
  pose proof (detect_page_path_cases Toy.site (str "http://[/") (str "TANGLED"))
    as [[_ H4] _].
  split_and!.
  - exact H1.
  - exact (H2 _ eq_refl).
  - exact (H4 _ eq_refl).
Defined.

Lemma firstn_prefix {A} (n m : nat) (l : list A) :
  (n <= m)%nat -> exists k, firstn m l = firstn n l ++ k.
Proof.
  intros H. exists (skipn n (firstn m l)).
  rewrite <- (firstn_skipn n (firstn m l)) at 1.
  rewrite firstn_firstn. by replace (Nat.min n m) with n by lia.
Qed.

(** The loop only adds to its list. *)
Lemma links_loop_extends (X : services) (start_url : text) (origin : parsed_url)
    (limit : Z) (hrefs : list text) (seen : gset text) (q urls : list text) :
  links_loop X start_url origin limit hrefs seen q = Ok urls ->
  exists more, urls = q ++ more.
Proof.
  revert seen q. induction hrefs as [|a rest IH]; intros seen q; cbn [links_loop].
  - intros [= <-]. exists []. by rewrite app_nil_r.
  - destruct (limit <=? Z.of_nat (size seen));
      [intros [= <-]; exists []; by rewrite app_nil_r|].
    destruct (urljoin X start_url a) as [href|]; [|discriminate].
    destruct (urlparse X href) as [u|]; [|discriminate].
    set (add := _ && negb _).
    assert (exists k, (if add then q ++ [href] else q) = q ++ k) as [k Hk]
      by (destruct add; [by exists [href] | exists []; by rewrite app_nil_r]).
    destruct (limit <=? _); [intros [= <-]; by exists k|].
    intros H. apply IH in H as [more ->]. rewrite Hk, <- app_assoc. by eexists.
Qed.

(** With a larger budget the loop takes the same steps, and more. *)
Lemma links_loop_monotone (X : services) (start_url : text) (origin : parsed_url)
    (limit limit' : Z) (hrefs : list text) :
  limit <= limit' ->
  forall (seen : gset text) (q urls urls' : list text),
    size seen = length q ->
    links_loop X start_url origin limit hrefs seen q = Ok urls ->
    links_loop X start_url origin limit' hrefs seen q = Ok urls' ->
    exists more, urls' = urls ++ more.
Proof.
  intros Hle. induction hrefs as [|a rest IH]; intros seen q urls urls' Hsz H1 H2.
  - injection H1 as <-. injection H2 as <-. exists []. by rewrite app_nil_r.
  - cbn [links_loop] in H1.
    destruct (limit <=? Z.of_nat (size seen)) eqn:Hstop.
    { injection H1 as <-. by apply links_loop_extends in H2. }
    apply Z.leb_gt in Hstop. cbn [links_loop] in H2.
    rewrite (proj2 (Z.leb_gt limit' _)) in H2 by lia.
    destruct (urljoin X start_url a) as [href|]; [|discriminate].
    destruct (urlparse X href) as [u|]; [|discriminate].
    set (add := _ && negb _) in *.
    assert (size (if add then {[href]} ∪ seen else seen)
            = length (if add then q ++ [href] else q)) as Hsz'.
    { destruct add eqn:Hadd; [|done].
      rewrite size_union, size_singleton, length_app; [simpl; lia|].
      subst add. apply andb_prop in Hadd as [_ Hadd]. apply negb_true_iff in Hadd.
      apply bool_decide_eq_false in Hadd. set_solver. }
    destruct (limit <=? Z.of_nat (length (if add then q ++ [href] else q))) eqn:Hfull.
    + injection H1 as <-.
      destruct (limit' <=? _); [injection H2 as <-; exists []; by rewrite app_nil_r|].
      by apply links_loop_extends in H2.
    + apply Z.leb_gt in Hfull.
      rewrite (proj2 (Z.leb_gt limit' _)) in H2 by lia.
      by apply (IH _ _ _ _ Hsz' H1 H2).
Qed.

(** X15. A larger page budget only adds URLs at the end: the list
    [same_domain_links] returns for a budget is the beginning of the list
    it returns for any larger budget. *)
Theorem same_domain_links_monotone (X : services) (start_url html : text)
    (limit limit' : Z) (urls urls' : list text) :
  limit <= limit' ->
  same_domain_links X start_url html limit = Ok urls ->
  same_domain_links X start_url html limit' = Ok urls' ->
  exists more, urls' = urls ++ more.
Proof.
  intros Hle. unfold same_domain_links.
  destruct (parse_html X html) as [sp|]; [|discriminate]. cbn [bind_result].
  destruct (urlparse X start_url) as [origin|]; [|discriminate]. cbn [bind_result].
  apply links_loop_monotone; [done | by rewrite size_singleton].
Qed.

(** ** The calls a request makes *)

Section Calls.

Variable U : unicode.
Variable C : config.
Variable X : services.

Abbreviation W := (world (Store X)) (only parsing).

Lemma extends_refl (P : event -> Prop) (w : W) : extends P w w.
Proof. exists []. by rewrite app_nil_r. Qed.

Lemma extends_same (P : event -> Prop) (w w' : W) :
  trace w' = trace w -> extends P w w'.
Proof. intros H. exists []. by rewrite app_nil_r. Qed.

Lemma extends_trans (P : event -> Prop) (w1 w2 w3 : W) :
  extends P w1 w2 -> extends P w2 w3 -> extends P w1 w3.
Proof.
  intros (e1 & H1 & F1) (e2 & H2 & F2). exists (e1 ++ e2).
  split; [by rewrite H2, H1, app_assoc | by apply Forall_app].
Qed.

Lemma extends_logged (P : event -> Prop) (w : W) (ev : event) :
  P ev -> extends P w (logged w ev).
Proof. intros H. exists [ev]. split; [reflexivity | by constructor]. Qed.

Lemma extends_impl (P Q : event -> Prop) (w w' : W) :
  (forall ev, P ev -> Q ev) -> extends P w w' -> extends Q w w'.
Proof.
  intros H (evs & E & F). exists evs. split; [done|].
  eapply Forall_impl; eauto.
Qed.

(** The calls of a sequence are those of its parts. *)
Lemma bind_extends {A B} (P : event -> Prop)
    (c : M (Store X) A) (k : A -> M (Store X) B) (w : W) :
  extends P w (snd (c w)) ->
  (forall a w1, c w = (Ok a, w1) -> extends P w1 (snd (k a w1))) ->
  extends P w (snd (bind c k w)).
Proof.
  intros Hc Hk. unfold bind. destruct (c w) as [[a|e] w1]; simpl in *; [|done].
  eapply extends_trans; [exact Hc | by apply Hk].
Qed.

Lemma try_continue_extends (P : event -> Prop) (body : M (Store X) unit) (w : W) :
  extends P w (snd (body w)) -> extends P w (snd (try_continue body w)).
Proof. by rewrite try_continue_run. Qed.

Lemma fetch_html_extends (P : event -> Prop) (url : text) (w : W) :
  P (EvFetch url) -> extends P w (snd (fetch_html X url w)).
Proof. intros H. rewrite fetch_html_run. by apply extends_logged. Qed.

Lemma search_top_k_extends (P : event -> Prop) (idx query site : text)
    (top_k : Z) (w : W) :
  P (EvQuery idx site (top_k * 3)) ->
  extends P w (snd (search_top_k X idx query site top_k w)).
Proof.
  intros H. destruct (search_top_k_world X idx query site top_k w) as [-> | ->];
    [apply extends_refl | by apply extends_logged].
Qed.

Lemma ensure_index_extends (P : event -> Prop) (name : text) (dim : N) (w : W) :
  P EvListIndexes -> P (EvCreateIndex name dim) ->
  extends P w (snd (ensure_index C X name dim w)).
Proof.
  intros H1 H2. unfold ensure_index.
  apply bind_extends; [apply extends_refl|]. intros _ w1 _.
  apply bind_extends; [by apply extends_logged|]. intros _ w2 _.
  apply bind_extends; [destruct (list_indexes X (store w2)); apply extends_refl|].
  intros existing w3 _.
  destruct (bool_decide (name ∈ existing)); [apply extends_refl|].
  apply bind_extends; [by apply extends_logged|]. intros _ w4 _.
  destruct (create_index X (store w4) name dim) as [s' r]. by apply extends_same.
Qed.

Lemma map_result_Forall {A B} (f : A -> result B) (Q : B -> Prop)
    (l : list A) (out : list B) :
  (forall x y, f x = Ok y -> Q y) -> map_result f l = Ok out -> Forall Q out.
Proof.
  intros Hf Hm. apply map_result_Forall2 in Hm.
  induction Hm; constructor; eauto.
Qed.

Lemma make_record_of (site page path : text) (item : N * (text * vector)) (r : record) :
  make_record U X site page path item = Ok r -> record_of site page r.
Proof.
  destruct item as [i [html v]]. unfold make_record.
  destruct (extract_title_from_html U X html); [|discriminate].
  by intros [= <-].
Qed.

Lemma upsert_chunks_extends (P : event -> Prop) (idx site page path : text)
    (chunks : list text) (w : W) :
  (forall recs, Forall (record_of site page) recs -> P (EvUpsert idx page recs)) ->
  extends P w (snd (upsert_chunks U X idx site page path chunks w)).
Proof.
  intros HP. unfold upsert_chunks.
  apply bind_extends; [apply extends_refl|]. intros vecs w1 _.
  apply bind_extends; [apply extends_refl|]. intros recs w2 Hr.
  unfold lift in Hr. injection Hr as Hr _.
  apply bind_extends.
  - apply extends_logged, HP.
    eapply map_result_Forall; [|exact Hr]. intros x y. apply make_record_of.
  - intros _ w3 _.
    destruct (index_upsert X (store w3) idx recs) as [s' r]. by apply extends_same.
Qed.

Lemma page_html_extends (P : event -> Prop) (start start_html page : text) (w : W) :
  (page <> start -> P (EvFetch page)) ->
  extends P w (snd (page_html X start start_html page w)).
Proof.
  intros H. unfold page_html. case_bool_decide; [apply extends_refl|].
  by apply fetch_html_extends, H.
Qed.

Lemma index_page_tail_extends (P : event -> Prop) (idx site page html : text) (w : W) :
  (forall recs, Forall (record_of site page) recs -> P (EvUpsert idx page recs)) ->
  extends P w
    (snd (bind (lift (detect_page_path X page html))
            (fun path =>
               bind (lift (clean_html_and_get_dom_chunks U X html))
                 (fun snippets =>
                    let chunks :=
                      chunk_by_token_limit U snippets (CHUNK_TOKEN_LIMIT C) in
                    if truthy chunks
                    then upsert_chunks U X idx site page path chunks
                    else ret tt)) w)).
Proof.
  intros HP. apply bind_extends; [apply extends_refl|]. intros path w0 _.
  apply bind_extends; [apply extends_refl|]. intros snippets w1 _.
  simpl. destruct (truthy _); [by apply upsert_chunks_extends | apply extends_refl].
Qed.

Lemma index_page_extends (P : event -> Prop) (idx site start start_html page : text)
    (w : W) :
  (page <> start -> P (EvFetch page)) ->
  (forall recs, Forall (record_of site page) recs -> P (EvUpsert idx page recs)) ->
  extends P w (snd (index_page U C X idx site start start_html page w)).
Proof.
  intros HF HP. unfold index_page.
  apply bind_extends; [by apply page_html_extends|]. intros html w1 _.
  by apply index_page_tail_extends.
Qed.

Lemma index_pages_extends (P : event -> Prop) (idx site start start_html : text)
    (urls : list text) (w : W) :
  Forall (fun page =>
            (page <> start -> P (EvFetch page))
            /\ forall recs, Forall (record_of site page) recs ->
                            P (EvUpsert idx page recs)) urls ->
  extends P w (snd (index_pages U C X idx site start start_html urls w)).
Proof.
  intros H. revert w. induction H as [|page rest [HF HP] _ IH]; intros w.
  - apply extends_refl.
  - rewrite index_pages_cons.
    eapply extends_trans; [by apply index_page_extends | apply IH].
Qed.

(** The fetches of a page: the page itself, unless it is the start page. *)
Lemma fetches_app (a b : list event) : fetches (a ++ b) = fetches a ++ fetches b.
Proof. unfold fetches. apply omap_app. Qed.

Lemma fetches_no_fetch (evs : list event) : Forall no_fetch evs -> fetches evs = [].
Proof.
  induction 1 as [|ev evs Hev _ IH]; [reflexivity|].
  destruct ev; try done; exact IH.
Qed.

Lemma index_page_fetches (idx site start start_html page : text) (w : W) :
  fetches (trace (snd (index_page U C X idx site start start_html page w)))
  = fetches (trace w) ++ (if bool_decide (page = start) then [] else [page]).
Proof.
  unfold index_page.
  set (k := fun html : text => bind _ _).
  assert (forall html w1, fetches (trace (snd (k html w1))) = fetches (trace w1)) as Hk.
  { intros html w1.
    destruct (index_page_tail_extends no_fetch idx site page html w1)
      as (evs & E & F); [done|].
    subst k. cbv beta zeta. cbv beta zeta in E.
    rewrite E, fetches_app, (fetches_no_fetch _ F).
    apply app_nil_r. }
  unfold bind at 1, page_html. case_bool_decide.
  - unfold ret. rewrite Hk. by rewrite app_nil_r.
  - rewrite fetch_html_run.
    destruct (http_get X page) as [html|e]; [rewrite Hk|]; simpl;
      by rewrite fetches_app.
Qed.

Lemma index_pages_fetches (idx site start start_html : text) (urls : list text) (w : W) :
  fetches (trace (snd (index_pages U C X idx site start start_html urls w)))
  = fetches (trace w) ++ List.filter (fun u => negb (bool_decide (u = start))) urls.
Proof.
  revert w. induction urls as [|page rest IH]; intros w.
  - simpl. by rewrite app_nil_r.
  - rewrite index_pages_cons, IH, index_page_fetches. simpl.
    case_bool_decide; simpl; by rewrite <- app_assoc.
Qed.

End Calls.

Lemma filter_other (x : text) (l : list text) :
  x ∉ l -> List.filter (fun u => negb (bool_decide (u = x))) l = l.
Proof.
  induction l as [|y l IH]; intros H; simpl; [reflexivity|].
  apply not_elem_of_cons in H as [Hne H].
  rewrite bool_decide_eq_false_2 by done. simpl. by rewrite IH.
Qed.

(** X16. An indexing pass whose start page is fetched: when
    [same_domain_links] returns, the pass does not raise and fetches the
    URLs found, each once and in that order, the start page first (it is
    not fetched again inside the loop): at most [max MAX_PAGES 1] fetches;
    when [same_domain_links] raises, the pass raises its error after the
    one fetch of the start page. *)
Theorem index_site_fetches (U : unicode) (C : config) (X : services)
    (idx site url html : text) (w : world (Store X)) :
  http_get X url = Ok html ->
  (forall urls,
      same_domain_links X url html (MAX_PAGES C) = Ok urls ->
      fst (index_site U C X idx site url w) = Ok tt
      /\ fetches (trace (snd (index_site U C X idx site url w)))
         = fetches (trace w) ++ urls
      /\ head urls = Some url
      /\ NoDup urls
      /\ Z.of_nat (length urls) <= Z.max (MAX_PAGES C) 1)
  /\ (forall e,
      same_domain_links X url html (MAX_PAGES C) = Raise e ->
      index_site U C X idx site url w = (Raise e, logged w (EvFetch url))).
Proof.
  intros Hf. split.
  - intros urls Hl.
    rewrite (index_site_run U C X idx site url html urls w Hf Hl).
    split; [apply index_pages_ok|].
    rewrite index_pages_fetches.
    destruct (same_domain_links_tail X url html (MAX_PAGES C) urls Hl)
      as (tl & -> & Hfresh & Hnd & _ & Hlen).
    split_and!; [| done | by apply NoDup_cons | exact Hlen].
    simpl. rewrite bool_decide_eq_true_2 by done. simpl.
    rewrite filter_other by done.
    unfold fetches. rewrite omap_app. simpl. by rewrite <- app_assoc.
  - intros e Hl. unfold index_site.
    unfold bind at 1. rewrite fetch_html_run, Hf.
    unfold bind at 1. unfold lift. by rewrite Hl.
Qed.

Lemma index_site_fetches_witness :
  http_get Toy.site Toy.home_url = Ok (str "HOME")
  /\ fetches (trace (snd (index_site ascii_only Toy.cfg Toy.site (index_name_of 2)
                            (str "http://a.test") Toy.home_url Toy.world0)))
     = [Toy.home_url; str "http://a.test/x"; str "http://a.test/y"]
  /\ http_get Toy.site Toy.tangled_url = Ok (str "TANGLED")
  /\ index_site ascii_only Toy.cfg Toy.site (index_name_of 2)
       (str "http://a.test") Toy.tangled_url Toy.world0
     = (Raise ValueError, logged Toy.world0 (EvFetch Toy.tangled_url)).
Proof.
  split; [reflexivity|].
  destruct (index_site_fetches ascii_only Toy.cfg Toy.site (index_name_of 2)
              (str "http://a.test") Toy.home_url (str "HOME") Toy.world0 eq_refl)
    as [Hret _].
  destruct (Hret [Toy.home_url; str "http://a.test/x"; str "http://a.test/y"] eq_refl)
    as (_ & H & _).
  split; [rewrite H; reflexivity|].
  split; [reflexivity|].
  destruct (index_site_fetches ascii_only Toy.cfg Toy.site (index_name_of 2)
              (str "http://a.test") Toy.tangled_url (str "TANGLED") Toy.world0 eq_refl)
    as [_ Hraise].
  apply Hraise. reflexivity.
Defined.

Lemma same_domain_links_on_site (X : services) (url html : text) (limit : Z)
    (urls : list text) :
  same_domain_links X url html limit = Ok urls ->
  Forall (fun p => p = url \/ same_site X url p = true) urls.
Proof.
  intros H.
  destruct (same_domain_links_tail X url html limit urls H) as (tl & -> & _ & _ & Hs & _).
  constructor; [by left|]. eapply Forall_impl; [exact Hs|]. by right.
Qed.

(** X17. A request stays on its site: every query it makes is filtered on
    the site id of its URL, every fetch goes to its URL or to an [http] or
    [https] URL of the same host, and every record it upserts belongs to
    such a page and carries the site id. *)
Theorem search_stays_on_site (U : unicode) (C : config) (X : services)
    (url query : text) (w : world (Store X)) :
  extends (on_site X url) w (snd (search U C X url query w)).
Proof.
  unfold search.
  apply bind_extends; [apply extends_refl|]. intros dim w1 _.
  apply bind_extends; [by apply ensure_index_extends|]. intros _ w2 _.
  apply bind_extends; [apply extends_refl|]. intros site ws Hs.
  unfold lift in Hs. injection Hs as Hs _.
  apply bind_extends; [apply extends_refl|]. intros _ w3 _.
  unfold answer.
  apply bind_extends; [by apply search_top_k_extends|]. intros probe w4 _.
  apply bind_extends; [|intros _ w5 _; by apply search_top_k_extends].
  destruct (truthy probe); [apply extends_refl|].
  unfold index_site.
  apply bind_extends; [apply fetch_html_extends; by left|]. intros html w5 _.
  apply bind_extends; [apply extends_refl|]. intros urls w6 Hl.
  unfold lift in Hl. injection Hl as Hl _.
  apply index_pages_extends.
  eapply Forall_impl; [exact (same_domain_links_on_site X _ _ _ _ Hl)|].
  intros page Hpage. split; [done|]. intros recs Hrecs.
  split; [done | by exists site].
Qed.

(** X18. Without an API key ([PINECONE_API_KEY] unset or empty) a request
    whose embedding model loads raises [ConfigurationError] before any
    call to the store or to the site. *)
Theorem search_without_api_key (U : unicode) (C : config) (X : services)
    (url query : text) (dim : N) (w : world (Store X)) :
  load_embedder X = Ok dim ->
  PINECONE_API_KEY C = None \/ PINECONE_API_KEY C = Some [] ->
  search U C X url query w = (Raise ConfigurationError, w).
Proof.
  intros Hd Hk.
  assert (pc C = Raise ConfigurationError) as Hpc
    by (unfold pc; by destruct Hk as [-> | ->]).
  unfold search, ensure_index, bind, lift. by rewrite Hd, Hpc.
Qed.

Lemma search_without_api_key_witness :
  let cfg := {| PINECONE_API_KEY := Some []; CHUNK_TOKEN_LIMIT := 500;
                TOP_K := 10; MAX_PAGES := 6 |} in
  load_embedder Toy.site = Ok 2%N
  /\ search ascii_only cfg Toy.site Toy.home_url (str "fox") Toy.world0
     = (Raise ConfigurationError, Toy.world0).
Proof.
  intros cfg. split; [reflexivity|].
  apply (search_without_api_key ascii_only cfg Toy.site Toy.home_url (str "fox") 2);
    [reflexivity | by right].
Defined.

(** ** Queries *)

Lemma dedupe_length (top_k : Z) (out : list row) :
  forall seen uniq,
    Z.of_nat (length (dedupe top_k out seen uniq))
    <= Z.max top_k (Z.of_nat (length uniq) + 1).
Proof.
  induction out as [|r rest IH]; intros seen uniq; cbn [dedupe]; [lia|].
  set (keep := negb (bool_decide (prefix_of 200 (chunk_html r) ∈ seen))
               && truthy (chunk_html r)).
  assert (length (if keep then uniq ++ [r] else uniq) <= length uniq + 1)%nat as Hl
    by (destruct keep; rewrite ?length_app; simpl; lia).
  destruct (top_k <=? Z.of_nat (length (if keep then uniq ++ [r] else uniq))) eqn:Hs.
  - lia.
  - apply Z.leb_gt in Hs.
    specialize (IH (if keep then {[prefix_of 200 (chunk_html r)]} ∪ seen else seen)
                   (if keep then uniq ++ [r] else uniq)). lia.
Qed.

(** What the loop keeps has content and is in the response. *)
Lemma dedupe_Forall (Q : row -> Prop) (top_k : Z) (out : list row) :
  (forall r, In r out -> chunk_html r <> [] -> Q r) ->
  forall seen uniq, Forall Q uniq -> Forall Q (dedupe top_k out seen uniq).
Proof.
  induction out as [|r rest IH]; intros HQ seen uniq Hu; cbn [dedupe]; [done|].
  assert (Forall Q (if negb (bool_decide (prefix_of 200 (chunk_html r) ∈ seen))
                       && truthy (chunk_html r)
                    then uniq ++ [r] else uniq)) as Hu'.
  { destruct (negb _ && truthy (chunk_html r)) eqn:Hk; [|done].
    apply Forall_snoc; [done|]. apply HQ; [by left|].
    apply andb_prop in Hk as [_ Hk]. by apply truthy_true. }
  destruct (top_k <=? _); [done|].
  apply IH; [|done]. intros r' Hin. apply HQ. by right.
Qed.

(** A result with content comes from a match with metadata. *)
Lemma row_of_content (m : match_) (r : row) :
  row_of m = Ok r -> chunk_html r <> [] ->
  exists md,
    m_metadata m = Some md
    /\ md_chunk_html md = Some (chunk_html r)
    /\ title r = md_title md
    /\ page_url r = md_page_url md
    /\ path r = get_or (md_path md) (str "/")
    /\ raw_score r = get_or (m_score m) 0%float.
Proof.
  unfold row_of. destruct (score_percent_of _); [|discriminate].
  simpl. intros [= <-]. simpl.
  destruct (m_metadata m) as [md|]; simpl; [|done].
  destruct (md_chunk_html md) as [c|] eqn:Hc; simpl; [|done].
  intros _. by exists md.
Qed.

Lemma search_top_k_inv (X : services) (idx query site : text) (top_k : Z)
    (w w' : world (Store X)) (rows : list row) :
  search_top_k X idx query site top_k w = (Ok rows, w') ->
  exists qv rest matches out,
    encode X [query] = Ok (qv :: rest)
    /\ index_query X (store w) idx qv (top_k * 3) site = Ok matches
    /\ map_result row_of matches = Ok out
    /\ rows = dedupe top_k out ∅ [].
Proof.
  unfold search_top_k, bind, lift, log, ret.
  destruct (encode X [query]) as [[|qv rest]|] eqn:He; try discriminate.
  simpl.
  destruct (index_query X (store w) idx qv (top_k * 3) site) as [ms|] eqn:Hq;
    [|discriminate].
  destruct (map_result row_of ms) as [out|] eqn:Hr; [|discriminate].
  intros [= <- _]. by exists qv, rest, ms, out.
Qed.

(** X19. [search_top_k] only reads: whatever it returns or raises, the
    store is as before and at most one call was made, a query for
    [3 * top_k] matches of the site; and for any [top_k], positive or not,
    it returns at most [max top_k 1] results. *)
Theorem search_top_k_reads (X : services) (idx query site : text) (top_k : Z)
    (w w' : world (Store X)) (r : result (list row)) :
  search_top_k X idx query site top_k w = (r, w') ->
  store w' = store w
  /\ (w' = w \/ w' = logged w (EvQuery idx site (top_k * 3)))
  /\ forall rows, r = Ok rows -> Z.of_nat (length rows) <= Z.max top_k 1.
Proof.
  intros H. pose proof (search_top_k_world X idx query site top_k w) as Hw.
  rewrite H in Hw. simpl in Hw. split_and!.
  - by destruct Hw as [-> | ->].
  - exact Hw.
  - intros rows ->. apply search_top_k_inv in H as (qv & rest & ms & out & _ & _ & _ & ->).
    pose proof (dedupe_length top_k out ∅ []). simpl in *. lia.
Qed.

Lemma search_top_k_reads_witness :
  exists r w',
    search_top_k Toy.site (index_name_of 2) (str "q") (str "http://a.test") 0
      Toy.world_dup = (r, w')
    /\ store w' = store Toy.world_dup
    /\ forall rows, r = Ok rows -> Z.of_nat (length rows) <= Z.max 0 1.
Proof.
  eexists _, _. split; [vm_compute; reflexivity|].
  edestruct (search_top_k_reads Toy.site (index_name_of 2) (str "q")
               (str "http://a.test") 0 Toy.world_dup) as (Hs & _ & Hl);
    [vm_compute; reflexivity|].
  split; [exact Hs | exact Hl].
Defined.

(** X20. Every result of [search_top_k] comes from a match of the response
    that has metadata with a non-empty [chunk_html]: the result carries
    that content, the title and page URL of the metadata, its path or "/"
    when the path is missing, and the score of the match or 0 when the
    score is missing.  A match without metadata or without [chunk_html]
    gives no result. *)
Theorem search_top_k_from_matches (X : services) (idx query site : text)
    (top_k : Z) (w w' : world (Store X)) (rows : list row) :
  search_top_k X idx query site top_k w = (Ok rows, w') ->
  exists qv matches,
    index_query X (store w) idx qv (top_k * 3) site = Ok matches
    /\ Forall (fun r =>
         chunk_html r <> []
         /\ exists m md,
           In m matches
           /\ m_metadata m = Some md
           /\ md_chunk_html md = Some (chunk_html r)
           /\ title r = md_title md
           /\ page_url r = md_page_url md
           /\ path r = get_or (md_path md) (str "/")
           /\ raw_score r = get_or (m_score m) 0%float) rows.
Proof.
  intros H. apply search_top_k_inv in H as (qv & rest & ms & out & _ & Hq & Hr & ->).
  exists qv, ms. split; [exact Hq|].
  apply map_result_Forall2 in Hr.
  apply dedupe_Forall; [|constructor].
  intros r Hin Hne. split; [exact Hne|].
  apply list_elem_of_In, list_elem_of_lookup in Hin as [i Hi].
  destruct (Forall2_lookup_r _ _ _ _ _ Hr Hi) as (m & Hm & Hrow).
  destruct (row_of_content m r Hrow Hne) as (md & ?).
  exists m, md. split; [|done].
  apply list_elem_of_In, list_elem_of_lookup. by exists i.
Qed.

Lemma search_top_k_from_matches_witness :
  exists rows w',
    search_top_k Toy.site (index_name_of 2) (str "q") (str "http://a.test") 5
      Toy.world_dup = (Ok rows, w')
    /\ Forall (fun r => chunk_html r <> []) rows.
Proof.
  eexists _, _. split; [vm_compute; reflexivity|].
  edestruct (search_top_k_from_matches Toy.site (index_name_of 2) (str "q")
               (str "http://a.test") 5 Toy.world_dup) as (qv & ms & _ & H);
    [vm_compute; reflexivity|].
  eapply Forall_impl; [exact H|]. by intros r [? _].
Defined.

(** ** Upserts of an indexing pass *)

Section Upserts.

Variable U : unicode.
Variable C : config.
Variable X : services.

Lemma upserts_app (a b : list event) : upserts (a ++ b) = upserts a ++ upserts b.
Proof. unfold upserts. apply omap_app. Qed.

Lemma upserts_logged_fetch (w : world (Store X)) (u : text) :
  upserts (trace (logged w (EvFetch u))) = upserts (trace w).
Proof. unfold logged. simpl. rewrite upserts_app. apply app_nil_r. Qed.

Lemma upsert_chunks_upserts (idx site page path : text) (chunks : list text)
    (w : world (Store X)) :
  let w' := snd (upsert_chunks U X idx site page path chunks w) in
  upserts (trace w') = upserts (trace w)
  \/ upserts (trace w') = upserts (trace w) ++ [page].
Proof.
  unfold upsert_chunks, bind, lift, log.
  destruct (encode X chunks) as [vecs|]; [|by left].
  destruct (map_result _ _) as [recs|]; [|by left].
  simpl. destruct (index_upsert X (store w) idx recs) as [s' r]. simpl.
  right. by rewrite upserts_app.
Qed.

Lemma index_page_upserts (idx site start start_html page : text) (w : world (Store X)) :
  let w' := snd (index_page U C X idx site start start_html page w) in
  upserts (trace w') = upserts (trace w)
  \/ upserts (trace w') = upserts (trace w) ++ [page].
Proof.
  cbv zeta. unfold index_page.
  set (k := fun html : text => bind _ _).
  assert (forall html w1,
            upserts (trace (snd (k html w1))) = upserts (trace w1)
            \/ upserts (trace (snd (k html w1))) = upserts (trace w1) ++ [page]) as Hk.
  { intros html w1. subst k. cbv beta zeta. unfold bind, lift.
    destruct (detect_page_path X page html) as [path|]; [|by left].
    destruct (clean_html_and_get_dom_chunks U X html) as [snippets|]; [|by left].
    destruct (truthy _); [apply (upsert_chunks_upserts idx site page) | by left]. }
  set (w' := snd (bind (page_html X start start_html page) k w)).
  assert (w' = snd (k start_html w)
          \/ (exists html, w' = snd (k html (logged w (EvFetch page))))
          \/ w' = logged w (EvFetch page)) as Hw'.
  { subst w'. unfold bind, page_html. case_bool_decide; [by left|].
    rewrite fetch_html_run.
    destruct (http_get X page) as [html|e]; right; [left | right]; eauto. }
  destruct Hw' as [-> | [[html ->] | ->]].
  - apply Hk.
  - destruct (Hk html (logged w (EvFetch page))) as [Hu | Hu]; rewrite Hu;
      [left | right]; by rewrite upserts_logged_fetch.
  - left. apply upserts_logged_fetch.
Qed.

Lemma index_pages_upserts (idx site start start_html : text) (urls : list text)
    (w : world (Store X)) :
  exists ups,
    upserts (trace (snd (index_pages U C X idx site start start_html urls w)))
    = upserts (trace w) ++ ups
    /\ sublist ups urls.
Proof.
  revert w. induction urls as [|page rest IH]; intros w.
  - exists []. simpl. by rewrite app_nil_r.
  - rewrite index_pages_cons.
    destruct (IH (snd (index_page U C X idx site start start_html page w)))
      as (ups & -> & Hsub).
    destruct (index_page_upserts idx site start start_html page w) as [-> | ->].
    + exists ups. split; [done | by apply sublist_cons].
    + exists (page :: ups). split; [by rewrite <- app_assoc | by apply sublist_skip].
Qed.

End Upserts.

(** X21. An indexing pass upserts at most once per page: the pages it
    upserts, in the order of the calls, are a sublist of the URLs that
    [same_domain_links] found; when [same_domain_links] raises, the pass
    upserts nothing. *)
Theorem index_site_upserts (U : unicode) (C : config) (X : services)
    (idx site url html : text) (w : world (Store X)) :
  http_get X url = Ok html ->
  exists ups,
    upserts (trace (snd (index_site U C X idx site url w)))
    = upserts (trace w) ++ ups
    /\ match same_domain_links X url html (MAX_PAGES C) with
       | Ok urls => sublist ups urls
       | Raise _ => ups = []
       end.
Proof.
  intros Hf.
  destruct (same_domain_links X url html (MAX_PAGES C)) as [urls|e] eqn:Hl.
  - rewrite (index_site_run U C X idx site url html _ w Hf Hl).
    destruct (index_pages_upserts U C X idx site url html urls
                (logged w (EvFetch url))) as (ups & -> & Hsub).
    exists ups. split; [|exact Hsub].
    by rewrite upserts_logged_fetch.
  - exists []. split; [|reflexivity].
    unfold index_site. unfold bind at 1. rewrite fetch_html_run, Hf.
    unfold bind at 1. unfold lift. rewrite Hl.
    cbn [snd]. by rewrite upserts_logged_fetch, app_nil_r.
Qed.

Lemma index_site_upserts_witness :
  http_get Toy.site Toy.home_url = Ok (str "HOME")
  /\ same_domain_links Toy.site Toy.home_url (str "HOME") (MAX_PAGES Toy.cfg)
     = Ok [Toy.home_url; str "http://a.test/x"; str "http://a.test/y"]
  /\ upserts (trace (snd (index_site ascii_only Toy.cfg Toy.site (index_name_of 2)
                            (str "http://a.test") Toy.home_url Toy.world0)))
     = [Toy.home_url; str "http://a.test/y"].
Proof.
  split; [reflexivity|]. split; [reflexivity|].
  destruct (index_site_upserts ascii_only Toy.cfg Toy.site (index_name_of 2)
              (str "http://a.test") Toy.home_url (str "HOME") Toy.world0
              eq_refl) as (ups & H & _).
  vm_compute. reflexivity.
Defined.

Lemma same_domain_links_monotone_witness :
  2 <= 3
  /\ exists more,
    [Toy.home_url; str "http://a.test/x"; str "http://a.test/y"]
    = [Toy.home_url; str "http://a.test/x"] ++ more.
Proof.
  split; [lia|].
  apply (same_domain_links_monotone Toy.site Toy.home_url (str "HOME") 2 3);
    [lia | reflexivity | reflexivity].
Defined.

(** ** Greedy packing *)

Lemma chunk_loop_greedy (U : unicode) (limit : Z) (snippets : list text) :
  forall chunks buf bt,
    bt = sum_tokens U buf -> (buf = [] \/ bt <= limit) ->
    Forall (fun s => tokenize_len U s <= limit) snippets ->
    exists groups,
      List.concat groups = buf ++ snippets
      /\ chunk_loop U limit snippets chunks buf bt
         = chunks ++ List.map (fun g => strip U (join [SP] g)) groups
      /\ Forall (fun g => g <> [] /\ sum_tokens U g <= limit) groups
      /\ (forall i g h rest,
            groups !! i = Some g -> groups !! S i = Some (h :: rest) ->
            limit < sum_tokens U g + tokenize_len U h)
      /\ (buf <> [] -> exists g gs, groups = (buf ++ g) :: gs).
Proof.
  induction snippets as [|snip rest IH]; intros chunks buf bt Hbt Hinv Hsmall.
  - cbn [chunk_loop]. destruct buf as [|b buf].
    + exists []. split_and!; try done. by rewrite app_nil_r.
    + exists [b :: buf]. cbn [truthy]. split_and!.
      * simpl. by rewrite !app_nil_r.
      * done.
      * constructor; [|constructor]. split; [done|]. destruct Hinv; [done | lia].
      * intros [|i] g h r; simpl; [|done]. done.
      * intros _. exists [], []. by rewrite app_nil_r.
  - apply Forall_cons in Hsmall as [Hs Hrest]. cbn [chunk_loop].
    rewrite (Z.gtb_ltb (tokenize_len U snip)), (proj2 (Z.ltb_ge _ _) Hs).
    destruct ((bt + tokenize_len U snip >? limit) && truthy buf) eqn:Hfl.
    + apply andb_prop in Hfl as [Hover Hne]. apply truthy_true in Hne.
      apply Z.gtb_lt in Hover.
      destruct (IH (chunks ++ [strip U (join [SP] buf)]) [snip]
                   (tokenize_len U snip)) as (groups & Hcat & Hrun & Hall & Hadj & Hhd);
        [simpl; lia | by right | done |].
      destruct Hhd as (g & gs & ->); [done|].
      exists (buf :: ([snip] ++ g) :: gs). split_and!.
      * simpl in *. by rewrite Hcat.
      * rewrite Hrun. by rewrite <- app_assoc.
      * constructor; [|done]. split; [done|]. destruct Hinv; [done | lia].
      * intros [|i] g' h r Hg Hh.
        -- simpl in Hg, Hh. injection Hg as <-. injection Hh as <- _. lia.
        -- by apply (Hadj i g' h r).
      * intros _. by exists [], (([snip] ++ g) :: gs); rewrite app_nil_r.
    + destruct (IH chunks (buf ++ [snip]) (bt + tokenize_len U snip))
        as (groups & Hcat & Hrun & Hall & Hadj & Hhd).
      * rewrite sum_tokens_app. simpl. lia.
      * right. apply andb_false_iff in Hfl as [Hfl | Hfl].
        -- rewrite Z.gtb_ltb in Hfl. apply Z.ltb_ge in Hfl. lia.
        -- apply truthy_false in Hfl. subst buf bt. simpl. lia.
      * done.
      * destruct Hhd as (g & gs & ->); [by destruct buf|].
        exists (((buf ++ [snip]) ++ g) :: gs). split_and!; try done.
        -- by rewrite Hcat, <- app_assoc.
        -- intros _. exists ([snip] ++ g), gs. by rewrite <- app_assoc.
Qed.

(** X22. Without oversized blocks the packing is greedy and keeps the
    order: the chunks are consecutive groups of blocks joined with single
    spaces, every group fits the limit, and a group ends only where the
    first block of the next group would not fit into it any more. *)
Theorem chunk_by_token_limit_greedy (U : unicode) (snippets : list text) (limit : Z) :
  Forall (fun s => tokenize_len U s <= limit) snippets ->
  exists groups,
    List.concat groups = snippets
    /\ chunk_by_token_limit U snippets limit
       = List.map (fun g => strip U (join [SP] g)) groups
    /\ Forall (fun g => g <> [] /\ sum_tokens U g <= limit) groups
    /\ forall i g h rest,
        groups !! i = Some g -> groups !! S i = Some (h :: rest) ->
        limit < sum_tokens U g + tokenize_len U h.
Proof.
  intros H.
  destruct (chunk_loop_greedy U limit snippets [] [] 0)
    as (groups & Hcat & Hrun & Hall & Hadj & _); [done | by left | done |].
  by exists groups.
Qed.

Lemma chunk_by_token_limit_greedy_witness :
  Forall (fun s => tokenize_len ascii_only s <= 3) [str "a b"; str "c d"; str "e"]
  /\ chunk_by_token_limit ascii_only [str "a b"; str "c d"; str "e"] 3
     = [str "a b"; str "c d e"].
Proof.
  assert (Forall (fun s => tokenize_len ascii_only s <= 3)
            [str "a b"; str "c d"; str "e"]) as H
    by (repeat constructor; vm_compute; discriminate).
  split; [exact H|].
  destruct (chunk_by_token_limit_greedy ascii_only _ 3 H) as (groups & _ & E & _).
  vm_compute. reflexivity.
Defined.
